(** * PO vs Invoice comparator: a shallow embedding of [src/app.py]

    The development follows the Python module top to bottom:
    - [PyStr]: the string methods the module calls ([str.lower],
      [str.strip], slicing, [str()] of a JSON scalar);
    - [Difflib]: [difflib.SequenceMatcher(None, a, b).ratio()], the
      standard-library routine behind [similar] (app.py:88-89);
    - [Extractor]: [call_gemini_for_structure] (app.py:41-85), with the LLM
      service and the JSON decoder as oracles and the issued requests logged;
    - [Comparator]: [similar] and [compare_structures] (app.py:88-175);
    - [Store]: [compare_structures] once more, with the lists and the set
      it builds as objects of a store;
    - [TextExtractor] and [App]: [extract_text_from_pdf] (app.py:26-38) and
      the handler of the Compare button (app.py:187-215).

    Scores are compared as exact rationals: [2.0 * matches / length] is the
    rational [2 * matches / length].  Two such quotients that differ, for
    descriptions of fewer than 2^26 characters, differ by more than the
    spacing of the floats between 0 and 1, and rounding to a float is
    monotone; so [score > best_score] and [best_score >= threshold] decide
    on floats what they decide here on rationals, the threshold being the
    float of a rational such as 70/100.  The score a row shows is another
    matter: [round(best_score, 2)] rounds the float, not the quotient, and
    [round2] goes through [fl64], the binary64 value of the quotient. *)

From Stdlib Require Import QArith Qround Ascii String DecimalString.
From stdpp Require Import gmap strings list sorting.

Local Open Scope nat_scope.

(** ** Python strings *)

Module PyStr.

(** Characters are the code points 0..255. *)
Definition code (c : ascii) : nat := nat_of_ascii c.

(** [str.isspace] on one character: TAB..CR, FS..US, SPACE, NEL, NBSP. *)
Definition is_space (c : ascii) : bool :=
  let n := code c in
  ((9 <=? n) && (n <=? 13)) || ((28 <=? n) && (n <=? 32))
  || (n =? 133) || (n =? 160).

(** [str.lower] on one character: A..Z and the Latin-1 capitals
    U+00C0..U+00DE (the multiplication sign U+00D7 apart) move up by 32. *)
Definition lower_char (c : ascii) : ascii :=
  let n := code c in
  if ((65 <=? n) && (n <=? 90))
     || ((192 <=? n) && (n <=? 222) && negb (n =? 215))
  then ascii_of_nat (n + 32) else c.

Definition chars (s : string) : list ascii := list_ascii_of_string s.
Definition of_chars (l : list ascii) : string := string_of_list_ascii l.

(** [s.lower()] *)
Definition lower (s : string) : string := of_chars (map lower_char (chars s)).

Fixpoint lstrip_chars (l : list ascii) : list ascii :=
  match l with
  | c :: l' => if is_space c then lstrip_chars l' else l
  | [] => []
  end.

Definition rstrip_chars (l : list ascii) : list ascii :=
  rev (lstrip_chars (rev l)).

(** [s.strip()] *)
Definition strip (s : string) : string :=
  of_chars (rstrip_chars (lstrip_chars (chars s))).

(** [s[:n]] *)
Definition prefix (n : nat) (s : string) : string :=
  of_chars (take n (chars s)).

(** [s.startswith(c)] and [s.endswith(c)] for a one-character [c]. *)
Definition startswith (c : ascii) (s : string) : bool :=
  match chars s with
  | x :: _ => Ascii.eqb x c
  | [] => false
  end.

Definition endswith (c : ascii) (s : string) : bool :=
  match rev (chars s) with
  | x :: _ => Ascii.eqb x c
  | [] => false
  end.

(** Truth value of a string: empty is false. *)
Definition truthy (s : string) : bool :=
  match s with
  | EmptyString => false
  | String _ _ => true
  end.

End PyStr.

(** ** difflib.SequenceMatcher

    [SequenceMatcher(None, a, b)]: no junk predicate, [autojunk] left at its
    default [True]. *)

Module Difflib.

Section Matcher.

Variables a b : list ascii.

(** [isjunk] is [None], so [bjunk] is the empty set. *)
Definition isbjunk (c : ascii) : bool := false.

Fixpoint indices_from (elt : ascii) (l : list ascii) (j : nat) : list nat :=
  match l with
  | [] => []
  | c :: l' =>
      if Ascii.eqb c elt then j :: indices_from elt l' (S j)
      else indices_from elt l' (S j)
  end.

(** [b2j.get(elt, [])] after [__chain_b]: the indices of [elt] in [b], in
    increasing order; an element occurring more than [n // 100 + 1] times in
    a [b] of 200 elements or more is popular and has been deleted. *)
Definition b2j_get (elt : ascii) : list nat :=
  let idxs := indices_from elt b 0 in
  let n := length b in
  if (200 <=? n) && (n / 100 + 1 <? length idxs) then [] else idxs.

(** State of the search: [j2len]/[newj2len] and the best block so far. *)
Record best := Best { besti : nat; bestj : nat; bestsize : nat }.

(** The loop [for j in b2j.get(a[i], nothing)] of [find_longest_match].
    [j2len.get(j-1, 0)] is 0 at [j = 0]: no key is negative.  [k] never
    exceeds [i + 1], so [i - k + 1] is written [i + 1 - k]. *)
Fixpoint scan_js (blo bhi i : nat) (j2len : gmap nat nat) (js : list nat)
    (st : gmap nat nat * best) : gmap nat nat * best :=
  match js with
  | [] => st
  | j :: js' =>
      if j <? blo then scan_js blo bhi i j2len js' st
      else if bhi <=? j then st
      else
        let '(newj2len, bst) := st in
        let k := match j with
                 | O => 0
                 | S j' => default 0 (j2len !! j')
                 end + 1 in
        let bst' := if bestsize bst <? k
                    then Best (i + 1 - k) (j + 1 - k) k else bst in
        scan_js blo bhi i j2len js' (<[j := k]> newj2len, bst')
  end.

(** One round of [for i in range(alo, ahi)]; [i] is an index of [a]. *)
Definition scan_i (blo bhi : nat) (st : gmap nat nat * best) (i : nat)
    : gmap nat nat * best :=
  let '(j2len, bst) := st in
  match a !! i with
  | Some ai => scan_js blo bhi i j2len (b2j_get ai) (∅, bst)
  | None => st
  end.

Definition same_at (i j : nat) : bool :=
  match a !! i, b !! j with
  | Some x, Some y => Ascii.eqb x y
  | _, _ => false
  end.

Definition junk_at (j : nat) : bool :=
  match b !! j with
  | Some y => isbjunk y
  | None => false
  end.

(** [while besti > alo and bestj > blo and <side>(b[bestj-1]) and
    a[besti-1] == b[bestj-1]]; [side] is [not isbjunk] in the first pair of
    loops and [isbjunk] in the second. *)
Fixpoint extend_left (side : nat -> bool) (alo blo : nat) (bi bj bs : nat)
    : best :=
  match bi, bj with
  | S bi', S bj' =>
      if (alo <? bi) && (blo <? bj) && side bj' && same_at bi' bj'
      then extend_left side alo blo bi' bj' (S bs)
      else Best bi bj bs
  | _, _ => Best bi bj bs
  end.

(** [while besti+bestsize < ahi and bestj+bestsize < bhi and ...]; the
    loop runs at most [ahi - (besti + bestsize)] rounds, which is the
    [rounds] it is given. *)
Fixpoint extend_right (side : nat -> bool) (ahi bhi : nat) (rounds : nat)
    (bi bj bs : nat) : best :=
  match rounds with
  | O => Best bi bj bs
  | S rounds' =>
      if (bi + bs <? ahi) && (bj + bs <? bhi) && side (bj + bs)
         && same_at (bi + bs) (bj + bs)
      then extend_right side ahi bhi rounds' bi bj (S bs)
      else Best bi bj bs
  end.

Definition extend (side : nat -> bool) (alo ahi blo bhi : nat) (m : best)
    : best :=
  let l := extend_left side alo blo (besti m) (bestj m) (bestsize m) in
  extend_right side ahi bhi (ahi - (besti l + bestsize l))
    (besti l) (bestj l) (bestsize l).

Definition find_longest_match (alo ahi blo bhi : nat) : best :=
  let m0 := snd (fold_left (scan_i blo bhi) (seq alo (ahi - alo))
                   (∅, Best alo blo 0)) in
  let m1 := extend (fun j => negb (junk_at j)) alo ahi blo bhi m0 in
  extend junk_at alo ahi blo bhi m1.

(** The loop [while queue:] of [get_matching_blocks].  The queue is a
    stack; its top is the head of the list.  Every round removes an entry
    and adds entries over strictly shorter stretches of [a], so the loop
    ends; [None] is a loop cut short by [fuel]. *)
Definition region : Type := nat * nat * nat * nat.

Fixpoint blocks_loop (fuel : nat) (queue : list region) (acc : list best)
    : option (list best) :=
  match queue with
  | [] => Some acc
  | (alo, ahi, blo, bhi) :: queue' =>
      match fuel with
      | O => None
      | S fuel' =>
          let x := find_longest_match alo ahi blo bhi in
          let '(i, j, k) := (besti x, bestj x, bestsize x) in
          if 0 <? k then
            let q1 := if (alo <? i) && (blo <? j)
                      then (alo, i, blo, j) :: queue' else queue' in
            let q2 := if (i + k <? ahi) && (j + k <? bhi)
                      then (i + k, ahi, j + k, bhi) :: q1 else q1 in
            blocks_loop fuel' q2 (acc ++ [x])
          else blocks_loop fuel' queue' acc
      end
  end.

(** Tuple order of [matching_blocks.sort()]. *)
Definition block_leb (x y : best) : bool :=
  if besti x <? besti y then true
  else if besti y <? besti x then false
  else if bestj x <? bestj y then true
  else if bestj y <? bestj x then false
  else bestsize x <=? bestsize y.

Fixpoint insert_block (x : best) (l : list best) : list best :=
  match l with
  | [] => [x]
  | y :: l' => if block_leb x y then x :: l else y :: insert_block x l'
  end.

Definition sort_blocks (l : list best) : list best :=
  fold_right insert_block [] l.

(** The loop that collapses adjacent blocks; [cur] is [(i1, j1, k1)]. *)
Fixpoint collapse (cur : best) (l : list best) (non_adjacent : list best)
    : list best :=
  match l with
  | [] =>
      if 0 <? bestsize cur then non_adjacent ++ [cur] else non_adjacent
  | x :: l' =>
      if (besti cur + bestsize cur =? besti x)
         && (bestj cur + bestsize cur =? bestj x)
      then collapse (Best (besti cur) (bestj cur) (bestsize cur + bestsize x))
             l' non_adjacent
      else collapse x l'
             (if 0 <? bestsize cur then non_adjacent ++ [cur]
              else non_adjacent)
  end.

Definition get_matching_blocks : list best :=
  let la := length a in
  let lb := length b in
  let matching_blocks :=
    default [] (blocks_loop (2 * la + 1) [(0, la, 0, lb)] []) in
  collapse (Best 0 0 0) (sort_blocks matching_blocks) []
    ++ [Best la lb 0].

Definition matches : nat :=
  foldr (fun x s => bestsize x + s) 0 get_matching_blocks.

End Matcher.

(** [_calculate_ratio(matches, length)] *)
Definition _calculate_ratio (m length : nat) : Q :=
  if length =? 0 then 1%Q
  else Qred (Z.of_nat (2 * m) # Pos.of_nat length).

(** [SequenceMatcher(None, a, b).ratio()] *)
Definition ratio (a b : string) : Q :=
  let a := PyStr.chars a in
  let b := PyStr.chars b in
  _calculate_ratio (matches a b) (length a + length b).

End Difflib.

(** ** JSON scalars and [str()] *)

(** A header value or a quantity, price or total as [json.loads] delivers
    it.  A float is identified by its [repr], which is what [str()] returns
    for it. *)
Inductive value :=
  | VNone
  | VBool (b : bool)
  | VInt (z : Z)
  | VFloat (repr : string)
  | VStr (s : string).

(** [str(v)] *)
Definition py_str (v : value) : string :=
  match v with
  | VNone => "None"
  | VBool true => "True"
  | VBool false => "False"
  | VInt z => NilEmpty.string_of_int (Z.to_int z)
  | VFloat repr => repr
  | VStr s => s
  end.

(** The nearest integer, a value half way going to the even one. *)
Definition round_half_even (q : Q) : Z :=
  let n := Qnum q in
  let d := Z.pos (Qden q) in
  let fl := (n / d)%Z in
  let r2 := (2 * (n mod d))%Z in
  if (r2 <? d)%Z then fl
  else if (d <? r2)%Z then (fl + 1)%Z
  else if Z.even fl then fl else (fl + 1)%Z.

(** *** Binary floating point

    A score is a Python float: the binary64 number nearest to the quotient
    [2.0 * matches / length], a value half way between two floats going to
    the one with an even significand.  A float is written here as the
    rational it stands for; the exponent range of binary64, which no score
    comes near, is left aside. *)

(** [2 ** k] *)
Definition pow2 (k : Z) : Q :=
  if (0 <=? k)%Z then (2 ^ k # 1) else (1 # Z.to_pos (2 ^ (- k))).

(** The exponent [e] with [2 ** e <= q < 2 ** (e + 1)], for [q > 0]. *)
Definition floor_log2 (q : Q) : Z :=
  let f := (Z.log2 (Qnum q) - Z.log2 (Z.pos (Qden q)))%Z in
  if Qle_bool (pow2 f) q then f else (f - 1)%Z.

(** The float of [q > 0]: a significand of 53 bits. *)
Definition fl64_pos (q : Q) : Q :=
  let p := (52 - floor_log2 q)%Z in
  (round_half_even (q * pow2 p) # 1) * pow2 (- p).

(** The float of a rational. *)
Definition fl64 (q : Q) : Q :=
  match Qnum q with
  | Z0 => 0
  | Zpos _ => Qred (fl64_pos q)
  | Zneg _ => Qred (- fl64_pos (- q))
  end.

(** [round(x, 2)] at the float [x] of the quotient [q] (app.py:155).
    [round] takes the decimal with two places nearest to the exact value of
    the float [x], a value half way going to the even digit, and returns
    the float nearest to that decimal, which prints as the decimal.  The
    float of 1/40 lies above 0.025 and gives 0.03; the float of 23/40 lies
    below 0.575 and gives 0.57; 1/8 is a float, half way, and gives
    0.12. *)
Definition round2 (q : Q) : Q :=
  Qred (round_half_even (fl64 q * 100) # 100).

(** ** The structure extractor (app.py:41-85) *)

Module Extractor.

(** [re.search(r"(\{[\s\S]*\})", s)]: from the first opening brace to the
    last closing brace after it. *)
Definition open_brace : ascii := ascii_of_nat 123.
Definition close_brace : ascii := ascii_of_nat 125.

Fixpoint from_first (c : ascii) (l : list ascii) : option (list ascii) :=
  match l with
  | [] => None
  | x :: l' => if Ascii.eqb x c then Some l else from_first c l'
  end.

Definition search_braces (s : string) : option string :=
  match from_first open_brace (PyStr.chars s) with
  | None => None
  | Some l =>
      match from_first close_brace (rev l) with
      | None => None
      | Some r => Some (PyStr.of_chars (rev r))
      end
  end.

Definition text_limit : nat := 150 * 100.

(** An exception, as the [except] clauses of app.py:82-85 tell exceptions
    apart: [json.JSONDecodeError], or another [Exception] with its
    message. *)
Inductive exn :=
  | JSONDecodeError
  | Other (message : string).

(** What a call does: [return parsed, error], where a component is [None]
    when the function returns [None] there; or it is left by
    [UnboundLocalError]. *)
Inductive result (parsed : Type) :=
  | Return (value : option parsed) (error : option string)
  | UnboundLocalError.

Arguments Return {parsed} value error.
Arguments UnboundLocalError {parsed}.

Section Service.

(** The values [json.loads] returns, [None] apart. *)
Variable parsed : Type.

(** The f-string of app.py:46-65 at a document type and a text. *)
Variable prompt_for : string -> string -> string.

(** app.py:68-70 up to [response.text]: the service is handed the prompt,
    and its response has a text or an exception is raised on the way.  The
    constructor of line 68 takes a constant and sends nothing. *)
Variable generate_content : string -> string + exn.

(** [json.loads]: the value decoded, [None] being the JSON [null], or the
    exception raised, [RecursionError] on an object nested too deep being
    one that is no [json.JSONDecodeError]. *)
Variable json_loads : string -> option parsed + exn.

(** [not GEMINI_KEY]: the variable is unset or empty. *)
Definition no_key (GEMINI_KEY : option string) : bool :=
  match GEMINI_KEY with
  | Some k => negb (PyStr.truthy k)
  | None => true
  end.

(** What the call does, and the prompts handed to the service while it
    ran. *)
Definition outcome : Type := result parsed * list string.

(** app.py:41-85.  Line 83 reads [raw]: when the [json.JSONDecodeError]
    comes from lines 68-70, [raw] is not bound yet and the handler itself
    raises. *)
Definition call_gemini_for_structure (GEMINI_KEY : option string)
    (text doc_type : string) : outcome :=
  if no_key GEMINI_KEY then (Return None (Some "No API key configured."), [])
  else
    let prompt := prompt_for doc_type (PyStr.prefix text_limit text) in
    match generate_content prompt with
    | inr JSONDecodeError => (UnboundLocalError, [prompt])
    | inr (Other e) =>
        (Return None (Some ("Error calling Gemini: " +:+ e)), [prompt])
    | inl response_text =>
        let raw := PyStr.strip response_text in
        let json_text :=
          if negb (PyStr.startswith open_brace raw
                   && PyStr.endswith close_brace raw)
          then match search_braces raw with
               | Some m => m
               | None => raw
               end
          else raw in
        match json_loads json_text with
        | inl parsed => (Return parsed None, [prompt])
        | inr JSONDecodeError =>
            (Return None
               (Some ("AI returned invalid JSON. Raw response:"
                      +:+ String (ascii_of_nat 10) raw)),
             [prompt])
        | inr (Other e) =>
            (Return None (Some ("Error calling Gemini: " +:+ e)), [prompt])
        end
    end.

End Service.

End Extractor.

(** ** The comparator (app.py:88-175) *)

Module Comparator.

(** A line item: a dict read at the keys [description], [qty],
    [unit_price] and [total]; [None] is a key that is absent.  A
    description that is present is a string, the other values are JSON
    scalars. *)
Record LineItem := {
  description : option string;
  qty : option value;
  unit_price : option value;
  total : option value
}.

(** A structured record: a dict read at the keys [number], [vendor],
    [date], [grand_total] and [items]. *)
Record StructuredDocument := {
  number : option value;
  vendor : option value;
  date : option value;
  grand_total : option value;
  items : option (list LineItem)
}.

(** [d.get(key, dflt)] *)
Definition get {A} (field : option A) (dflt : A) : A := default dflt field.

(** One entry of [header_checks]: [(field_label, po_val, inv_val, status)]. *)
Definition header_check : Type := string * value * value * string.

(** One entry of [rows]. *)
Record row := {
  field : string;
  po_value : string;
  inv_value : string;
  po_qty : value;
  inv_qty : value;
  po_price : value;
  inv_price : value;
  po_total : value;
  inv_total : value;
  status : string;
  match_score : Q
}.

(** app.py:88-89 *)
Definition similar (a b : string) : Q :=
  Difflib.ratio (PyStr.strip (PyStr.lower a)) (PyStr.strip (PyStr.lower b)).

(** app.py:97-102: the label and the key read in each record. *)
Definition header_fields
    : list (string * (StructuredDocument -> option value)
                   * (StructuredDocument -> option value)) :=
  [ ("Document Number", number, number);
    ("Vendor", vendor, vendor);
    ("Date", date, date);
    ("Grand Total", grand_total, grand_total) ].

(** app.py:105, the value bound to [status]. *)
Definition header_status (po_val inv_val : value) : string :=
  if PyStr.truthy (PyStr.strip (py_str po_val))
     && PyStr.truthy (PyStr.strip (py_str inv_val))
     && String.eqb (PyStr.strip (py_str po_val))
                   (PyStr.strip (py_str inv_val))
  then "Match" else "Mismatch".

(** app.py:103-106.  A record that is [None] or the empty dict is false. *)
Definition header_row (po_struct inv_struct : option StructuredDocument)
    (f : string * (StructuredDocument -> option value)
                * (StructuredDocument -> option value)) : header_check :=
  let '(field_label, po_key, inv_key) := f in
  let po_val := match po_struct with
                | Some d => get (po_key d) (VStr "")
                | None => VStr ""
                end in
  let inv_val := match inv_struct with
                 | Some d => get (inv_key d) (VStr "")
                 | None => VStr ""
                 end in
  (field_label, po_val, inv_val, header_status po_val inv_val).

(** [enumerate(l)] *)
Definition enumerate {A} (l : list A) : list (nat * A) :=
  zip (seq 0 (length l)) l.

(** [best_score], [best_match], [best_idx] of app.py:114-116. *)
Record best := Best {
  best_score : Q;
  best_match : option LineItem;
  best_idx : option nat
}.

(** app.py:117-124, one round of the scan over the invoice items. *)
Definition scan_step (po_it : LineItem) (inv_used : gset (option nat))
    (st : best) (e : nat * LineItem) : best :=
  let '(idx, inv_it) := e in
  if decide (Some idx ∈ inv_used) then st
  else
    let score := similar (get (description po_it) "")
                         (get (description inv_it) "") in
    if negb (Qle_bool score (best_score st))
    then Best score (Some inv_it) (Some idx)
    else st.

Definition scan (po_it : LineItem) (inv_items : list LineItem)
    (inv_used : gset (option nat)) : best :=
  fold_left (scan_step po_it inv_used) (enumerate inv_items)
    (Best 0 None None).

(** app.py:126-130: the updated [inv_used] and the accepted [inv_it].
    [inv_used.add(best_idx)] also runs when [best_idx] is [None]. *)
Definition accept (item_match_threshold : Q) (inv_used : gset (option nat))
    (bst : best) : gset (option nat) * option LineItem :=
  if Qle_bool item_match_threshold (best_score bst)
  then ({[ best_idx bst ]} ∪ inv_used, best_match bst)
  else (inv_used, None).

(** app.py:140-142, the value [item_status] ends with. *)
Definition item_status (po_qty inv_qty po_price inv_price po_total inv_total
    : value) : string :=
  if negb (String.eqb (py_str po_qty) (py_str inv_qty))
     || negb (String.eqb (py_str po_price) (py_str inv_price))
     || negb (String.eqb (py_str po_total) (py_str inv_total))
  then "Mismatch" else "Match".

(** app.py:132-156: the row of a PO item. *)
Definition po_row (po_it : LineItem) (inv_it : option LineItem)
    (score : Q) : row :=
  let po_qty := get (qty po_it) (VStr "") in
  let inv_qty := match inv_it with
                 | Some it => get (qty it) (VStr "")
                 | None => VStr ""
                 end in
  let po_price := get (unit_price po_it) (VStr "") in
  let inv_price := match inv_it with
                   | Some it => get (unit_price it) (VStr "")
                   | None => VStr ""
                   end in
  let po_total := get (total po_it) (VStr "") in
  let inv_total := match inv_it with
                   | Some it => get (total it) (VStr "")
                   | None => VStr ""
                   end in
  {| field := "Item";
     po_value := get (description po_it) "";
     inv_value := match inv_it with
                  | Some it => get (description it) ""
                  | None => ""
                  end;
     po_qty := po_qty; inv_qty := inv_qty;
     po_price := po_price; inv_price := inv_price;
     po_total := po_total; inv_total := inv_total;
     status := item_status po_qty inv_qty po_price inv_price
                 po_total inv_total;
     match_score := round2 score |}.

(** app.py:113-156, one round of the loop over the PO items; the state is
    [inv_used] and [rows]. *)
Definition po_step (item_match_threshold : Q) (inv_items : list LineItem)
    (st : gset (option nat) * list row) (po_it : LineItem)
    : gset (option nat) * list row :=
  let '(inv_used, rows) := st in
  let bst := scan po_it inv_items inv_used in
  let '(inv_used', inv_it) := accept item_match_threshold inv_used bst in
  (inv_used', rows ++ [po_row po_it inv_it (best_score bst)]).

(** app.py:161-173: the row of an invoice item no PO item claimed. *)
Definition unmatched_row (inv_it : LineItem) : row :=
  {| field := "Item (Unmatched Invoice)";
     po_value := "";
     inv_value := get (description inv_it) "";
     po_qty := VStr "";
     inv_qty := get (qty inv_it) (VStr "");
     po_price := VStr "";
     inv_price := get (unit_price inv_it) (VStr "");
     po_total := VStr "";
     inv_total := get (total inv_it) (VStr "");
     status := "Mismatch";
     match_score := 0 |}.

(** app.py:159-173 *)
Definition unmatched_step (inv_used : gset (option nat)) (rows : list row)
    (e : nat * LineItem) : list row :=
  let '(idx, inv_it) := e in
  if decide (Some idx ∈ inv_used) then rows
  else rows ++ [unmatched_row inv_it].

(** app.py:109-110 *)
Definition items_of (d : option StructuredDocument) : list LineItem :=
  match d with
  | Some d => get (items d) []
  | None => []
  end.

(** app.py:92-175 *)
Definition compare_structures (po_struct inv_struct : option StructuredDocument)
    (item_match_threshold : Q) : list header_check * list row :=
  let header_checks := map (header_row po_struct inv_struct) header_fields in
  let po_items := items_of po_struct in
  let inv_items := items_of inv_struct in
  let '(inv_used, rows) :=
    fold_left (po_step item_match_threshold inv_items) po_items (∅, []) in
  let rows :=
    fold_left (unmatched_step inv_used) (enumerate inv_items) rows in
  (header_checks, rows).

(** The default of the parameter [item_match_threshold]. *)
Definition default_threshold : Q := 7 # 10.

(** app.py:179: the slider delivers a percentage between 50 and 95. *)
Definition slider_threshold (percent : nat) : Q :=
  Z.of_nat percent # 100.

End Comparator.

(** ** The comparator on a store of objects (app.py:92-175)

    [compare_structures] builds its report in three objects it creates,
    the lists [rows] and [header_checks] and the set [inv_used], and
    changes them in place with [append] and [add].  Here these objects
    live in a store that outlives a call, next to the objects earlier calls
    left there, and a variable holds the address of its object.  The two
    records are read with [get] and by iteration only and are written
    nowhere; they stay values. *)

Module Store.

Import Comparator.

(** The objects a call creates and changes in place. *)
Inductive object :=
  | ListOfChecks (l : list header_check)
  | ListOfRows (l : list row)
  | SetOfIndices (u : gset (option nat)).

(** The objects alive, by address. *)
Abbreviation store := (gmap nat object).

(** [[]] and [set()]: a new object, at an address no object alive has. *)
Definition new (o : object) (s : store) : store * nat :=
  let a := fresh (dom s) in (<[a := o]> s, a).

(** What a variable bound to a list or a set reads at its address.  In a
    call a variable holds the address of the object the call created for
    it; an address of another kind of object does not occur. *)
Definition checks_at (a : nat) (s : store) : list header_check :=
  match s !! a with
  | Some (ListOfChecks l) => l
  | _ => []
  end.

Definition rows_at (a : nat) (s : store) : list row :=
  match s !! a with
  | Some (ListOfRows l) => l
  | _ => []
  end.

Definition indices_at (a : nat) (s : store) : gset (option nat) :=
  match s !! a with
  | Some (SetOfIndices u) => u
  | _ => ∅
  end.

(** [header_checks.append(x)], [rows.append(x)] and [inv_used.add(x)]: the
    object at the address is changed, the address stays. *)
Definition append_check (a : nat) (x : header_check) (s : store) : store :=
  <[a := ListOfChecks (checks_at a s ++ [x])]> s.

Definition append_row (a : nat) (x : row) (s : store) : store :=
  <[a := ListOfRows (rows_at a s ++ [x])]> s.

Definition add_index (a : nat) (x : option nat) (s : store) : store :=
  <[a := SetOfIndices ({[ x ]} ∪ indices_at a s)]> s.

(** app.py:113-156, one round of the loop over the PO items.  The scan
    (app.py:117-124) changes no object, so it reads [inv_used] once. *)
Definition po_step (item_match_threshold : Q) (inv_items : list LineItem)
    (rows inv_used : nat) (s : store) (po_it : LineItem) : store :=
  let bst := scan po_it inv_items (indices_at inv_used s) in
  let '(s, inv_it) :=
    if Qle_bool item_match_threshold (best_score bst)
    then (add_index inv_used (best_idx bst) s, best_match bst)
    else (s, None) in
  append_row rows (po_row po_it inv_it (best_score bst)) s.

(** app.py:159-173 *)
Definition unmatched_step (rows inv_used : nat) (s : store)
    (e : nat * LineItem) : store :=
  let '(idx, inv_it) := e in
  if decide (Some idx ∈ indices_at inv_used s) then s
  else append_row rows (unmatched_row inv_it) s.

(** app.py:92-175: the store the call leaves, and the addresses of the
    two lists it returns. *)
Definition compare_structures (po_struct inv_struct : option StructuredDocument)
    (item_match_threshold : Q) (s : store) : store * (nat * nat) :=
  let '(s, rows) := new (ListOfRows []) s in
  let '(s, header_checks) := new (ListOfChecks []) s in
  let s :=
    fold_left
      (fun s f =>
         append_check header_checks (header_row po_struct inv_struct f) s)
      header_fields s in
  let po_items := items_of po_struct in
  let inv_items := items_of inv_struct in
  let '(s, inv_used) := new (SetOfIndices ∅) s in
  let s :=
    fold_left (po_step item_match_threshold inv_items rows inv_used)
      po_items s in
  let s :=
    fold_left (unmatched_step rows inv_used) (enumerate inv_items) s in
  (s, (header_checks, rows)).

(** The report behind the two addresses. *)
Definition report_at (r : nat * nat) (s : store)
    : list header_check * list row :=
  (checks_at (fst r) s, rows_at (snd r) s).

End Store.

(** * Vocabulary of the statements *)

(** ** The matcher *)

Definition inside (alo ahi blo bhi : nat) (m : Difflib.best) : Prop :=
  alo <= Difflib.besti m /\ Difflib.besti m + Difflib.bestsize m <= ahi
  /\ blo <= Difflib.bestj m /\ Difflib.bestj m + Difflib.bestsize m <= bhi.

Definition entries_ok (alo blo bhi n : nat) (m : gmap nat nat) : Prop :=
  forall j k, m !! j = Some k -> blo + k <= j + 1 /\ alo + k <= n /\ j < bhi.

Definition total_size (l : list Difflib.best) : nat :=
  foldr (fun x s => Difflib.bestsize x + s) 0 l.

Definition region_ok (r : Difflib.region) : Prop :=
  let '(alo, ahi, blo, bhi) := r in alo <= ahi /\ blo <= bhi.

Definition span_a (q : list Difflib.region) : nat :=
  foldr (fun (r : Difflib.region) s => let '(alo, ahi, _, _) := r in (ahi - alo) + s) 0 q.

Definition span_b (q : list Difflib.region) : nat :=
  foldr (fun (r : Difflib.region) s => let '(_, _, blo, bhi) := r in (bhi - blo) + s) 0 q.

Definition rounds_left (q : list Difflib.region) : nat :=
  foldr (fun (r : Difflib.region) s =>
           let '(alo, ahi, _, _) := r in 2 * (ahi - alo) + 1 + s) 0 q.

(** ** The comparator *)

Section ComparatorVocabulary.

Import Comparator.

(** The score the scan computes for a PO item and an invoice item. *)
Definition score (po_it inv_it : LineItem) : Q :=
  similar (get (description po_it) "") (get (description inv_it) "").

(** The invoice item at [idx] has not been claimed. *)
Definition unclaimed (inv_items : list LineItem)
    (inv_used : gset (option nat)) (idx : nat) (inv_it : LineItem) : Prop :=
  inv_items !! idx = Some inv_it /\ Some idx ∉ inv_used.

(** The unclaimed invoice items, in their order, with their indices. *)
Definition unclaimed_entries (inv_items : list LineItem)
    (inv_used : gset (option nat)) : list (nat * LineItem) :=
  filter (fun e => Some (fst e) ∉ inv_used) (enumerate inv_items).

Definition unclaimed_items (inv_items : list LineItem)
    (inv_used : gset (option nat)) : list LineItem :=
  map snd (unclaimed_entries inv_items inv_used).

(** What holds of the scan's state once the invoice items before [n] have
    been visited. *)
Definition scan_inv (po_it : LineItem) (inv_items : list LineItem)
    (inv_used : gset (option nat)) (n : nat) (st : best) : Prop :=
  (0 <= best_score st)%Q
  /\ (forall idx inv_it, idx < n -> unclaimed inv_items inv_used idx inv_it ->
        (score po_it inv_it <= best_score st)%Q)
  /\ ((best_score st = 0%Q /\ best_match st = None /\ best_idx st = None)
      \/ exists idx inv_it,
           idx < n /\ unclaimed inv_items inv_used idx inv_it
           /\ best_idx st = Some idx /\ best_match st = Some inv_it
           /\ best_score st = score po_it inv_it
           /\ (0 < best_score st)%Q
           /\ forall idx' inv_it', idx' < idx ->
                unclaimed inv_items inv_used idx' inv_it' ->
                (score po_it inv_it' < best_score st)%Q).

(** [idx] is the unclaimed invoice item with the highest score, the first
    one among those that share it. *)
Definition first_best (po_it : LineItem) (inv_items : list LineItem)
    (inv_used : gset (option nat)) (idx : nat) (inv_it : LineItem) : Prop :=
  unclaimed inv_items inv_used idx inv_it
  /\ (forall idx' inv_it', unclaimed inv_items inv_used idx' inv_it' ->
        (score po_it inv_it' <= score po_it inv_it)%Q)
  /\ (forall idx' inv_it', idx' < idx ->
        unclaimed inv_items inv_used idx' inv_it' ->
        (score po_it inv_it' < score po_it inv_it)%Q).

(** The state of the loop over the PO items after its first [k] rounds. *)
Definition state_after (t : Q) (po_items inv_items : list LineItem) (k : nat)
    : gset (option nat) * list row :=
  fold_left (po_step t inv_items) (take k po_items) (∅, []).

Definition used_after (t : Q) (po_items inv_items : list LineItem) (k : nat)
    : gset (option nat) :=
  fst (state_after t po_items inv_items k).

Definition rows_after (t : Q) (po_items inv_items : list LineItem) (k : nat)
    : list row :=
  snd (state_after t po_items inv_items k).

(** The invoice index a PO item claims when it is processed with
    [inv_used] already claimed; [None] when it claims none. *)
Definition claim_of (t : Q) (inv_items : list LineItem)
    (inv_used : gset (option nat)) (po_it : LineItem) : option nat :=
  let bst := scan po_it inv_items inv_used in
  if Qle_bool t (best_score bst) then best_idx bst else None.

(** The claim of every PO item of a run, in PO order. *)
Definition assignment (t : Q) (po_items inv_items : list LineItem)
    : list (option nat) :=
  imap (fun k po_it =>
          claim_of t inv_items (used_after t po_items inv_items k) po_it)
       po_items.

(** The row of the PO item [po_it] at position [k] of a run. *)
Definition po_row_at (t : Q) (po_items inv_items : list LineItem) (k : nat)
    (po_it : LineItem) : row :=
  let inv_used := used_after t po_items inv_items k in
  po_row po_it
    (match claim_of t inv_items inv_used po_it with
     | Some idx => inv_items !! idx
     | None => None
     end)
    (best_score (scan po_it inv_items inv_used)).

(** The item rows of the report. *)
Definition item_rows (po_struct inv_struct : option StructuredDocument)
    (t : Q) : list row :=
  snd (compare_structures po_struct inv_struct t).

End ComparatorVocabulary.

(** ** The statements of the claims *)

Section ClaimVocabulary.

Import Comparator.

(** The value a header check reads in a record: the default when the key
    is absent or the record is false. *)
Definition field_of (d : option StructuredDocument)
    (key : StructuredDocument -> option value) : value :=
  match d with
  | Some d => get (key d) (VStr "")
  | None => VStr ""
  end.

(** The strings the item status compares. *)
Definition same_str (x y : option value) : Prop :=
  py_str (get x (VStr "")) = py_str (get y (VStr "")).

(** Round [k] claims the invoice item [inv_it] at [idx] for [po_it]: the
    index joins the claimed ones and the row pairs the two items. *)
Definition claims_at (t : Q) (po_items inv_items : list LineItem) (k : nat)
    (po_it : LineItem) (idx : nat) (inv_it : LineItem) : Prop :=
  assignment t po_items inv_items !! k = Some (Some idx)
  /\ (forall idx',
        Some idx' ∈ used_after t po_items inv_items (S k)
        <-> idx' = idx \/ Some idx' ∈ used_after t po_items inv_items k)
  /\ rows_after t po_items inv_items (S k)
     = rows_after t po_items inv_items k
       ++ [po_row po_it (Some inv_it) (score po_it inv_it)].

(** Round [k] claims no invoice item: the claimed indices stay as they
    were and the row has no invoice item. *)
Definition claims_nothing_at (t : Q) (po_items inv_items : list LineItem)
    (k : nat) (po_it : LineItem) : Prop :=
  assignment t po_items inv_items !! k = Some None
  /\ (forall idx',
        Some idx' ∈ used_after t po_items inv_items (S k)
        <-> Some idx' ∈ used_after t po_items inv_items k)
  /\ exists s,
       rows_after t po_items inv_items (S k)
       = rows_after t po_items inv_items k ++ [po_row po_it None s].

(** C1 as the specification words it: in every round the first unclaimed
    invoice item of highest score is claimed iff its score reaches the
    threshold, and nothing is claimed otherwise. *)
Definition matching_rule (t : Q) (po_items inv_items : list LineItem)
    : Prop :=
  forall k po_it, po_items !! k = Some po_it ->
    let inv_used := used_after t po_items inv_items k in
    (forall idx inv_it, first_best po_it inv_items inv_used idx inv_it ->
       ((t <= score po_it inv_it)%Q ->
        claims_at t po_items inv_items k po_it idx inv_it)
       /\ ((score po_it inv_it < t)%Q ->
           claims_nothing_at t po_items inv_items k po_it))
    /\ ((forall idx inv_it, ~ unclaimed inv_items inv_used idx inv_it) ->
        claims_nothing_at t po_items inv_items k po_it).

(** [s] is the best score of [po_it] over the unclaimed invoice items: the
    highest of their scores, 0 when none of them scores above 0. *)
Definition is_best_score (po_it : LineItem) (inv_items : list LineItem)
    (inv_used : gset (option nat)) (s : Q) : Prop :=
  (forall idx inv_it, unclaimed inv_items inv_used idx inv_it ->
     (score po_it inv_it <= s)%Q)
  /\ (s = 0%Q
      \/ exists idx inv_it,
           unclaimed inv_items inv_used idx inv_it /\ s = score po_it inv_it).

(** The invoice side of a row is empty. *)
Definition invoice_side_empty (r : row) : Prop :=
  inv_value r = "" /\ inv_qty r = VStr "" /\ inv_price r = VStr ""
  /\ inv_total r = VStr "".

(** C4 as the specification words it. *)
Definition unmatched_rule_as_stated (t : Q)
    (po_items inv_items : list LineItem) : Prop :=
  forall k po_it, po_items !! k = Some po_it ->
    (forall idx inv_it,
       unclaimed inv_items (used_after t po_items inv_items k) idx inv_it ->
       (score po_it inv_it < t)%Q) ->
    exists r,
      rows_after t po_items inv_items (S k)
      = rows_after t po_items inv_items k ++ [r]
      /\ invoice_side_empty r
      /\ status r = "Mismatch"
      /\ (match_score r == 0)%Q
      /\ assignment t po_items inv_items !! k = Some None.

(** The invoice items no PO item of the run claimed, in their order, with
    their indices. *)
Definition never_claimed_entries (t : Q) (po_items inv_items : list LineItem)
    : list (nat * LineItem) :=
  filter (fun e => Some (fst e) ∉ assignment t po_items inv_items)
    (enumerate inv_items).

(** The PO item at position [k] is matched in a run. *)
Definition matched (t : Q) (po_items inv_items : list LineItem) (k : nat)
    : Prop :=
  exists idx, assignment t po_items inv_items !! k = Some (Some idx).

(** C6 as the specification words it. *)
Definition threshold_monotone_as_stated (t1 t2 : Q)
    (po_items inv_items : list LineItem) : Prop :=
  forall k,
    assignment t1 po_items inv_items !! k = Some None ->
    assignment t2 po_items inv_items !! k = Some None.

(** C7 as the specification words it. *)
Definition permutation_invariant_as_stated (t : Q)
    (po_items inv_items inv_items' : list LineItem) : Prop :=
  forall k,
    matched t po_items inv_items k <-> matched t po_items inv_items' k.


(** The store during the loops over the items: over the objects of [base],
    the variable [rows] holds the list [R] and the variable [inv_used] the
    set [U]. *)
Definition during (rows inv_used : nat) (base : Store.store)
    (U : gset (option nat)) (R : list row) : Store.store :=
  <[rows := Store.ListOfRows R]> (<[inv_used := Store.SetOfIndices U]> base).

End ClaimVocabulary.

(** ** Sample records *)

Module Samples.

Import Comparator.

Definition item (d : string) (q p tot : value) : LineItem :=
  {| description := Some d; qty := Some q;
     unit_price := Some p; total := Some tot |}.

Definition bare (d : string) : LineItem :=
  {| description := Some d; qty := None; unit_price := None; total := None |}.

Definition record (n : string) (g : value) (l : list LineItem)
    : option StructuredDocument :=
  Some {| number := Some (VStr n); vendor := Some (VStr "ACME Ltd");
          date := Some (VStr "2024-03-01"); grand_total := Some g;
          items := Some l |}.

Definition bolt_po : LineItem :=
  item "Bolt 10mm" (VInt 10) (VFloat "5.0") (VFloat "50.0").
Definition bolt_inv : LineItem :=
  item "Bolt-10mm " (VInt 10) (VFloat "5.0") (VFloat "50.0").
Definition rod_po : LineItem :=
  item "Steel Rod" (VInt 4) (VFloat "12.5") (VFloat "50.0").
Definition fee_inv : LineItem :=
  item "Shipping Fee" (VInt 1) (VFloat "15.0") (VFloat "15.0").

Definition po_doc : option StructuredDocument :=
  record "PO-12345" (VStr "1200.00") [bolt_po; rod_po].
Definition inv_doc : option StructuredDocument :=
  record "PO-12345" (VStr "1200") [fee_inv; bolt_inv].

(** Two items whose descriptions share no character. *)
Definition washer_po : list LineItem := [bare "Washer"].
Definition bolt_only_inv : list LineItem := [bare "Bolt"].

(** A PO item that loses its invoice item when the threshold rises. *)
Definition steel_po : list LineItem :=
  [bare "Steel Rod 10mm"; bare "Steel Pipe 12mm"].
Definition steel_inv : list LineItem :=
  [bare "Steel Pipe 12 mm"; bare "Shipping Fee"].

(** A PO item with two invoice items of equal score. *)
Definition bolts_po : list LineItem := [bare "Bolt 10mm"; bare "Bolt 12mm"].
Definition bolts_inv : list LineItem := [bare "Bolt 12mm"; bare "Bolt-10mm "].
Definition bolts_inv' : list LineItem := [bare "Bolt-10mm "; bare "Bolt 12mm"].

End Samples.

(** * The rest of the module *)

(** ** The text extractor (app.py:26-38) *)

Module TextExtractor.

(** [sep.join(l)] *)
Fixpoint join (sep : string) (l : list string) : string :=
  match l with
  | [] => ""
  | x :: rest =>
      match rest with
      | [] => x
      | _ :: _ => x +:+ sep +:+ join sep rest
      end
  end.

(** The separator of app.py:35: two line feeds. *)
Definition blank_line : string :=
  String (ascii_of_nat 10) (String (ascii_of_nat 10) EmptyString).

(** What [page.extract_text()] does for one page: it returns [None] or a
    text, or it raises. *)
Inductive page :=
  | PageText (t : option string)
  | PageRaises (e : string).

(** What pdfplumber makes of an uploaded file: [pdfplumber.open] raises, or
    it delivers the pages. *)
Definition pdf : Type := string + list page.

(** app.py:31-34: the loop over the pages; [inl e] is the exception that
    leaves it. *)
Fixpoint collect (pages : list page) (pages_text : list string)
    : string + list string :=
  match pages with
  | [] => inr pages_text
  | PageText t :: rest =>
      collect rest
        (match t with
         | Some s => if PyStr.truthy s then pages_text ++ [s] else pages_text
         | None => pages_text
         end)
  | PageRaises e :: _ => inl e
  end.

(** app.py:26-38: the text returned, and the messages handed to
    [st.error]. *)
Definition extract_text_from_pdf (file_obj : pdf) : string * list string :=
  match file_obj with
  | inl e => ("", ["Could not read PDF: " +:+ e])
  | inr pages =>
      match collect pages [] with
      | inl e => ("", ["Could not read PDF: " +:+ e])
      | inr pages_text => (PyStr.strip (join blank_line pages_text), [])
      end
  end.

End TextExtractor.

(** ** The handler of the Compare button, up to the comparison
    (app.py:187-215)

    What the handler renders after line 215 is left to pandas and
    Streamlit. *)

Module App.

Import Comparator.

(** A value [json.loads] returned, [None] apart, as far as the handler
    tells values apart: a JSON object, read at the keys of a record, or
    another value - a number, a string, an array, [true] or [false] - of
    which the handler uses the truth value alone. *)
Inductive json_value :=
  | JObject (d : StructuredDocument)
  | JOther (truth : bool).

(** [x if x else {}] and [x or {}]: [x] when it is true, the empty dict
    otherwise.  In the result [None] is the empty dict; a JSON object is
    kept, the empty one being the empty dict already. *)
Definition or_empty (x : option json_value) : option json_value :=
  match x with
  | Some (JOther false) => None
  | _ => x
  end.

(** What [compare_structures] makes of an argument: a dict is read as a
    record, and a false value is never read at all; on a true value that
    is no dict, [get] (app.py:103, 104) raises [AttributeError], which is
    [None] here. *)
Definition as_record (x : option json_value)
    : option (option StructuredDocument) :=
  match x with
  | None => Some None
  | Some (JObject d) => Some (Some d)
  | Some (JOther false) => Some None
  | Some (JOther true) => None
  end.

(** What the handler has shown so far. *)
Inductive ui_event :=
  | st_error (msg : string)
  | st_subheader (s : string)
  | st_code (s : string)
  | st_json (v : option json_value).

(** The state of a click when the handler has run up to line 215 or has
    been left by an exception before: [parsed] holds the values of
    [po_struct] and [inv_struct], [None] for one that is not bound yet;
    [report] holds what [compare_structures] returned; [raised] tells that
    an exception left the handler. *)
Record click := {
  shown : list ui_event;
  sent : list string;
  parsed : option json_value * option json_value;
  report : option (list header_check * list row);
  raised : bool
}.

Definition preview_limit : nat := 40 * 100.

(** [if err: st.error(f"<label>{err}")] *)
Definition show_error (label : string) (err : option string)
    : list ui_event :=
  match err with
  | Some e => if PyStr.truthy e then [st_error (label +:+ e)] else []
  | None => []
  end.

(** [compare_structures(po_struct or {}, inv_struct or {},
    item_match_threshold=threshold)] (app.py:215); [None] when it
    raises. *)
Definition compare (po_struct inv_struct : option json_value) (threshold : Q)
    : option (list header_check * list row) :=
  match as_record (or_empty po_struct), as_record (or_empty inv_struct) with
  | Some po, Some inv => Some (compare_structures po inv threshold)
  | _, _ => None
  end.

Section Handler.

Variable prompt_for : string -> string -> string.

(** The service, told the prompts it was handed before. *)
Variable generate_content : list string -> string -> string + Extractor.exn.

Variable json_loads : string -> option json_value + Extractor.exn.

Variable GEMINI_KEY : option string.

(** app.py:187-215.  An uploader holds [None] or a file; [percent] is the
    value of the slider.  No line of the handler catches an exception: one
    that leaves a call of lines 200, 201 or 215 leaves the handler. *)
Definition compare_clicked (percent : nat)
    (po_file inv_file : option TextExtractor.pdf) : click :=
  match po_file, inv_file with
  | Some po, Some inv =>
      let '(po_text, po_shown) := TextExtractor.extract_text_from_pdf po in
      let '(inv_text, inv_shown) := TextExtractor.extract_text_from_pdf inv in
      let screen rest :=
        map st_error po_shown ++ map st_error inv_shown
        ++ [ st_subheader "Raw extracted text (first 4000 chars)";
             st_code (PyStr.prefix preview_limit po_text);
             st_code (PyStr.prefix preview_limit inv_text) ]
        ++ rest in
      let '(po_result, po_sent) :=
        Extractor.call_gemini_for_structure json_value prompt_for
          (generate_content []) json_loads GEMINI_KEY po_text
          "Purchase Order" in
      match po_result with
      | Extractor.UnboundLocalError =>
          {| shown := screen [];
             sent := po_sent;
             parsed := (None, None);
             report := None;
             raised := true |}
      | Extractor.Return po_struct po_err =>
          let '(inv_result, inv_sent) :=
            Extractor.call_gemini_for_structure json_value prompt_for
              (generate_content po_sent) json_loads GEMINI_KEY inv_text
              "Invoice" in
          match inv_result with
          | Extractor.UnboundLocalError =>
              {| shown := screen [];
                 sent := po_sent ++ inv_sent;
                 parsed := (po_struct, None);
                 report := None;
                 raised := true |}
          | Extractor.Return inv_struct inv_err =>
              let compared :=
                compare po_struct inv_struct (slider_threshold percent) in
              {| shown :=
                   screen
                     (show_error "PO parsing error: " po_err
                      ++ show_error "Invoice parsing error: " inv_err
                      ++ [ st_subheader "AI Parsed JSON (PO)";
                           st_json (or_empty po_struct);
                           st_subheader "AI Parsed JSON (Invoice)";
                           st_json (or_empty inv_struct) ]);
                 sent := po_sent ++ inv_sent;
                 parsed := (po_struct, inv_struct);
                 report := compared;
                 raised :=
                   match compared with Some _ => false | None => true end |}
          end
      end
  | _, _ =>
      {| shown := [st_error "Upload both PO and Invoice PDFs."];
         sent := [];
         parsed := (None, None);
         report := None;
         raised := false |}
  end.

End Handler.

End App.

(** ** Vocabulary for the rest *)

Section MoreVocabulary.

Import Comparator.

(** A list of characters with no white space at either end. *)
Definition trimmed (l : list ascii) : Prop :=
  (forall c l', l = c :: l' -> PyStr.is_space c = false)
  /\ (forall c l', l = l' ++ [c] -> PyStr.is_space c = false).

(** The description of an item as the scan compares it. *)
Definition normalized (it : LineItem) : string :=
  PyStr.strip (PyStr.lower (get (description it) "")).

(** Two strings have no character in common. *)
Definition no_common_char (x y : string) : Prop :=
  forall c, c ∈ PyStr.chars x -> c ∉ PyStr.chars y.

(** The PO items of a run that claimed an invoice item. *)
Definition matched_count (t : Q) (po_items inv_items : list LineItem) : nat :=
  length (filter (fun c : option nat => is_Some c)
            (assignment t po_items inv_items)).

(** The position [i] of [s] holds a character that [b2j] kept. *)
Definition live (s : list ascii) (i : nat) : bool :=
  match s !! i with
  | Some c =>
      match Difflib.b2j_get s c with
      | [] => false
      | _ :: _ => true
      end
  | None => false
  end.

(** How many positions up to [i], [i] included, are live without a gap. *)
Fixpoint live_run (s : list ascii) (i : nat) : nat :=
  match i with
  | O => if live s O then 1 else 0
  | S i' => if live s i then S (live_run s i') else 0
  end.

(** The state between two rounds of the loop over [i]: the best block lies
    on the diagonal and is at least as long as every run of live positions
    met so far. *)
Definition row_inv (s : list ascii) (i : nat)
    (st : gmap nat nat * Difflib.best) : Prop :=
  Difflib.besti (snd st) = Difflib.bestj (snd st)
  /\ (forall j k, fst st !! j = Some k ->
        exists i', i = S i' /\ k <= live_run s i' /\ k <= live_run s j)
  /\ (forall i', i = S i' -> live s i' = true ->
        fst st !! i' = Some (live_run s i'))
  /\ (forall i', i' < i -> live_run s i' <= Difflib.bestsize (snd st)).

Definition js_inv (s : list ascii) (i : nat) (js : list nat)
    (st : gmap nat nat * Difflib.best) : Prop :=
  Difflib.besti (snd st) = Difflib.bestj (snd st)
  /\ (forall j k, fst st !! j = Some k ->
        k <= live_run s i /\ k <= live_run s j)
  /\ (forall i', i' < i -> live_run s i' <= Difflib.bestsize (snd st))
  /\ (i ∈ js
      \/ (live_run s i <= Difflib.bestsize (snd st)
          /\ fst st !! i = Some (live_run s i))).

(** The text a page adds to [pages_text]: none when the page has no
    text or an empty one. *)
Definition kept_text (t : option string) : option string :=
  match t with
  | Some s => if PyStr.truthy s then Some s else None
  | None => None
  end.

(** The four header checks of a comparison with no value on either side. *)
Definition blank_header_checks : list header_check :=
  [ ("Document Number", VStr "", VStr "", "Mismatch");
    ("Vendor", VStr "", VStr "", "Mismatch");
    ("Date", VStr "", VStr "", "Mismatch");
    ("Grand Total", VStr "", VStr "", "Mismatch") ].

End MoreVocabulary.

(** * Properties *)

(** ** The matcher stays inside its window *)

Section MatcherFacts.

Import Difflib.

Variables a b : list ascii.

Lemma scan_js_inside alo ahi blo bhi i j2len js newj2len bst :
  alo <= i -> i < ahi ->
  entries_ok alo blo bhi i j2len ->
  entries_ok alo blo bhi (i + 1) newj2len ->
  inside alo ahi blo bhi bst ->
  entries_ok alo blo bhi (i + 1)
    (fst (scan_js blo bhi i j2len js (newj2len, bst)))
  /\ inside alo ahi blo bhi
       (snd (scan_js blo bhi i j2len js (newj2len, bst))).
Proof.
  intros Hlo Hhi Hold.
  revert newj2len bst.
  induction js as [|j js IH]; intros newj2len bst Hnew Hin; simpl.
  - split; assumption.
  - destruct (j <? blo) eqn:Hjb; [apply IH; assumption|].
    destruct (bhi <=? j) eqn:Hjh; [split; assumption|].
    apply Nat.ltb_ge in Hjb. apply Nat.leb_gt in Hjh.
    set (k0 := match j with O => 0 | S j' => default 0 (j2len !! j') end).
    assert (Hk0 : blo + (k0 + 1) <= j + 1 /\ alo + (k0 + 1) <= i + 1).
    { subst k0. destruct j as [|j']; [lia|].
      destruct (j2len !! j') as [k|] eqn:Hj'; simpl; [|lia].
      destruct (Hold _ _ Hj') as (? & ? & ?). lia. }
    apply IH.
    + intros j1 k1. destruct (decide (j = j1)) as [->|Hne].
      * rewrite lookup_insert_eq. intros [= <-]. lia.
      * rewrite lookup_insert_ne by assumption. apply Hnew.
    + destruct (bestsize bst <? k0 + 1); [|assumption].
      unfold inside; simpl. lia.
Qed.

Lemma entries_ok_mono alo blo bhi n n' m :
  n <= n' -> entries_ok alo blo bhi n m -> entries_ok alo blo bhi n' m.
Proof.
  intros Hn H j k Hjk. destruct (H _ _ Hjk) as (? & ? & ?). lia.
Qed.

Lemma scan_i_inside alo ahi blo bhi i st :
  alo <= i -> i < ahi ->
  entries_ok alo blo bhi i (fst st) ->
  inside alo ahi blo bhi (snd st) ->
  entries_ok alo blo bhi (i + 1) (fst (scan_i a b blo bhi st i))
  /\ inside alo ahi blo bhi (snd (scan_i a b blo bhi st i)).
Proof.
  intros Hlo Hhi Hm Hin. destruct st as [j2len bst]; simpl in *.
  destruct (a !! i) as [ai|].
  - apply scan_js_inside; try assumption.
    intros j k Hjk. rewrite lookup_empty in Hjk. discriminate.
  - split; [|assumption]. eapply entries_ok_mono; [|eassumption]. lia.
Qed.

Lemma scan_rows_inside alo ahi blo bhi n : forall i st,
  alo <= i -> i + n <= ahi ->
  entries_ok alo blo bhi i (fst st) ->
  inside alo ahi blo bhi (snd st) ->
  inside alo ahi blo bhi
    (snd (fold_left (scan_i a b blo bhi) (seq i n) st)).
Proof.
  induction n as [|n IH]; intros i st Hlo Hhi Hm Hin; simpl; [assumption|].
  destruct (scan_i_inside alo ahi blo bhi i st) as [Hm' Hin'];
    try assumption; try lia.
  apply IH; try lia; try assumption.
  replace (S i) with (i + 1) by lia. assumption.
Qed.

Lemma extend_left_inside side alo ahi blo bhi : forall bi bj bs,
  inside alo ahi blo bhi (Difflib.Best bi bj bs) ->
  inside alo ahi blo bhi (extend_left a b side alo blo bi bj bs).
Proof.
  induction bi as [|bi IH]; intros bj bs Hin; simpl; [assumption|].
  destruct bj as [|bj]; [assumption|].
  destruct ((alo <? S bi) && (blo <? S bj) && side bj && same_at a b bi bj)
    eqn:Hc; [|assumption].
  apply IH.
  repeat (apply andb_prop in Hc; destruct Hc as [Hc ?]).
  apply Nat.ltb_lt in Hc. apply Nat.ltb_lt in H1.
  unfold inside in *; simpl in *. lia.
Qed.

Lemma extend_right_inside side alo ahi blo bhi rounds : forall bi bj bs,
  inside alo ahi blo bhi (Difflib.Best bi bj bs) ->
  inside alo ahi blo bhi (extend_right a b side ahi bhi rounds bi bj bs).
Proof.
  induction rounds as [|rounds IH]; intros bi bj bs Hin; simpl; [assumption|].
  destruct ((bi + bs <? ahi) && (bj + bs <? bhi) && side (bj + bs)
            && same_at a b (bi + bs) (bj + bs)) eqn:Hc; [|assumption].
  apply IH.
  repeat (apply andb_prop in Hc; destruct Hc as [Hc ?]).
  apply Nat.ltb_lt in Hc. apply Nat.ltb_lt in H1.
  unfold inside in *; simpl in *. lia.
Qed.

(** The rounds handed to [extend_right] never cut its loop short. *)
Lemma extend_right_rounds side ahi bhi : forall rounds bi bj bs,
  ahi - (bi + bs) <= rounds ->
  extend_right a b side ahi bhi rounds bi bj bs
  = extend_right a b side ahi bhi (ahi - (bi + bs)) bi bj bs.
Proof.
  induction rounds as [|rounds IH]; intros bi bj bs Hle.
  - replace (ahi - (bi + bs)) with 0 by lia. reflexivity.
  - simpl.
    destruct ((bi + bs <? ahi) && (bj + bs <? bhi) && side (bj + bs)
              && same_at a b (bi + bs) (bj + bs)) eqn:Hc.
    + assert (Hlt : bi + bs < ahi).
      { repeat (apply andb_prop in Hc; destruct Hc as [Hc ?]).
        apply Nat.ltb_lt in Hc. exact Hc. }
      replace (ahi - (bi + bs)) with (S (ahi - (bi + S bs))) by lia.
      simpl. rewrite Hc. apply IH. lia.
    + destruct (ahi - (bi + bs)); simpl; [reflexivity|].
      rewrite Hc. reflexivity.
Qed.

Lemma extend_inside side alo ahi blo bhi m :
  inside alo ahi blo bhi m ->
  inside alo ahi blo bhi (extend a b side alo ahi blo bhi m).
Proof.
  intros Hin. unfold extend.
  pose proof (extend_left_inside side alo ahi blo bhi
                (besti m) (bestj m) (bestsize m)) as Hl.
  destruct m as [mi mj mk]; simpl in *. specialize (Hl Hin).
  destruct (extend_left a b side alo blo mi mj mk) as [li lj lk]; simpl.
  apply extend_right_inside. assumption.
Qed.

Lemma find_longest_match_inside alo ahi blo bhi :
  alo <= ahi -> blo <= bhi ->
  inside alo ahi blo bhi (find_longest_match a b alo ahi blo bhi).
Proof.
  intros Ha Hb. unfold find_longest_match.
  do 2 apply extend_inside.
  apply scan_rows_inside; simpl; try lia.
  - intros j k Hjk. rewrite lookup_empty in Hjk. discriminate.
  - unfold inside; simpl. lia.
Qed.

End MatcherFacts.

Section BlocksFacts.

Import Difflib.

Variables a b : list ascii.

Lemma total_size_app l1 l2 :
  total_size (l1 ++ l2) = total_size l1 + total_size l2.
Proof.
  induction l1 as [|x l1 IH]; simpl; [reflexivity|]. rewrite IH. lia.
Qed.

(** What the loop has collected never exceeds what the stretches still
    queued, and the blocks already found, leave room for. *)
Lemma blocks_loop_bound fuel : forall queue acc res,
  Forall region_ok queue ->
  blocks_loop a b fuel queue acc = Some res ->
  total_size res <= total_size acc + span_a queue
  /\ total_size res <= total_size acc + span_b queue.
Proof.
  induction fuel as [|fuel IH]; intros queue acc res Hq Hrun.
  - destruct queue as [|[[[alo ahi] blo] bhi] queue]; simpl in Hrun.
    + injection Hrun as <-. simpl. lia.
    + discriminate.
  - destruct queue as [|[[[alo ahi] blo] bhi] queue]; simpl in Hrun.
    { injection Hrun as <-. simpl. lia. }
    apply Forall_cons in Hq as [[Ha Hb] Hq].
    pose proof (find_longest_match_inside a b alo ahi blo bhi Ha Hb) as Hin.
    destruct (find_longest_match a b alo ahi blo bhi) as [i j k].
    unfold inside in Hin; simpl in *.
    destruct (0 <? k) eqn:Hk.
    + apply IH in Hrun.
      * rewrite total_size_app in Hrun. simpl in Hrun.
        destruct ((alo <? i) && (blo <? j));
          destruct ((i + k <? ahi) && (j + k <? bhi));
          simpl in Hrun; lia.
      * destruct ((alo <? i) && (blo <? j)) eqn:H1;
          destruct ((i + k <? ahi) && (j + k <? bhi)) eqn:H2;
          repeat (apply Forall_cons; split); try assumption;
          simpl; lia.
    + apply IH in Hrun; [|assumption]. lia.
Qed.

(** The fuel [get_matching_blocks] hands over is enough. *)
Lemma blocks_loop_ends fuel : forall queue acc,
  Forall region_ok queue ->
  rounds_left queue <= fuel ->
  is_Some (blocks_loop a b fuel queue acc).
Proof.
  induction fuel as [|fuel IH]; intros queue acc Hq Hfuel.
  - destruct queue as [|[[[alo ahi] blo] bhi] queue]; simpl in *.
    + eexists; reflexivity.
    + lia.
  - destruct queue as [|[[[alo ahi] blo] bhi] queue]; simpl in *.
    { eexists; reflexivity. }
    apply Forall_cons in Hq as [[Ha Hb] Hq].
    pose proof (find_longest_match_inside a b alo ahi blo bhi Ha Hb) as Hin.
    destruct (find_longest_match a b alo ahi blo bhi) as [i j k].
    unfold inside in Hin; simpl in *.
    destruct (0 <? k) eqn:Hk.
    + apply Nat.ltb_lt in Hk.
      destruct ((alo <? i) && (blo <? j)) eqn:H1;
        destruct ((i + k <? ahi) && (j + k <? bhi)) eqn:H2;
        apply IH;
        repeat (apply Forall_cons; split); try assumption;
        simpl; lia.
    + apply IH; [assumption|lia].
Qed.

Lemma total_size_insert_block x l :
  total_size (insert_block x l) = bestsize x + total_size l.
Proof.
  induction l as [|y l IH]; simpl; [reflexivity|].
  destruct (block_leb x y); simpl; [reflexivity|]. rewrite IH. lia.
Qed.

Lemma total_size_sort_blocks l : total_size (sort_blocks l) = total_size l.
Proof.
  induction l as [|x l IH]; simpl; [reflexivity|].
  rewrite total_size_insert_block, IH. reflexivity.
Qed.

Lemma total_size_collapse l : forall cur non_adjacent,
  total_size (collapse cur l non_adjacent)
  = total_size non_adjacent + bestsize cur + total_size l.
Proof.
  induction l as [|x l IH]; intros cur non_adjacent; simpl.
  - destruct (0 <? bestsize cur) eqn:Hk.
    + rewrite total_size_app. simpl. lia.
    + apply Nat.ltb_ge in Hk. lia.
  - destruct ((besti cur + bestsize cur =? besti x)
              && (bestj cur + bestsize cur =? bestj x)).
    + rewrite IH. simpl. lia.
    + rewrite IH. destruct (0 <? bestsize cur) eqn:Hk.
      * rewrite total_size_app. simpl. lia.
      * apply Nat.ltb_ge in Hk. lia.
Qed.

Lemma get_matching_blocks_runs :
  is_Some (blocks_loop a b (2 * length a + 1) [(0, length a, 0, length b)] []).
Proof.
  apply blocks_loop_ends.
  - repeat constructor; simpl; lia.
  - simpl. lia.
Qed.

Lemma matches_bound :
  matches a b <= length a /\ matches a b <= length b.
Proof.
  unfold matches, get_matching_blocks.
  fold (total_size
          (collapse {| besti := 0; bestj := 0; bestsize := 0 |}
             (sort_blocks
                (default []
                   (blocks_loop a b (2 * length a + 1)
                      [(0, length a, 0, length b)] []))) []
           ++ [{| besti := length a; bestj := length b; bestsize := 0 |}])).
  rewrite total_size_app, total_size_collapse, total_size_sort_blocks.
  destruct get_matching_blocks_runs as [res Hres]. rewrite Hres. simpl.
  apply blocks_loop_bound in Hres.
  - simpl in Hres. lia.
  - repeat constructor; simpl; lia.
Qed.

End BlocksFacts.

Lemma ratio_bounds (x y : string) :
  (0 <= Difflib.ratio x y)%Q /\ (Difflib.ratio x y <= 1)%Q.
Proof.
  unfold Difflib.ratio, Difflib._calculate_ratio.
  set (la := length (PyStr.chars x)). set (lb := length (PyStr.chars y)).
  destruct (matches_bound (PyStr.chars x) (PyStr.chars y)) as [Ha Hb].
  fold la in Ha. fold lb in Hb.
  destruct (la + lb =? 0) eqn:Hz.
  - split; [discriminate|apply Qle_refl].
  - apply Nat.eqb_neq in Hz.
    rewrite Qred_correct. unfold Qle; simpl.
    assert (Z.pos (Pos.of_nat (la + lb)) = Z.of_nat (la + lb)) as ->.
    { destruct (la + lb) eqn:E; [lia|]. rewrite <- E. lia. }
    split; lia.
Qed.

(** ** Sample values *)

Example lower_strip_bolt :
  PyStr.strip (PyStr.lower "  Bolt-10MM ") = "bolt-10mm".
Proof. reflexivity. Qed.

Example str_of_int : py_str (VInt (-120)) = "-120" /\ py_str (VInt 0) = "0".
Proof. split; reflexivity. Qed.

Example ratio_bolt : Difflib.ratio "bolt 10mm" "bolt-10mm" = (8 # 9)%Q.
Proof. vm_compute. reflexivity. Qed.

Example ratio_empty : Difflib.ratio "" "" = 1%Q.
Proof. reflexivity. Qed.

Example blocks_sample :
  Difflib.get_matching_blocks (PyStr.chars "qabxcd") (PyStr.chars "abcdabxcd")
  = [Difflib.Best 1 4 5; Difflib.Best 6 9 0].
Proof. vm_compute. reflexivity. Qed.

Example round2_samples :
  round2 (2 # 7) = (29 # 100)%Q /\ round2 (8 # 9) = (89 # 100)%Q
  /\ round2 (1 # 8) = (3 # 25)%Q.
Proof. vm_compute. repeat split. Qed.

(** The float of a quotient is not the quotient: 1/40 and 23/40 are half
    way between two decimals, their floats are not. *)
Example fl64_samples :
  fl64 (1 # 40) = (3602879701896397 # 144115188075855872)%Q
  /\ fl64 (23 # 40) = (2589569785738035 # 4503599627370496)%Q
  /\ fl64 (1 # 8) = (1 # 8)%Q /\ fl64 1 = 1%Q.
Proof. vm_compute. repeat split. Qed.

Example round2_of_floats :
  round2 (1 # 40) = (3 # 100)%Q /\ round2 (23 # 40) = (57 # 100)%Q
  /\ round2 (133 # 200) = (67 # 100)%Q /\ round2 0 = 0%Q
  /\ round2 1 = 1%Q.
Proof. vm_compute. repeat split. Qed.

Example search_braces_sample :
  Extractor.search_braces "Here: {x} and {y}. Done" = Some "{x} and {y}".
Proof. reflexivity. Qed.

(** The scenario of the specification: the two bolts match with a score of
    8/9, shown as 0.89; "Steel Rod" stays unmatched; "Shipping Fee" is left
    over. *)
Example report_sample :
  map (fun r => (Comparator.field r, Comparator.po_value r,
                 Comparator.inv_value r, Comparator.status r,
                 Comparator.match_score r))
    (item_rows Samples.po_doc Samples.inv_doc Comparator.default_threshold)
  = [ ("Item", "Bolt 10mm", "Bolt-10mm ", "Match", (89 # 100)%Q);
      ("Item", "Steel Rod", "", "Mismatch", (29 # 100)%Q);
      ("Item (Unmatched Invoice)", "", "Shipping Fee", "Mismatch", 0%Q) ].
Proof. vm_compute. reflexivity. Qed.

(** ** The scan over the invoice items *)

Section ScanFacts.

Import Comparator.

Lemma similar_bounds (x y : string) :
  (0 <= similar x y)%Q /\ (similar x y <= 1)%Q.
Proof. apply ratio_bounds. Qed.

Lemma gt_bool_true (x y : Q) : negb (Qle_bool x y) = true -> (y < x)%Q.
Proof.
  intros H. apply negb_true_iff in H. apply Qnot_le_lt.
  intros Hle. apply Qle_bool_iff in Hle. congruence.
Qed.

Lemma gt_bool_false (x y : Q) : negb (Qle_bool x y) = false -> (x <= y)%Q.
Proof.
  intros H. apply negb_false_iff in H. apply Qle_bool_iff. assumption.
Qed.

Lemma scan_step_inv po_it inv_items inv_used n st inv_it :
  inv_items !! n = Some inv_it ->
  scan_inv po_it inv_items inv_used n st ->
  scan_inv po_it inv_items inv_used (S n)
    (scan_step po_it inv_used st (n, inv_it)).
Proof.
  intros Hn (H0 & Hmax & Hbest). unfold scan_step.
  destruct (decide (Some n ∈ inv_used)) as [Hused|Hfree].
  - split; [assumption|]. split.
    + intros idx it' Hlt [Hl Hu].
      destruct (decide (idx = n)) as [->|Hne]; [contradiction|].
      apply (Hmax idx); [lia|split; assumption].
    + destruct Hbest as [Hnone|(idx & it' & Hlt & Hrest)];
        [left; assumption|right].
      exists idx, it'. split; [lia|assumption].
  - fold (score po_it inv_it).
    destruct (negb (Qle_bool (score po_it inv_it) (best_score st))) eqn:Hcmp.
    + apply gt_bool_true in Hcmp. simpl. split; [|split].
      * apply Qlt_le_weak. eapply Qle_lt_trans; eassumption.
      * intros idx it' Hlt [Hl Hu].
        destruct (decide (idx = n)) as [->|Hne].
        -- rewrite Hn in Hl. injection Hl as <-. apply Qle_refl.
        -- apply Qlt_le_weak. eapply Qle_lt_trans; [|eassumption].
           apply (Hmax idx); [lia|split; assumption].
      * right. exists n, inv_it. repeat split; try assumption; try lia.
        -- eapply Qle_lt_trans; eassumption.
        -- intros idx' it' Hlt Hun. eapply Qle_lt_trans; [|eassumption].
           apply (Hmax idx'); assumption.
    + apply gt_bool_false in Hcmp. split; [assumption|]. split.
      * intros idx it' Hlt [Hl Hu].
        destruct (decide (idx = n)) as [->|Hne].
        -- rewrite Hn in Hl. injection Hl as <-. assumption.
        -- apply (Hmax idx); [lia|split; assumption].
      * destruct Hbest as [Hnone|(idx & it' & Hlt & Hrest)];
          [left; assumption|right].
        exists idx, it'. split; [lia|assumption].
Qed.

Lemma scan_fold_inv po_it inv_items inv_used : forall suf pre st,
  inv_items = pre ++ suf ->
  scan_inv po_it inv_items inv_used (length pre) st ->
  scan_inv po_it inv_items inv_used (length inv_items)
    (fold_left (scan_step po_it inv_used)
       (zip (seq (length pre) (length suf)) suf) st).
Proof.
  induction suf as [|x suf IH]; intros pre st Heq Hinv; simpl.
  - rewrite app_nil_r in Heq. subst pre. assumption.
  - replace (S (length pre)) with (length (pre ++ [x]))
      by (rewrite length_app; simpl; lia).
    apply IH.
    + rewrite <- app_assoc. assumption.
    + rewrite length_app; simpl.
      replace (length pre + 1) with (S (length pre)) by lia.
      apply scan_step_inv; [|assumption].
      rewrite Heq. rewrite lookup_app_r by lia.
      rewrite Nat.sub_diag. reflexivity.
Qed.

Lemma scan_spec po_it inv_items inv_used :
  scan_inv po_it inv_items inv_used (length inv_items)
    (scan po_it inv_items inv_used).
Proof.
  unfold scan, enumerate.
  apply (scan_fold_inv po_it inv_items inv_used inv_items [] _ eq_refl).
  split; [apply Qle_refl|]. split.
  - intros idx it' Hlt. simpl in Hlt. lia.
  - left. repeat split.
Qed.

End ScanFacts.

(** ** The loop over the PO items *)

Section RunFacts.

Import Comparator.

Variable t : Q.
Variables po_items inv_items : list LineItem.

Lemma enumerate_lookup {A} (l : list A) idx x :
  (idx, x) ∈ enumerate l <-> l !! idx = Some x.
Proof.
  unfold enumerate. rewrite elem_of_lookup_zip_with. split.
  - intros (i & n & y & [= -> ->] & Hn & Hy).
    apply lookup_seq in Hn as [-> _]. assumption.
  - intros Hl. exists idx, idx, x. repeat split; [|assumption].
    apply lookup_seq. split; [reflexivity|].
    eapply lookup_lt_Some; eassumption.
Qed.

Lemma unclaimed_entries_spec inv_used idx inv_it :
  (idx, inv_it) ∈ unclaimed_entries inv_items inv_used
  <-> unclaimed inv_items inv_used idx inv_it.
Proof.
  unfold unclaimed_entries, unclaimed.
  rewrite list_elem_of_filter, enumerate_lookup. simpl. tauto.
Qed.

Lemma scan_step_ext po_it inv_used inv_used' st e :
  (forall idx, Some idx ∈ inv_used <-> Some idx ∈ inv_used') ->
  scan_step po_it inv_used st e = scan_step po_it inv_used' st e.
Proof.
  intros Hext. destruct e as [idx inv_it]. unfold scan_step.
  destruct (decide (Some idx ∈ inv_used)) as [H1|H1];
    destruct (decide (Some idx ∈ inv_used')) as [H2|H2];
    try reflexivity; exfalso; apply Hext in H1 || apply Hext in H2;
    contradiction.
Qed.

Lemma scan_ext po_it inv_used inv_used' :
  (forall idx, Some idx ∈ inv_used <-> Some idx ∈ inv_used') ->
  scan po_it inv_items inv_used = scan po_it inv_items inv_used'.
Proof.
  intros Hext. unfold scan.
  generalize (Best 0 None None). generalize (enumerate inv_items).
  induction l as [|e l IH]; intros st; simpl; [reflexivity|].
  rewrite (scan_step_ext _ _ _ _ _ Hext). apply IH.
Qed.

(** What a scan returns: nothing, or the first unclaimed invoice item of
    highest score, that score being positive. *)
Lemma scan_result po_it inv_used :
  let bst := scan po_it inv_items inv_used in
  (best_score bst = 0%Q /\ best_match bst = None /\ best_idx bst = None
   /\ forall idx inv_it, unclaimed inv_items inv_used idx inv_it ->
        (score po_it inv_it <= 0)%Q)
  \/ exists idx inv_it,
       first_best po_it inv_items inv_used idx inv_it
       /\ best_idx bst = Some idx /\ best_match bst = Some inv_it
       /\ best_score bst = score po_it inv_it
       /\ (0 < score po_it inv_it)%Q.
Proof.
  intros bst. subst bst.
  destruct (scan_spec po_it inv_items inv_used)
    as (H0 & Hmax & [(Hs & Hm & Hi)
                    |(idx & it' & Hlt & Hun & Hi & Hm & Hs & Hpos & Hfirst)]).
  - left. split; [assumption|]. split; [assumption|]. split; [assumption|].
    intros idx inv_it Hun. rewrite <- Hs. apply (Hmax idx); [|assumption].
    destruct Hun as [Hl _]. eapply lookup_lt_Some; eassumption.
  - right. exists idx, it'. unfold first_best. rewrite <- Hs.
    split; [|split; [assumption|split; [assumption|split;
                                          [reflexivity|assumption]]]].
    split; [assumption|]. split; [|assumption].
    intros idx' it'' Hun'. apply (Hmax idx'); [|assumption].
    destruct Hun' as [Hl _]. eapply lookup_lt_Some; eassumption.
Qed.

Lemma claim_of_unclaimed inv_used po_it idx :
  claim_of t inv_items inv_used po_it = Some idx ->
  exists inv_it,
    first_best po_it inv_items inv_used idx inv_it
    /\ (t <= score po_it inv_it)%Q
    /\ best_match (scan po_it inv_items inv_used) = Some inv_it
    /\ best_score (scan po_it inv_items inv_used) = score po_it inv_it.
Proof.
  unfold claim_of. intros Hc.
  destruct (Qle_bool t (best_score (scan po_it inv_items inv_used))) eqn:Hle;
    [|discriminate].
  apply Qle_bool_iff in Hle.
  destruct (scan_result po_it inv_used)
    as [(_ & _ & Hi & _)|(i & it' & Hfb & Hi & Hm & Hs & _)];
    rewrite Hi in Hc; [discriminate|].
  injection Hc as <-. exists it'. rewrite <- Hs. auto.
Qed.

(** One round of the loop, told through [claim_of]. *)
Lemma po_step_spec inv_used rows po_it :
  let bst := scan po_it inv_items inv_used in
  let step := po_step t inv_items (inv_used, rows) po_it in
  snd step
  = rows ++ [po_row po_it
               (match claim_of t inv_items inv_used po_it with
                | Some idx => inv_items !! idx
                | None => None
                end) (best_score bst)]
  /\ forall idx,
       Some idx ∈ fst step
       <-> claim_of t inv_items inv_used po_it = Some idx
           \/ Some idx ∈ inv_used.
Proof.
  intros bst step. subst step bst. unfold po_step, accept, claim_of.
  destruct (Qle_bool t (best_score (scan po_it inv_items inv_used))) eqn:Hle;
    simpl.
  - split.
    2:{ intros idx. rewrite elem_of_union, elem_of_singleton.
        split; intros [H|H]; auto. }
    destruct (scan_result po_it inv_used)
      as [(_ & Hm & Hi & _)|(i & it' & Hfb & Hi & Hm & _)];
      rewrite Hm, Hi; [reflexivity|].
    destruct Hfb as [[Hl _] _]. rewrite Hl. reflexivity.
  - split; [reflexivity|]. intros idx. split; [auto|].
    intros [H|H]; [discriminate|assumption].
Qed.

Lemma state_after_S k po_it :
  po_items !! k = Some po_it ->
  state_after t po_items inv_items (S k)
  = po_step t inv_items (state_after t po_items inv_items k) po_it.
Proof.
  intros Hk. unfold state_after.
  rewrite (take_S_r _ _ _ Hk), fold_left_app. reflexivity.
Qed.

Lemma state_after_all :
  fold_left (po_step t inv_items) po_items (∅, [])
  = state_after t po_items inv_items (length po_items).
Proof. unfold state_after. rewrite firstn_all. reflexivity. Qed.

Lemma rows_after_S k po_it :
  po_items !! k = Some po_it ->
  rows_after t po_items inv_items (S k)
  = rows_after t po_items inv_items k
    ++ [po_row_at t po_items inv_items k po_it].
Proof.
  intros Hk. unfold rows_after. rewrite (state_after_S _ _ Hk).
  destruct (state_after t po_items inv_items k) as [u rows] eqn:Hst.
  destruct (po_step_spec u rows po_it) as [Hrows _].
  rewrite Hrows. unfold po_row_at, used_after. rewrite Hst. reflexivity.
Qed.

Lemma used_after_S k po_it idx :
  po_items !! k = Some po_it ->
  Some idx ∈ used_after t po_items inv_items (S k)
  <-> claim_of t inv_items (used_after t po_items inv_items k) po_it
      = Some idx
      \/ Some idx ∈ used_after t po_items inv_items k.
Proof.
  intros Hk. unfold used_after. rewrite (state_after_S _ _ Hk).
  destruct (state_after t po_items inv_items k) as [u rows] eqn:Hst.
  destruct (po_step_spec u rows po_it) as [_ Hused]. apply Hused.
Qed.

Lemma assignment_lookup k po_it :
  po_items !! k = Some po_it ->
  assignment t po_items inv_items !! k
  = Some (claim_of t inv_items (used_after t po_items inv_items k) po_it).
Proof.
  intros Hk. unfold assignment. rewrite list_lookup_imap, Hk. reflexivity.
Qed.

Lemma assignment_length :
  length (assignment t po_items inv_items) = length po_items.
Proof. unfold assignment. apply length_imap. Qed.

Lemma rows_after_imap n :
  n <= length po_items ->
  rows_after t po_items inv_items n
  = imap (po_row_at t po_items inv_items) (take n po_items).
Proof.
  induction n as [|n IH]; intros Hn; [reflexivity|].
  destruct (lookup_lt_is_Some_2 po_items n) as [po_it Hk]; [lia|].
  rewrite (rows_after_S _ _ Hk), IH by lia.
  rewrite (take_S_r _ _ _ Hk), imap_app. simpl.
  rewrite length_take, Nat.min_l by lia. rewrite Nat.add_0_r. reflexivity.
Qed.

(** An index is in [inv_used] after [n] rounds iff one of the first [n]
    PO items claimed it. *)
Lemma used_after_claims n : n <= length po_items -> forall idx,
  Some idx ∈ used_after t po_items inv_items n
  <-> exists k, k < n /\ assignment t po_items inv_items !! k = Some (Some idx).
Proof.
  induction n as [|n IH]; intros Hn idx.
  - unfold used_after, state_after. simpl. split.
    + intros H. apply not_elem_of_empty in H. contradiction.
    + intros (k & Hk & _). lia.
  - destruct (lookup_lt_is_Some_2 po_items n) as [po_it Hk]; [lia|].
    rewrite (used_after_S _ _ _ Hk), IH by lia. split.
    + intros [Hc|(k & Hlt & Ha)].
      * exists n. split; [lia|]. rewrite (assignment_lookup _ _ Hk).
        congruence.
      * exists k. split; [lia|assumption].
    + intros (k & Hlt & Ha). destruct (decide (k = n)) as [->|Hne].
      * left. rewrite (assignment_lookup _ _ Hk) in Ha. congruence.
      * right. exists k. split; [lia|assumption].
Qed.

Lemma unmatched_fold inv_used : forall l rows,
  fold_left (unmatched_step inv_used) l rows
  = rows ++ map unmatched_row
              (map snd (filter (fun e => Some (fst e) ∉ inv_used) l)).
Proof.
  induction l as [|[idx inv_it] l IH]; intros rows; simpl.
  - rewrite app_nil_r. reflexivity.
  - rewrite IH. rewrite filter_cons. simpl.
    destruct (decide (Some idx ∈ inv_used)) as [Hin|Hout].
    + rewrite decide_False by (intros Hn; apply Hn; assumption). reflexivity.
    + rewrite decide_True by assumption. simpl.
      rewrite <- app_assoc. reflexivity.
Qed.

End RunFacts.

(** The item rows: the rows of the PO items, then the rows of the invoice
    items left unclaimed. *)
Lemma item_rows_eq po_struct inv_struct t :
  let po_items := Comparator.items_of po_struct in
  let inv_items := Comparator.items_of inv_struct in
  item_rows po_struct inv_struct t
  = imap (po_row_at t po_items inv_items) po_items
    ++ map Comparator.unmatched_row
         (unclaimed_items inv_items
            (used_after t po_items inv_items (length po_items))).
Proof.
  intros po_items inv_items. unfold item_rows, Comparator.compare_structures.
  fold po_items inv_items. rewrite state_after_all.
  pose proof (rows_after_imap t po_items inv_items (length po_items)
                (Nat.le_refl _)) as Hrows.
  unfold rows_after in Hrows. unfold used_after.
  destruct (state_after t po_items inv_items (length po_items))
    as [u rows]; simpl in *.
  rewrite unmatched_fold, Hrows, firstn_all. reflexivity.
Qed.

(** ** The rounds of a run *)

Section RoundFacts.

Import Comparator.

Variable t : Q.
Variables po_items inv_items : list LineItem.

Lemma first_best_unique po_it inv_used i x j y :
  first_best po_it inv_items inv_used i x ->
  first_best po_it inv_items inv_used j y ->
  i = j /\ x = y.
Proof.
  intros (Hux & Hmx & Hfx) (Huy & Hmy & Hfy).
  assert (Hij : i = j).
  { destruct (Nat.lt_trichotomy i j) as [Hlt|[Heq|Hgt]]; [|assumption|].
    - exfalso. apply (Qlt_not_le _ _ (Hfy i x Hlt Hux)). apply (Hmx j y Huy).
    - exfalso. apply (Qlt_not_le _ _ (Hfx j y Hgt Huy)). apply (Hmy i x Hux). }
  split; [assumption|]. subst j.
  destruct Hux as [Hlx _]. destruct Huy as [Hly _]. congruence.
Qed.

Lemma Qle_bool_false (x y : Q) : (y < x)%Q -> Qle_bool x y = false.
Proof.
  intros Hlt. destruct (Qle_bool x y) eqn:E; [|reflexivity].
  apply Qle_bool_iff in E. exfalso. exact (Qlt_not_le _ _ Hlt E).
Qed.

Lemma Qle_bool_true (x y : Q) : (x <= y)%Q -> Qle_bool x y = true.
Proof. apply Qle_bool_iff. Qed.

Lemma round_claims k po_it idx :
  po_items !! k = Some po_it ->
  claim_of t inv_items (used_after t po_items inv_items k) po_it = Some idx ->
  exists inv_it,
    first_best po_it inv_items (used_after t po_items inv_items k) idx inv_it
    /\ (t <= score po_it inv_it)%Q
    /\ claims_at t po_items inv_items k po_it idx inv_it.
Proof.
  intros Hk Hc.
  destruct (claim_of_unclaimed _ _ _ _ _ Hc) as (inv_it & Hfb & Hle & _ & Hs).
  exists inv_it. split; [assumption|]. split; [assumption|].
  split; [|split].
  - rewrite (assignment_lookup _ _ _ _ _ Hk), Hc. reflexivity.
  - intros idx'. rewrite (used_after_S _ _ _ _ _ _ Hk), Hc. split.
    + intros [[= ->]|H]; auto.
    + intros [->|H]; auto.
  - rewrite (rows_after_S _ _ _ _ _ Hk). unfold po_row_at.
    rewrite Hc, Hs. destruct Hfb as [[Hl _] _]. rewrite Hl. reflexivity.
Qed.

Lemma round_claims_nothing k po_it :
  po_items !! k = Some po_it ->
  claim_of t inv_items (used_after t po_items inv_items k) po_it = None ->
  claims_nothing_at t po_items inv_items k po_it
  /\ rows_after t po_items inv_items (S k)
     = rows_after t po_items inv_items k
       ++ [po_row po_it None
             (best_score
                (scan po_it inv_items (used_after t po_items inv_items k)))].
Proof.
  intros Hk Hc.
  assert (Hrows : rows_after t po_items inv_items (S k)
     = rows_after t po_items inv_items k
       ++ [po_row po_it None
             (best_score
                (scan po_it inv_items (used_after t po_items inv_items k)))]).
  { rewrite (rows_after_S _ _ _ _ _ Hk). unfold po_row_at.
    rewrite Hc. reflexivity. }
  split; [|assumption]. split; [|split].
  - rewrite (assignment_lookup _ _ _ _ _ Hk), Hc. reflexivity.
  - intros idx'. rewrite (used_after_S _ _ _ _ _ _ Hk), Hc. split; [|auto].
    intros [H|H]; [discriminate|assumption].
  - eexists. exact Hrows.
Qed.

(** A round claims nothing when every unclaimed invoice item scores below
    the threshold. *)
Lemma claim_of_below inv_used po_it :
  (forall idx inv_it, unclaimed inv_items inv_used idx inv_it ->
     (score po_it inv_it < t)%Q) ->
  claim_of t inv_items inv_used po_it = None.
Proof.
  intros Hlow. unfold claim_of.
  destruct (scan_result inv_items po_it inv_used)
    as [(_ & _ & Hi & _)|(i & it' & Hfb & Hi & Hm & Hs & _)].
  - rewrite Hi. destruct (Qle_bool _ _); reflexivity.
  - rewrite Hs, Qle_bool_false; [reflexivity|].
    apply (Hlow i). apply Hfb.
Qed.

(** With a threshold above 0, a round claims the first unclaimed invoice
    item of highest score once that score reaches the threshold. *)
Lemma claim_of_reaches inv_used po_it idx inv_it :
  (0 < t)%Q ->
  first_best po_it inv_items inv_used idx inv_it ->
  (t <= score po_it inv_it)%Q ->
  claim_of t inv_items inv_used po_it = Some idx.
Proof.
  intros Hpos Hfb Hle. unfold claim_of.
  destruct (scan_result inv_items po_it inv_used)
    as [(_ & _ & _ & Hzero)|(i & it' & Hfb' & Hi & Hm & Hs & _)].
  - exfalso. apply (Qlt_not_le _ _ Hpos).
    eapply Qle_trans; [exact Hle|]. apply (Hzero idx). apply Hfb.
  - destruct (first_best_unique _ _ _ _ _ _ Hfb Hfb') as [-> ->].
    rewrite Hs, Qle_bool_true by assumption. assumption.
Qed.

Lemma matching_rule_positive : (0 < t)%Q -> matching_rule t po_items inv_items.
Proof.
  intros Hpos k po_it Hk inv_used. subst inv_used. split.
  - intros idx inv_it Hfb. split.
    + intros Hle.
      pose proof (claim_of_reaches _ _ _ _ Hpos Hfb Hle) as Hc.
      destruct (round_claims _ _ _ Hk Hc) as (inv_it' & Hfb' & _ & Hcl).
      destruct (first_best_unique _ _ _ _ _ _ Hfb Hfb') as [_ ->].
      assumption.
    + intros Hlt. apply round_claims_nothing; [assumption|].
      apply claim_of_below. intros idx' inv_it' Hun.
      eapply Qle_lt_trans; [|exact Hlt]. destruct Hfb as (_ & Hmax & _).
      apply (Hmax idx'). assumption.
  - intros Hnone. apply round_claims_nothing; [assumption|].
    apply claim_of_below. intros idx' inv_it' Hun.
    exfalso. exact (Hnone _ _ Hun).
Qed.

End RoundFacts.

(** ** C1: the matching rule *)

Section MatchingRule.

Import Comparator.

Lemma item_rows_lookup po_struct inv_struct t k po_it :
  items_of po_struct !! k = Some po_it ->
  item_rows po_struct inv_struct t !! k
  = Some (po_row_at t (items_of po_struct) (items_of inv_struct) k po_it).
Proof.
  intros Hk. rewrite item_rows_eq. rewrite lookup_app_l.
  - rewrite list_lookup_imap, Hk. reflexivity.
  - rewrite length_imap. eapply lookup_lt_Some; eassumption.
Qed.

(** C1 as stated fails at threshold 0: "Washer" and "Bolt" share no
    character, the only invoice item is the best one with score 0, which
    reaches the threshold, and yet the PO item claims nothing. *)
Lemma matching_rule_fails_at_zero :
  ~ matching_rule 0 Samples.washer_po Samples.bolt_only_inv.
Proof.
  intros Hrule.
  destruct (Hrule 0 (Samples.bare "Washer") eq_refl) as [Hfirst _].
  destruct (Hfirst 0 (Samples.bare "Bolt")) as [Hclaim _].
  - split; [|split].
    + split; [reflexivity|]. apply not_elem_of_empty.
    + intros [|idx'] inv_it' [Hl _]; simpl in Hl; [|discriminate].
      injection Hl as <-. apply Qle_refl.
    + intros idx' inv_it' Hlt. lia.
  - destruct Hclaim as [Ha _]; [vm_compute; discriminate|].
    vm_compute in Ha. discriminate.
Qed.

(** C1 (amended): for every pair of structured records and every
    threshold above 0, the PO items are processed in their order; each is
    scored against every invoice item not yet claimed, the score being the
    [SequenceMatcher] ratio, between 0 and 1, of the lower-cased and
    stripped descriptions; the unclaimed invoice item of highest score, the
    first one among equals, is claimed and paired in the row iff its score
    reaches the threshold, and otherwise nothing is claimed. *)
Theorem item_matching_rule po_struct inv_struct (t : Q) :
  (0 < t)%Q ->
  let po_items := items_of po_struct in
  let inv_items := items_of inv_struct in
  matching_rule t po_items inv_items
  /\ (forall k po_it, po_items !! k = Some po_it ->
        exists r,
          item_rows po_struct inv_struct t !! k = Some r
          /\ rows_after t po_items inv_items (S k)
             = rows_after t po_items inv_items k ++ [r]
          /\ po_value r = get (description po_it) "")
  /\ (forall po_it inv_it,
        score po_it inv_it
        = Difflib.ratio
            (PyStr.strip (PyStr.lower (get (description po_it) "")))
            (PyStr.strip (PyStr.lower (get (description inv_it) "")))
        /\ (0 <= score po_it inv_it)%Q /\ (score po_it inv_it <= 1)%Q).
Proof.
  intros Hpos po_items inv_items. split; [|split].
  - apply matching_rule_positive. assumption.
  - intros k po_it Hk. eexists. split; [|split].
    + apply item_rows_lookup. exact Hk.
    + apply rows_after_S. exact Hk.
    + reflexivity.
  - intros po_it inv_it. split; [reflexivity|]. apply similar_bounds.
Qed.

Lemma item_matching_rule_witness :
  (0 < slider_threshold 70)%Q
  /\ matching_rule (slider_threshold 70) (items_of Samples.po_doc)
       (items_of Samples.inv_doc).
Proof.
  split; [reflexivity|].
  destruct (item_matching_rule Samples.po_doc Samples.inv_doc
              (slider_threshold 70) eq_refl) as [Hrule _].
  exact Hrule.
Defined.

End MatchingRule.

(** ** C2: the header checks *)

Section HeaderChecks.

Import Comparator.

Lemma truthy_iff (s : string) : PyStr.truthy s = true <-> s <> "".
Proof. destruct s; simpl; split; congruence. Qed.

Lemma header_status_match (po_val inv_val : value) :
  header_status po_val inv_val = "Match"
  <-> PyStr.strip (py_str po_val) <> ""
      /\ PyStr.strip (py_str inv_val) <> ""
      /\ PyStr.strip (py_str po_val) = PyStr.strip (py_str inv_val).
Proof.
  unfold header_status. rewrite <- !truthy_iff.
  destruct (String.eqb_spec (PyStr.strip (py_str po_val))
              (PyStr.strip (py_str inv_val))) as [Heq|Hne];
    destruct (PyStr.truthy (PyStr.strip (py_str po_val)));
    destruct (PyStr.truthy (PyStr.strip (py_str inv_val)));
    simpl; split; intros H; try discriminate; try tauto;
    destruct H as (H1 & H2 & H3); try discriminate; contradiction.
Qed.

Lemma header_status_cases (po_val inv_val : value) :
  header_status po_val inv_val = "Match"
  \/ header_status po_val inv_val = "Mismatch".
Proof.
  unfold header_status. destruct (_ && _ && _); [left|right]; reflexivity.
Qed.

(** C2: the header checks are Document Number, Vendor, Date and Grand
    Total, in this order, each with the two values read (the empty string
    for a missing one) and a status that is "Match" iff the string forms of
    both values are non-empty after stripping and equal after stripping,
    and "Mismatch" otherwise; an empty or missing value never matches, and
    "1200.00" against "1200" is a Mismatch. *)
Theorem header_checks_spec po_struct inv_struct (t : Q) :
  fst (compare_structures po_struct inv_struct t)
  = map (fun '(label, key) =>
           (label, field_of po_struct key, field_of inv_struct key,
            header_status (field_of po_struct key)
              (field_of inv_struct key)))
      [ ("Document Number", number); ("Vendor", vendor);
        ("Date", date); ("Grand Total", grand_total) ]
  /\ (forall po_val inv_val,
        (header_status po_val inv_val = "Match"
         <-> PyStr.strip (py_str po_val) <> ""
             /\ PyStr.strip (py_str inv_val) <> ""
             /\ PyStr.strip (py_str po_val) = PyStr.strip (py_str inv_val))
        /\ (header_status po_val inv_val <> "Match" ->
            header_status po_val inv_val = "Mismatch"))
  /\ (forall v, header_status (VStr "") v = "Mismatch"
                /\ header_status v (VStr "") = "Mismatch")
  /\ header_status (VStr "1200.00") (VStr "1200") = "Mismatch".
Proof.
  split; [|split; [|split]].
  - unfold compare_structures.
    destruct (fold_left _ _ _) as [u rows]. reflexivity.
  - intros po_val inv_val. split; [apply header_status_match|].
    destruct (header_status_cases po_val inv_val); tauto.
  - intros v. split.
    + reflexivity.
    + destruct (header_status_cases v (VStr "")) as [H|H]; [|assumption].
      apply header_status_match in H. destruct H as (_ & H & _).
      exfalso. apply H. reflexivity.
  - reflexivity.
Qed.

End HeaderChecks.

(** ** C3: the status of a matched pair *)

Section ItemStatus.

Import Comparator.

Lemma item_status_match (a b c d e f : value) :
  item_status a b c d e f = "Match"
  <-> py_str a = py_str b /\ py_str c = py_str d /\ py_str e = py_str f.
Proof.
  unfold item_status.
  destruct (String.eqb_spec (py_str a) (py_str b));
    destruct (String.eqb_spec (py_str c) (py_str d));
    destruct (String.eqb_spec (py_str e) (py_str f));
    simpl; split; intros H; try discriminate; try tauto;
    destruct H as (H1 & H2 & H3); contradiction.
Qed.

Lemma item_status_cases (a b c d e f : value) :
  item_status a b c d e f = "Match" \/ item_status a b c d e f = "Mismatch".
Proof.
  unfold item_status. destruct (_ || _ || _); [right|left]; reflexivity.
Qed.

(** C3: the row of a PO item matched with an invoice item pairs the two, and
    its status is "Match" iff the string forms of the two quantities, of the
    two unit prices and of the two totals are equal, "Mismatch" otherwise;
    the strings are compared as they are, so "5.00" against "5.0" is a
    Mismatch. *)
Theorem matched_row_status po_struct inv_struct (t : Q) k po_it idx inv_it :
  items_of po_struct !! k = Some po_it ->
  assignment t (items_of po_struct) (items_of inv_struct) !! k
  = Some (Some idx) ->
  items_of inv_struct !! idx = Some inv_it ->
  exists r,
    item_rows po_struct inv_struct t !! k = Some r
    /\ r = po_row po_it (Some inv_it) (score po_it inv_it)
    /\ (status r = "Match"
        <-> same_str (qty po_it) (qty inv_it)
            /\ same_str (unit_price po_it) (unit_price inv_it)
            /\ same_str (total po_it) (total inv_it))
    /\ (status r <> "Match" -> status r = "Mismatch")
    /\ (forall a b c d, item_status (VStr "5.00") (VStr "5.0") a b c d
                        = "Mismatch").
Proof.
  intros Hk Ha Hidx.
  rewrite (assignment_lookup _ _ _ _ _ Hk) in Ha. injection Ha as Hc.
  destruct (round_claims _ _ _ _ _ _ Hk Hc) as (inv_it' & Hfb & _ & Hcl).
  assert (inv_it' = inv_it) as ->.
  { destruct Hfb as [[Hl _] _]. congruence. }
  exists (po_row po_it (Some inv_it) (score po_it inv_it)).
  split; [|split; [reflexivity|split; [|split]]].
  - rewrite (item_rows_lookup _ _ _ _ _ Hk). unfold po_row_at.
    rewrite Hc, Hidx.
    destruct (claim_of_unclaimed _ _ _ _ _ Hc) as (x & Hfb' & _ & _ & Hs).
    destruct (first_best_unique _ _ _ _ _ _ _ Hfb Hfb') as [_ <-].
    rewrite Hs. reflexivity.
  - simpl. apply item_status_match.
  - simpl. intros Hne.
    destruct (item_status_cases (get (qty po_it) (VStr ""))
                (get (qty inv_it) (VStr ""))
                (get (unit_price po_it) (VStr ""))
                (get (unit_price inv_it) (VStr ""))
                (get (total po_it) (VStr ""))
                (get (total inv_it) (VStr ""))); tauto.
  - reflexivity.
Qed.

Lemma matched_row_status_witness :
  exists r,
    item_rows Samples.po_doc Samples.inv_doc (7 # 10) !! 0 = Some r
    /\ r = po_row Samples.bolt_po (Some Samples.bolt_inv)
             (score Samples.bolt_po Samples.bolt_inv)
    /\ status r = "Match".
Proof.
  destruct (matched_row_status Samples.po_doc Samples.inv_doc (7 # 10)
              0 Samples.bolt_po 1 Samples.bolt_inv)
    as (r & Hrow & Hr & Hstatus & _).
  - reflexivity.
  - vm_compute. reflexivity.
  - reflexivity.
  - exists r. split; [assumption|]. split; [assumption|].
    apply Hstatus. repeat split.
Defined.

End ItemStatus.

(** ** C4: the row of an unmatched PO item *)

Section UnmatchedPO.

Import Comparator.

(** C4 as stated fails on the score and on the status.  The score:
    "Steel Rod" scores 2/7 against "Shipping Fee", below the threshold 7/10,
    and its row, with the status "Mismatch", shows the score 0.29, not 0.
    The status: "Washer", an item with a description and nothing else,
    scores 0 against "Bolt"; its row has an empty invoice side and the
    score 0, and its status is "Match", where the row of the unmatched
    invoice item "Bolt" says "Mismatch" (app.py:171). *)
Lemma unmatched_rule_fails :
  ~ unmatched_rule_as_stated (7 # 10) [Samples.rod_po] [Samples.fee_inv]
  /\ ~ unmatched_rule_as_stated (7 # 10)
        Samples.washer_po Samples.bolt_only_inv
  /\ (exists r,
        rows_after (7 # 10) [Samples.rod_po] [Samples.fee_inv] 1 = [r]
        /\ invoice_side_empty r /\ status r = "Mismatch"
        /\ match_score r = (29 # 100)%Q)
  /\ (exists r r',
        snd (compare_structures
               (Samples.record "PO-12345" (VInt 0) Samples.washer_po)
               (Samples.record "PO-12345" (VInt 0) Samples.bolt_only_inv)
               (7 # 10))
        = [r; r']
        /\ rows_after (7 # 10) Samples.washer_po Samples.bolt_only_inv 1 = [r]
        /\ assignment (7 # 10) Samples.washer_po Samples.bolt_only_inv !! 0
           = Some None
        /\ invoice_side_empty r /\ match_score r = 0%Q
        /\ status r = "Match"
        /\ r' = unmatched_row (Samples.bare "Bolt")
        /\ status r' = "Mismatch").
Proof.
  split; [|split; [|split]].
  - intros Hrule.
    destruct (Hrule 0 Samples.rod_po eq_refl) as (r & Hrows & _ & _ & Hs & _).
    + intros [|idx] inv_it [Hl _]; simpl in Hl; [|discriminate].
      injection Hl as <-. vm_compute. reflexivity.
    + vm_compute in Hrows. injection Hrows as <-.
      vm_compute in Hs. discriminate.
  - intros Hrule.
    destruct (Hrule 0 (Samples.bare "Washer") eq_refl)
      as (r & Hrows & _ & Hst & _).
    + intros [|idx] inv_it [Hl _]; simpl in Hl; [|discriminate].
      injection Hl as <-. vm_compute. reflexivity.
    + vm_compute in Hrows. injection Hrows as <-.
      vm_compute in Hst. discriminate.
  - eexists. split; [vm_compute; reflexivity|]. vm_compute. repeat split.
  - eexists. eexists. split; [vm_compute; reflexivity|].
    vm_compute. repeat split.
Qed.

Lemma scan_best_score po_it inv_items inv_used :
  is_best_score po_it inv_items inv_used
    (best_score (scan po_it inv_items inv_used)).
Proof.
  destruct (scan_result inv_items po_it inv_used)
    as [(Hs & _ & _ & Hzero)|(i & it' & Hfb & _ & _ & Hs & _)];
    rewrite Hs; split.
  - assumption.
  - left. reflexivity.
  - apply Hfb.
  - right. exists i, it'. split; [apply Hfb|reflexivity].
Qed.

(** C4 (amended): when every unclaimed invoice item scores below the
    threshold for a PO item, its row has an empty invoice side, the PO item
    claims no invoice item, and the score shown is the best score found,
    rounded to two decimals as [round] does on its float (0 when that best
    score rounds to 0, as it does when no invoice item is left); the status is "Mismatch" as soon as the
    quantity, the unit price or the total of the PO item has a non-empty
    string form. *)
Theorem unmatched_po_row po_struct inv_struct (t : Q) k po_it :
  items_of po_struct !! k = Some po_it ->
  (forall idx inv_it,
     unclaimed (items_of inv_struct)
       (used_after t (items_of po_struct) (items_of inv_struct) k)
       idx inv_it ->
     (score po_it inv_it < t)%Q) ->
  exists r s,
    item_rows po_struct inv_struct t !! k = Some r
    /\ rows_after t (items_of po_struct) (items_of inv_struct) (S k)
       = rows_after t (items_of po_struct) (items_of inv_struct) k ++ [r]
    /\ po_value r = get (description po_it) ""
    /\ invoice_side_empty r
    /\ is_best_score po_it (items_of inv_struct)
         (used_after t (items_of po_struct) (items_of inv_struct) k) s
    /\ match_score r = round2 s
    /\ (py_str (po_qty r) <> "" \/ py_str (po_price r) <> ""
        \/ py_str (po_total r) <> "" ->
        status r = "Mismatch")
    /\ claims_nothing_at t (items_of po_struct) (items_of inv_struct) k po_it.
Proof.
  intros Hk Hlow.
  pose proof (claim_of_below _ _ _ _ Hlow) as Hc.
  destruct (round_claims_nothing _ _ _ _ _ Hk Hc) as [Hnothing Hrows].
  eexists. eexists.
  split; [|split; [exact Hrows|split; [reflexivity|split;
    [repeat split|split; [apply scan_best_score|split;
       [reflexivity|split; [|exact Hnothing]]]]]]].
  - rewrite (item_rows_lookup _ _ _ _ _ Hk). unfold po_row_at.
    rewrite Hc. reflexivity.
  - simpl. intros Hne.
    destruct (item_status_cases (get (qty po_it) (VStr "")) (VStr "")
                (get (unit_price po_it) (VStr "")) (VStr "")
                (get (total po_it) (VStr "")) (VStr "")) as [H|H];
      [|assumption].
    apply item_status_match in H. simpl in H.
    destruct H as (H1 & H2 & H3). tauto.
Qed.

Lemma unmatched_po_row_witness :
  exists r,
    item_rows Samples.po_doc Samples.inv_doc (7 # 10) !! 1 = Some r
    /\ invoice_side_empty r
    /\ status r = "Mismatch".
Proof.
  destruct (unmatched_po_row Samples.po_doc Samples.inv_doc (7 # 10)
              1 Samples.rod_po)
    as (r & s & Hrow & Hrows & _ & Hempty & _ & _ & Hstatus & _).
  - reflexivity.
  - intros [|[|idx]] inv_it [Hl Hu]; simpl in Hl.
    + injection Hl as <-. vm_compute. reflexivity.
    + exfalso. apply Hu. vm_compute. reflexivity.
    + discriminate.
  - exists r. split; [assumption|]. split; [assumption|].
    apply Hstatus. left.
    vm_compute in Hrow. injection Hrow as <-. vm_compute. discriminate.
Defined.

End UnmatchedPO.

(** ** C5 and C10: the rows of a report and the invoice items in them *)

Section ReportRows.

Import Comparator.

Variable t : Q.
Variables po_items inv_items : list LineItem.

Lemma used_final_assignment idx :
  Some idx ∈ used_after t po_items inv_items (length po_items)
  <-> Some idx ∈ assignment t po_items inv_items.
Proof.
  rewrite used_after_claims by reflexivity. rewrite list_elem_of_lookup.
  split.
  - intros (k & _ & Ha). exists k. assumption.
  - intros (k & Ha). exists k. split; [|assumption].
    apply lookup_lt_Some in Ha. rewrite assignment_length in Ha. assumption.
Qed.

Lemma never_claimed_eq :
  unclaimed_entries inv_items
    (used_after t po_items inv_items (length po_items))
  = never_claimed_entries t po_items inv_items.
Proof.
  unfold unclaimed_entries, never_claimed_entries.
  apply list_filter_iff. intros [idx inv_it]. simpl.
  rewrite used_final_assignment. reflexivity.
Qed.

Lemma never_claimed_spec idx inv_it :
  (idx, inv_it) ∈ never_claimed_entries t po_items inv_items
  <-> inv_items !! idx = Some inv_it
      /\ forall k, assignment t po_items inv_items !! k <> Some (Some idx).
Proof.
  unfold never_claimed_entries.
  rewrite list_elem_of_filter, enumerate_lookup, list_elem_of_lookup. simpl.
  split.
  - intros [Hno Hl]. split; [assumption|].
    intros k Hk. apply Hno. exists k. assumption.
  - intros [Hl Hno]. split; [|assumption].
    intros (k & Hk). exact (Hno k Hk).
Qed.

Lemma filter_fst_zip_seq (P : nat -> Prop) `{!forall x, Decision (P x)}
    {A} (l : list A) : forall s,
  map fst (filter (fun e : nat * A => P (fst e)) (zip (seq s (length l)) l))
  = filter P (seq s (length l)).
Proof.
  induction l as [|x l IH]; intros s; simpl; [reflexivity|].
  rewrite !filter_cons. simpl.
  destruct (decide (P s)); simpl; rewrite IH; reflexivity.
Qed.

Lemma never_claimed_indices :
  map fst (never_claimed_entries t po_items inv_items)
  = filter (fun idx => Some idx ∉ assignment t po_items inv_items)
      (seq 0 (length inv_items)).
Proof.
  unfold never_claimed_entries, enumerate.
  exact (filter_fst_zip_seq
           (fun idx => Some idx ∉ assignment t po_items inv_items)
           inv_items 0).
Qed.

(** A claimed index is an unclaimed invoice item at the time of the claim. *)
Lemma assignment_claim k idx :
  assignment t po_items inv_items !! k = Some (Some idx) ->
  exists po_it inv_it,
    po_items !! k = Some po_it
    /\ first_best po_it inv_items (used_after t po_items inv_items k)
         idx inv_it
    /\ (t <= score po_it inv_it)%Q.
Proof.
  intros Ha.
  destruct (lookup_lt_is_Some_2 po_items k) as [po_it Hk].
  { apply lookup_lt_Some in Ha. rewrite assignment_length in Ha. exact Ha. }
  rewrite (assignment_lookup _ _ _ _ _ Hk) in Ha. injection Ha as Hc.
  destruct (claim_of_unclaimed _ _ _ _ _ Hc) as (inv_it & Hfb & Hle & _).
  exists po_it, inv_it. auto.
Qed.

Lemma used_after_mono k n idx :
  k <= n -> n <= length po_items ->
  Some idx ∈ used_after t po_items inv_items k ->
  Some idx ∈ used_after t po_items inv_items n.
Proof.
  intros Hkn Hn. rewrite !used_after_claims by lia.
  intros (j & Hj & Ha). exists j. split; [lia|assumption].
Qed.

(** No invoice item is claimed twice. *)
Lemma assignment_injective k1 k2 idx :
  assignment t po_items inv_items !! k1 = Some (Some idx) ->
  assignment t po_items inv_items !! k2 = Some (Some idx) ->
  k1 = k2.
Proof.
  assert (Hlt : forall i j, i < j ->
            assignment t po_items inv_items !! i = Some (Some idx) ->
            assignment t po_items inv_items !! j = Some (Some idx) -> False).
  { intros i j Hij Hi Hj.
    destruct (assignment_claim _ _ Hj) as (po_it & inv_it & Hk & Hfb & _).
    destruct Hfb as [[_ Hfree] _]. apply Hfree.
    apply used_after_claims.
    - apply lookup_lt_Some in Hk. lia.
    - exists i. split; assumption. }
  intros H1 H2. destruct (Nat.lt_trichotomy k1 k2) as [H|[H|H]];
    [exfalso; eapply Hlt; eassumption|assumption
    |exfalso; eapply Hlt; eassumption].
Qed.





End ReportRows.

Section ReportTheorems.

Import Comparator.

Lemma item_rows_never_claimed po_struct inv_struct (t : Q) :
  item_rows po_struct inv_struct t
  = imap (po_row_at t (items_of po_struct) (items_of inv_struct))
      (items_of po_struct)
    ++ map unmatched_row
         (map snd
            (never_claimed_entries t (items_of po_struct)
               (items_of inv_struct))).
Proof.
  rewrite item_rows_eq. unfold unclaimed_items.
  rewrite never_claimed_eq. reflexivity.
Qed.

(** C5: the item rows are the rows of the PO items, in PO order, followed by
    one row for every invoice item that no PO item claimed, in invoice
    order; such a row carries the label of an unmatched invoice item, the
    invoice item's values, an empty PO side, the status "Mismatch" and the
    score 0. *)
Theorem unmatched_invoice_rows po_struct inv_struct (t : Q) :
  let po_items := items_of po_struct in
  let inv_items := items_of inv_struct in
  item_rows po_struct inv_struct t
  = imap (po_row_at t po_items inv_items) po_items
    ++ map unmatched_row
         (map snd (never_claimed_entries t po_items inv_items))
  /\ (forall k po_it,
        let r := po_row_at t po_items inv_items k po_it in
        field r = "Item" /\ po_value r = get (description po_it) ""
        /\ po_qty r = get (qty po_it) (VStr "")
        /\ po_price r = get (unit_price po_it) (VStr "")
        /\ po_total r = get (total po_it) (VStr ""))
  /\ (forall idx inv_it,
        (idx, inv_it) ∈ never_claimed_entries t po_items inv_items
        <-> inv_items !! idx = Some inv_it
            /\ forall k,
                 assignment t po_items inv_items !! k <> Some (Some idx))
  /\ map fst (never_claimed_entries t po_items inv_items)
     = filter (fun idx => Some idx ∉ assignment t po_items inv_items)
         (seq 0 (length inv_items))
  /\ (forall inv_it,
        let r := unmatched_row inv_it in
        field r = "Item (Unmatched Invoice)"
        /\ status r = "Mismatch" /\ match_score r = 0%Q
        /\ inv_value r = get (description inv_it) ""
        /\ inv_qty r = get (qty inv_it) (VStr "")
        /\ inv_price r = get (unit_price inv_it) (VStr "")
        /\ inv_total r = get (total inv_it) (VStr "")
        /\ po_value r = "" /\ po_qty r = VStr ""
        /\ po_price r = VStr "" /\ po_total r = VStr "").
Proof.
  intros po_items inv_items. split; [|split; [|split; [|split]]].
  - apply item_rows_never_claimed.
  - intros k po_it. repeat split.
  - apply never_claimed_spec.
  - apply never_claimed_indices.
  - intros inv_it. repeat split.
Qed.


End ReportTheorems.

(** ** C6: raising the threshold *)

Section Threshold.

Import Comparator.

(** C6 as stated fails: at threshold 1/2 "Steel Rod 10mm" claims "Steel
    Pipe 12 mm" (score 2/3) and leaves "Steel Pipe 12mm" unmatched; at 7/10
    it no longer does, and "Steel Pipe 12mm" claims that invoice item. *)
Lemma threshold_monotone_fails :
  (1 # 2 <= 7 # 10)%Q
  /\ ~ threshold_monotone_as_stated (1 # 2) (7 # 10)
        Samples.steel_po Samples.steel_inv.
Proof.
  split; [discriminate|].
  intros Hmono. specialize (Hmono 1). vm_compute in Hmono.
  specialize (Hmono eq_refl). discriminate.
Qed.

Lemma claim_none_mono (t1 t2 : Q) inv_items inv_used inv_used' po_it :
  (t1 <= t2)%Q ->
  (forall idx, Some idx ∈ inv_used <-> Some idx ∈ inv_used') ->
  claim_of t1 inv_items inv_used po_it = None ->
  claim_of t2 inv_items inv_used' po_it = None.
Proof.
  intros Hle Hext. unfold claim_of.
  rewrite <- (scan_ext inv_items po_it inv_used inv_used' Hext).
  destruct (Qle_bool t1 (best_score (scan po_it inv_items inv_used))) eqn:H1.
  - intros ->. destruct (Qle_bool t2 _); reflexivity.
  - intros _. rewrite Qle_bool_false; [reflexivity|].
    eapply Qlt_le_trans; [|exact Hle]. apply Qnot_le_lt.
    intros H. apply Qle_bool_iff in H. congruence.
Qed.

(** C6 (amended): for thresholds [t1 <= t2], a PO item that claims nothing
    at [t1] claims nothing at [t2] when it meets the same unclaimed invoice
    items in both runs: so for every PO item before which the two runs made
    the same claims, and so for the first PO item. *)
Theorem threshold_monotone_same_claims (t1 t2 : Q) po_struct inv_struct :
  (t1 <= t2)%Q ->
  let po_items := items_of po_struct in
  let inv_items := items_of inv_struct in
  (forall inv_used inv_used' po_it,
     (forall idx, Some idx ∈ inv_used <-> Some idx ∈ inv_used') ->
     claim_of t1 inv_items inv_used po_it = None ->
     claim_of t2 inv_items inv_used' po_it = None)
  /\ (forall k,
        (forall k', k' < k ->
           assignment t1 po_items inv_items !! k'
           = assignment t2 po_items inv_items !! k') ->
        assignment t1 po_items inv_items !! k = Some None ->
        assignment t2 po_items inv_items !! k = Some None)
  /\ (assignment t1 po_items inv_items !! 0 = Some None ->
      assignment t2 po_items inv_items !! 0 = Some None).
Proof.
  intros Hle po_items inv_items.
  assert (Hrun : forall k,
        (forall k', k' < k ->
           assignment t1 po_items inv_items !! k'
           = assignment t2 po_items inv_items !! k') ->
        assignment t1 po_items inv_items !! k = Some None ->
        assignment t2 po_items inv_items !! k = Some None).
  { intros k Hsame Ha.
    assert (Hlen : k < length po_items).
    { apply lookup_lt_Some in Ha. rewrite assignment_length in Ha. exact Ha. }
    destruct (lookup_lt_is_Some_2 po_items k Hlen) as [po_it Hk].
    rewrite (assignment_lookup _ _ _ _ _ Hk) in Ha. injection Ha as Hc.
    rewrite (assignment_lookup _ _ _ _ _ Hk). f_equal.
    eapply claim_none_mono; [exact Hle| |exact Hc].
    intros idx. rewrite !used_after_claims by lia. split.
    - intros (j & Hj & Hja). exists j. split; [assumption|].
      rewrite <- (Hsame j Hj). assumption.
    - intros (j & Hj & Hja). exists j. split; [assumption|].
      rewrite (Hsame j Hj). assumption. }
  split; [|split].
  - intros inv_used inv_used' po_it. apply claim_none_mono. assumption.
  - exact Hrun.
  - apply Hrun. intros k' Hk'. lia.
Qed.

Lemma threshold_monotone_same_claims_witness :
  (1 # 2 <= 7 # 10)%Q
  /\ (assignment (1 # 2) (items_of Samples.po_doc) (items_of Samples.inv_doc)
        !! 1 = Some None ->
      assignment (7 # 10) (items_of Samples.po_doc) (items_of Samples.inv_doc)
        !! 1 = Some None).
Proof.
  split; [discriminate|].
  destruct (threshold_monotone_same_claims (1 # 2) (7 # 10)
              Samples.po_doc Samples.inv_doc) as (_ & Hrun & _).
  - discriminate.
  - apply Hrun. intros [|k'] Hk'; [vm_compute; reflexivity|lia].
Defined.

End Threshold.

(** ** C7: permuting the invoice items *)

Section Permuting.

Import Comparator.

(** C7 as stated fails: "Bolt 10mm" scores 8/9 against both "Bolt 12mm" and
    "Bolt-10mm " and claims whichever comes first; at threshold 8/10 the
    next PO item, "Bolt 12mm", is matched only when "Bolt 12mm" is left. *)
Lemma permutation_invariant_fails :
  Permutation Samples.bolts_inv Samples.bolts_inv'
  /\ ~ permutation_invariant_as_stated (8 # 10) Samples.bolts_po
        Samples.bolts_inv Samples.bolts_inv'.
Proof.
  split; [apply perm_swap|].
  intros Hinv. destruct (Hinv 1) as [_ Hback].
  destruct Hback as [idx Hidx].
  - exists 1. vm_compute. reflexivity.
  - vm_compute in Hidx. discriminate.
Qed.

Lemma unclaimed_items_spec inv_items inv_used inv_it :
  inv_it ∈ unclaimed_items inv_items inv_used
  <-> exists idx, unclaimed inv_items inv_used idx inv_it.
Proof.
  unfold unclaimed_items. split.
  - intros Hin. apply list_elem_of_fmap in Hin as ([idx x] & -> & Hin).
    exists idx. apply unclaimed_entries_spec. assumption.
  - intros (idx & Hun). apply unclaimed_entries_spec in Hun.
    apply list_elem_of_fmap. exists (idx, inv_it). split; [reflexivity|].
    assumption.
Qed.

Lemma filter_all {A} (P : A -> Prop) `{!forall x, Decision (P x)}
    (l : list A) :
  (forall x, P x) -> filter P l = l.
Proof.
  intros HP. induction l as [|x l IH]; [reflexivity|].
  rewrite filter_cons, decide_True by apply HP. rewrite IH. reflexivity.
Qed.

Lemma unclaimed_items_all (inv_items : list LineItem) :
  unclaimed_items inv_items ∅ = inv_items.
Proof.
  unfold unclaimed_items, unclaimed_entries.
  rewrite filter_all.
  - unfold enumerate. apply snd_zip. rewrite length_seq. reflexivity.
  - intros [idx x]. simpl. apply not_elem_of_empty.
Qed.

Lemma best_score_le_perm po_it inv_items inv_used inv_items' inv_used' :
  (forall inv_it, inv_it ∈ unclaimed_items inv_items inv_used ->
                  inv_it ∈ unclaimed_items inv_items' inv_used') ->
  (best_score (scan po_it inv_items inv_used)
   <= best_score (scan po_it inv_items' inv_used'))%Q.
Proof.
  intros Hsub.
  destruct (scan_spec po_it inv_items' inv_used') as (H0' & _).
  destruct (scan_result inv_items po_it inv_used)
    as [(Hs & _)|(i & it' & Hfb & _ & _ & Hs & _)]; rewrite Hs.
  - assumption.
  - destruct (scan_best_score po_it inv_items' inv_used') as [Hmax _].
    assert (Hin : it' ∈ unclaimed_items inv_items' inv_used').
    { apply Hsub, unclaimed_items_spec. exists i. apply Hfb. }
    apply unclaimed_items_spec in Hin as (j & Hj).
    apply (Hmax j). assumption.
Qed.

Lemma best_score_perm po_it inv_items inv_used inv_items' inv_used' :
  Permutation (unclaimed_items inv_items inv_used)
    (unclaimed_items inv_items' inv_used') ->
  (best_score (scan po_it inv_items inv_used)
   == best_score (scan po_it inv_items' inv_used'))%Q.
Proof.
  intros Hperm. apply Qle_antisym; apply best_score_le_perm;
    intros inv_it Hin.
  - rewrite <- Hperm. assumption.
  - rewrite Hperm. assumption.
Qed.

Lemma claim_is_Some (t : Q) po_it inv_items inv_used :
  is_Some (claim_of t inv_items inv_used po_it)
  <-> (t <= best_score (scan po_it inv_items inv_used))%Q
      /\ (0 < best_score (scan po_it inv_items inv_used))%Q.
Proof.
  unfold claim_of.
  destruct (scan_result inv_items po_it inv_used)
    as [(Hs & _ & Hi & _)|(i & it' & _ & Hi & _ & Hs & Hpos)];
    rewrite Hi, Hs.
  - split.
    + intros [x Hx]. destruct (Qle_bool t 0); discriminate.
    + intros [_ H]. exfalso. exact (Qlt_irrefl _ H).
  - destruct (Qle_bool t (score po_it it')) eqn:Hle.
    + apply Qle_bool_iff in Hle. split; [auto|]. intros _. eexists; reflexivity.
    + split.
      * intros [x Hx]. discriminate.
      * intros [H _]. apply Qle_bool_iff in H. congruence.
Qed.

(** C7 (amended): for one PO item scanned against two lists of unclaimed
    invoice items that are permutations of each other, the best score is
    the same, a match is found in one iff it is found in the other, and the
    invoice items chosen have the same score; so for the first PO item of a
    run when the invoice list is permuted. *)
Theorem scan_permutation_invariant (t : Q) po_it
    inv_items inv_used inv_items' inv_used' :
  Permutation (unclaimed_items inv_items inv_used)
    (unclaimed_items inv_items' inv_used') ->
  (best_score (scan po_it inv_items inv_used)
   == best_score (scan po_it inv_items' inv_used'))%Q
  /\ (is_Some (claim_of t inv_items inv_used po_it)
      <-> is_Some (claim_of t inv_items' inv_used' po_it))
  /\ (forall idx inv_it idx' inv_it',
        claim_of t inv_items inv_used po_it = Some idx ->
        inv_items !! idx = Some inv_it ->
        claim_of t inv_items' inv_used' po_it = Some idx' ->
        inv_items' !! idx' = Some inv_it' ->
        (score po_it inv_it == score po_it inv_it')%Q)
  /\ (inv_used = ∅ -> inv_used' = ∅ -> forall po_rest,
        matched t (po_it :: po_rest) inv_items 0
        <-> matched t (po_it :: po_rest) inv_items' 0).
Proof.
  intros Hperm.
  pose proof (best_score_perm po_it _ _ _ _ Hperm) as Hbs.
  assert (Hsome : is_Some (claim_of t inv_items inv_used po_it)
                  <-> is_Some (claim_of t inv_items' inv_used' po_it)).
  { rewrite !claim_is_Some, Hbs. reflexivity. }
  split; [exact Hbs|split; [exact Hsome|split]].
  - intros idx inv_it idx' inv_it' Hc Hl Hc' Hl'.
    destruct (claim_of_unclaimed _ _ _ _ _ Hc) as (x & [[Hx _] _] & _ & _ & Hs).
    destruct (claim_of_unclaimed _ _ _ _ _ Hc')
      as (x' & [[Hx' _] _] & _ & _ & Hs').
    assert (x = inv_it) as -> by congruence.
    assert (x' = inv_it') as -> by congruence.
    rewrite <- Hs, <- Hs'. exact Hbs.
  - intros -> -> po_rest. unfold matched.
    rewrite (assignment_lookup t (po_it :: po_rest) inv_items 0 po_it eq_refl).
    rewrite (assignment_lookup t (po_it :: po_rest) inv_items' 0 po_it
               eq_refl).
    change (used_after t (po_it :: po_rest) inv_items 0)
      with (∅ : gset (option nat)).
    change (used_after t (po_it :: po_rest) inv_items' 0)
      with (∅ : gset (option nat)).
    split; intros [idx Hidx]; injection Hidx as Hidx.
    + destruct (proj1 Hsome (ex_intro _ idx Hidx)) as [j Hj].
      exists j. rewrite Hj. reflexivity.
    + destruct (proj2 Hsome (ex_intro _ idx Hidx)) as [j Hj].
      exists j. rewrite Hj. reflexivity.
Qed.

Lemma scan_permutation_invariant_witness :
  Permutation (unclaimed_items Samples.bolts_inv ∅)
    (unclaimed_items Samples.bolts_inv' ∅)
  /\ (matched (8 # 10) Samples.bolts_po Samples.bolts_inv 0
      <-> matched (8 # 10) Samples.bolts_po Samples.bolts_inv' 0).
Proof.
  assert (Hperm : Permutation (unclaimed_items Samples.bolts_inv ∅)
                    (unclaimed_items Samples.bolts_inv' ∅)).
  { vm_compute. apply perm_swap. }
  split; [exact Hperm|].
  destruct (scan_permutation_invariant (8 # 10) (Samples.bare "Bolt 10mm")
              Samples.bolts_inv ∅ Samples.bolts_inv' ∅ Hperm)
    as (_ & _ & _ & Hfirst).
  exact (Hfirst eq_refl eq_refl [Samples.bare "Bolt 12mm"]).
Defined.

End Permuting.

(** ** C8: two runs on the same inputs *)

Section StoreFacts.

Import Comparator.

Lemma new_fresh o (s : Store.store) :
  Store.new o s = (<[fresh (dom s) := o]> s, fresh (dom s))
  /\ s !! fresh (dom s) = None.
Proof.
  split; [reflexivity|]. apply not_elem_of_dom, is_fresh.
Qed.

Section Frame.

Variables rows inv_used : nat.
Hypothesis Hdiff : rows <> inv_used.
Variable base : Store.store.

Local Abbreviation during := (during rows inv_used base).

Lemma indices_during U R : Store.indices_at inv_used (during U R) = U.
Proof.
  unfold Store.indices_at, during.
  rewrite lookup_insert_ne by exact Hdiff. rewrite lookup_insert_eq.
  reflexivity.
Qed.

Lemma rows_during U R : Store.rows_at rows (during U R) = R.
Proof.
  unfold Store.rows_at, during. rewrite lookup_insert_eq. reflexivity.
Qed.

Lemma append_row_during U R x :
  Store.append_row rows x (during U R) = during U (R ++ [x]).
Proof.
  unfold Store.append_row. rewrite rows_during. unfold during.
  apply insert_insert_eq.
Qed.

Lemma add_index_during U R x :
  Store.add_index inv_used x (during U R) = during ({[ x ]} ∪ U) R.
Proof.
  unfold Store.add_index. rewrite indices_during. unfold during.
  rewrite insert_insert_ne by (intros E; apply Hdiff; symmetry; exact E).
  rewrite insert_insert_eq. reflexivity.
Qed.

Lemma po_step_during t inv_items U R po_it :
  Store.po_step t inv_items rows inv_used (during U R) po_it
  = during (fst (po_step t inv_items (U, R) po_it))
      (snd (po_step t inv_items (U, R) po_it)).
Proof.
  unfold Store.po_step, po_step, accept. rewrite indices_during.
  destruct (Qle_bool t _); simpl.
  - rewrite add_index_during, append_row_during. reflexivity.
  - rewrite append_row_during. reflexivity.
Qed.

Lemma po_loop_during t inv_items po_items : forall U R,
  fold_left (Store.po_step t inv_items rows inv_used) po_items (during U R)
  = during (fst (fold_left (po_step t inv_items) po_items (U, R)))
      (snd (fold_left (po_step t inv_items) po_items (U, R))).
Proof.
  induction po_items as [|po_it po_items IH]; intros U R; cbn [fold_left];
    [reflexivity|].
  rewrite po_step_during.
  destruct (po_step t inv_items (U, R) po_it) as [U' R'].
  cbn [fst snd]. apply IH.
Qed.

Lemma unmatched_loop_during U (l : list (nat * LineItem)) : forall R,
  fold_left (Store.unmatched_step rows inv_used) l (during U R)
  = during U (fold_left (unmatched_step U) l R).
Proof.
  induction l as [|[idx inv_it] l IH]; intros R; simpl; [reflexivity|].
  rewrite indices_during.
  destruct (decide (Some idx ∈ U)); [apply IH|].
  rewrite append_row_during. apply IH.
Qed.

End Frame.

Lemma header_loop_at {A} (hc : nat) (g : A -> header_check) (l : list A) :
  forall H (b : Store.store),
  fold_left (fun s f => Store.append_check hc (g f) s) l
    (<[hc := Store.ListOfChecks H]> b)
  = <[hc := Store.ListOfChecks (H ++ map g l)]> b.
Proof.
  induction l as [|f l IH]; intros H b; simpl.
  - rewrite app_nil_r. reflexivity.
  - unfold Store.append_check at 2. unfold Store.checks_at.
    rewrite lookup_insert_eq, insert_insert_eq, IH, <- app_assoc. reflexivity.
Qed.

(** What a call does to a store. *)
Lemma call_on_store po_struct inv_struct (t : Q) (s : Store.store) :
  exists rows header_checks inv_used U,
    let report := compare_structures po_struct inv_struct t in
    Store.compare_structures po_struct inv_struct t s
    = (<[rows := Store.ListOfRows (snd report)]>
         (<[inv_used := Store.SetOfIndices U]>
            (<[header_checks := Store.ListOfChecks (fst report)]> s)),
       (header_checks, rows))
    /\ s !! rows = None /\ s !! header_checks = None /\ s !! inv_used = None
    /\ rows <> header_checks /\ rows <> inv_used /\ header_checks <> inv_used.
Proof.
  unfold Store.compare_structures, compare_structures.
  destruct (new_fresh (Store.ListOfRows []) s) as [-> Hrows].
  set (rows := fresh (dom s)) in *.
  set (s1 := <[rows := Store.ListOfRows []]> s).
  destruct (new_fresh (Store.ListOfChecks []) s1) as [-> Hhc].
  set (hc := fresh (dom s1)) in *.
  assert (Hrh : rows <> hc).
  { intros E. rewrite <- E in Hhc. unfold s1 in Hhc.
    rewrite lookup_insert_eq in Hhc. discriminate. }
  assert (Hhc0 : s !! hc = None).
  { unfold s1 in Hhc. rewrite lookup_insert_ne in Hhc by exact Hrh.
    exact Hhc. }
  rewrite header_loop_at, app_nil_l.
  set (H := map (header_row po_struct inv_struct) header_fields).
  set (s2 := <[hc := Store.ListOfChecks H]> s1).
  destruct (new_fresh (Store.SetOfIndices ∅) s2) as [-> Hused].
  set (used := fresh (dom s2)) in *.
  assert (Hhu : hc <> used).
  { intros E. rewrite <- E in Hused. unfold s2 in Hused.
    rewrite lookup_insert_eq in Hused. discriminate. }
  assert (Hru : rows <> used).
  { intros E. rewrite <- E in Hused. unfold s2, s1 in Hused.
    rewrite lookup_insert_ne, lookup_insert_eq in Hused by (intros E'; apply Hrh; symmetry; exact E').
    discriminate. }
  assert (Hused0 : s !! used = None).
  { unfold s2, s1 in Hused.
    rewrite !lookup_insert_ne in Hused by assumption. exact Hused. }
  assert (Hform : <[used := Store.SetOfIndices ∅]> s2
                  = during rows used (<[hc := Store.ListOfChecks H]> s) ∅ []).
  { unfold during, s2, s1.
    rewrite (insert_insert_ne _ hc rows) by (intros E; apply Hrh; symmetry; exact E).
    rewrite (insert_insert_ne _ used rows) by (intros E; apply Hru; symmetry; exact E).
    reflexivity. }
  rewrite Hform, (po_loop_during rows used Hru).
  destruct (fold_left (po_step t (items_of inv_struct)) (items_of po_struct)
              (∅, [])) as [U R] eqn:Hloop.
  simpl fst. simpl snd.
  rewrite (unmatched_loop_during rows used Hru).
  exists rows, hc, used, U. simpl. unfold during. auto 10.
Qed.

(** C8: a run keeps no state.  In whatever store a call starts - the
    objects earlier calls left, changed or not - it creates its two lists
    and its set anew, changes no object that was there, and the report it
    returns is the one the comparison computes from its three arguments
    alone; so two runs on the same records and threshold, the second
    started in any store at all, return equal reports. *)
Theorem comparator_keeps_no_state po_struct inv_struct (t : Q)
    (s s' : Store.store) :
  let first_run := Store.compare_structures po_struct inv_struct t s in
  let second_run := Store.compare_structures po_struct inv_struct t s' in
  Store.report_at (snd first_run) (fst first_run)
  = compare_structures po_struct inv_struct t
  /\ Store.report_at (snd second_run) (fst second_run)
     = Store.report_at (snd first_run) (fst first_run)
  /\ (forall a o, s !! a = Some o -> fst first_run !! a = Some o)
  /\ s !! fst (snd first_run) = None /\ s !! snd (snd first_run) = None.
Proof.
  assert (Hrun : forall s0 : Store.store,
            let run := Store.compare_structures po_struct inv_struct t s0 in
            Store.report_at (snd run) (fst run)
            = compare_structures po_struct inv_struct t
            /\ (forall a o, s0 !! a = Some o -> fst run !! a = Some o)
            /\ s0 !! fst (snd run) = None /\ s0 !! snd (snd run) = None).
  { intros s0.
    destruct (call_on_store po_struct inv_struct t s0)
      as (rows & hc & used & U & Hcall & Hr & Hh & Hu & Hrh & Hru & Hhu).
    simpl in Hcall. intros run. subst run. rewrite Hcall. simpl fst. simpl snd.
    split; [|split; [|split; assumption]].
    - unfold Store.report_at, Store.checks_at, Store.rows_at. simpl fst. simpl snd.
      rewrite lookup_insert_eq.
      rewrite lookup_insert_ne by (intros E; apply Hrh; exact E).
      rewrite lookup_insert_ne by (intros E; apply Hhu; symmetry; exact E).
      rewrite lookup_insert_eq.
      destruct (compare_structures po_struct inv_struct t). reflexivity.
    - intros a o Ha.
      rewrite !lookup_insert_ne; [exact Ha|congruence..]. }
  intros first_run second_run.
  destruct (Hrun s) as (H1 & Hframe & Hh & Hr).
  destruct (Hrun s') as (H2 & _).
  fold first_run in H1, Hframe, Hh, Hr. fold second_run in H2.
  split; [exact H1|]. split; [congruence|]. split; [exact Hframe|].
  split; assumption.
Qed.

(** Two runs in a row: the caller changes the list of rows the first run
    returned; the second run, started in the store so left, returns its own
    lists, at other addresses, with the same report, and leaves the
    caller's list as the caller made it. *)
Example two_runs_in_a_row :
  let run := Store.compare_structures Samples.po_doc Samples.inv_doc (7 # 10) in
  let first_run := run ∅ in
  let changed :=
    Store.append_row (snd (snd first_run))
      (unmatched_row Samples.rod_po) (fst first_run) in
  let second_run := run changed in
  Store.report_at (snd second_run) (fst second_run)
  = Store.report_at (snd first_run) (fst first_run)
  /\ snd second_run <> snd first_run
  /\ Store.rows_at (snd (snd first_run)) (fst second_run)
     = Store.rows_at (snd (snd first_run)) changed
  /\ length (Store.rows_at (snd (snd first_run)) changed) = 4
  /\ length (Store.rows_at (snd (snd second_run)) (fst second_run)) = 3.
Proof. vm_compute. repeat split. discriminate. Qed.

End StoreFacts.

(** ** C9: the extractor without a credential *)

Section NoCredential.

Import Extractor.

(** C9: when [GEMINI_KEY] is unset or empty, the call returns no record and
    the error "No API key configured.", and no prompt has been sent to the
    service, whatever the text, the document type and the service are. *)
Theorem no_key_no_request (parsed : Type)
    (prompt_for : string -> string -> string)
    (generate_content : string -> string + exn)
    (json_loads : string -> option parsed + exn)
    (GEMINI_KEY : option string) (text doc_type : string) :
  GEMINI_KEY = None \/ GEMINI_KEY = Some "" ->
  call_gemini_for_structure parsed prompt_for generate_content json_loads
    GEMINI_KEY text doc_type
  = (Return None (Some "No API key configured."), []).
Proof.
  intros [->| ->]; reflexivity.
Qed.

Lemma no_key_no_request_witness :
  (@None string = None \/ @None string = Some "")
  /\ call_gemini_for_structure unit (fun doc_type text => doc_type +:+ text)
       (fun prompt => inl "{}") (fun json_text => inl (Some tt))
       None "PO-12345 ACME Ltd" "Purchase Order"
     = (Return None (Some "No API key configured."), []).
Proof.
  split; [left; reflexivity|].
  apply (no_key_no_request unit). left. reflexivity.
Defined.

(** With a key, the same call sends its prompt. *)
Lemma with_key_one_request :
  snd (call_gemini_for_structure unit (fun doc_type text => doc_type +:+ text)
         (fun prompt => inl "{}") (fun json_text => inl (Some tt))
         (Some "key") "PO-12345" "Invoice")
  = ["InvoicePO-12345"].
Proof. reflexivity. Qed.

End NoCredential.

(** * More of the module *)

(** ** [str.strip] and [str.lower] *)

Section StringFacts.

Lemma chars_of_chars (l : list ascii) : PyStr.chars (PyStr.of_chars l) = l.
Proof. apply list_ascii_of_string_of_list_ascii. Qed.

Lemma of_chars_chars (s : string) : PyStr.of_chars (PyStr.chars s) = s.
Proof. apply string_of_list_ascii_of_string. Qed.

Lemma lstrip_head l c l' :
  PyStr.lstrip_chars l = c :: l' -> PyStr.is_space c = false.
Proof.
  induction l as [|x l IH]; simpl; [discriminate|].
  destruct (PyStr.is_space x) eqn:Hx; [exact IH|].
  intros [= <- _]. exact Hx.
Qed.

Lemma lstrip_fixed l :
  (forall c l', l = c :: l' -> PyStr.is_space c = false) ->
  PyStr.lstrip_chars l = l.
Proof.
  destruct l as [|x l]; [reflexivity|]. intros H. simpl.
  rewrite (H x l eq_refl). reflexivity.
Qed.

Lemma lstrip_idem l :
  PyStr.lstrip_chars (PyStr.lstrip_chars l) = PyStr.lstrip_chars l.
Proof.
  apply lstrip_fixed. intros c l' H. exact (lstrip_head _ _ _ H).
Qed.

Lemma lstrip_snoc m c :
  PyStr.is_space c = false ->
  PyStr.lstrip_chars (m ++ [c]) = PyStr.lstrip_chars m ++ [c].
Proof.
  intros Hc. induction m as [|x m IH]; simpl.
  - rewrite Hc. reflexivity.
  - destruct (PyStr.is_space x); [exact IH|reflexivity].
Qed.

Lemma rstrip_cons c l :
  PyStr.is_space c = false ->
  PyStr.rstrip_chars (c :: l) = c :: PyStr.rstrip_chars l.
Proof.
  intros Hc. unfold PyStr.rstrip_chars. simpl.
  rewrite (lstrip_snoc _ _ Hc), rev_unit. reflexivity.
Qed.

Lemma rstrip_last l l' c :
  PyStr.rstrip_chars l = l' ++ [c] -> PyStr.is_space c = false.
Proof.
  unfold PyStr.rstrip_chars. intros H.
  apply (f_equal (@rev ascii)) in H.
  rewrite rev_involutive, rev_unit in H.
  exact (lstrip_head _ _ _ H).
Qed.

Lemma strip_chars_trimmed l :
  trimmed (PyStr.rstrip_chars (PyStr.lstrip_chars l)).
Proof.
  split.
  - destruct (PyStr.lstrip_chars l) as [|x m] eqn:Hm.
    + intros c l' H. discriminate H.
    + pose proof (lstrip_head _ _ _ Hm) as Hx.
      rewrite (rstrip_cons _ _ Hx). intros c l' [= <- _]. exact Hx.
  - intros c l' H. exact (rstrip_last _ _ _ H).
Qed.

Lemma trimmed_fixed l :
  trimmed l -> PyStr.rstrip_chars (PyStr.lstrip_chars l) = l.
Proof.
  intros [Hhead Hlast]. rewrite (lstrip_fixed _ Hhead).
  unfold PyStr.rstrip_chars. rewrite lstrip_fixed.
  - apply rev_involutive.
  - intros c l' H. apply (Hlast c (rev l')).
    apply (f_equal (@rev ascii)) in H. rewrite rev_involutive in H.
    rewrite H. reflexivity.
Qed.

Lemma strip_trimmed (s : string) : trimmed (PyStr.chars (PyStr.strip s)).
Proof.
  unfold PyStr.strip. rewrite chars_of_chars. apply strip_chars_trimmed.
Qed.

Lemma strip_idem (s : string) : PyStr.strip (PyStr.strip s) = PyStr.strip s.
Proof.
  unfold PyStr.strip at 1. rewrite (trimmed_fixed _ (strip_trimmed s)).
  apply of_chars_chars.
Qed.

Lemma lower_char_idem c :
  PyStr.lower_char (PyStr.lower_char c) = PyStr.lower_char c.
Proof. destruct c as [[] [] [] [] [] [] [] []]; reflexivity. Qed.

Lemma is_space_lower c :
  PyStr.is_space (PyStr.lower_char c) = PyStr.is_space c.
Proof. destruct c as [[] [] [] [] [] [] [] []]; reflexivity. Qed.

Lemma lower_idem (s : string) : PyStr.lower (PyStr.lower s) = PyStr.lower s.
Proof.
  unfold PyStr.lower. rewrite chars_of_chars, map_map. f_equal.
  apply map_ext. intros c. apply lower_char_idem.
Qed.

Lemma lstrip_map_lower l :
  PyStr.lstrip_chars (map PyStr.lower_char l)
  = map PyStr.lower_char (PyStr.lstrip_chars l).
Proof.
  induction l as [|x l IH]; simpl; [reflexivity|].
  rewrite is_space_lower. destruct (PyStr.is_space x); [exact IH|reflexivity].
Qed.

Lemma strip_lower (s : string) :
  PyStr.strip (PyStr.lower s) = PyStr.lower (PyStr.strip s).
Proof.
  unfold PyStr.strip, PyStr.lower, PyStr.rstrip_chars.
  rewrite !chars_of_chars. f_equal.
  rewrite lstrip_map_lower, <- map_rev, lstrip_map_lower, map_rev.
  reflexivity.
Qed.

Lemma prefix_length n (s : string) :
  length (PyStr.chars (PyStr.prefix n s)) = Nat.min n (length (PyStr.chars s)).
Proof.
  unfold PyStr.prefix. rewrite chars_of_chars. apply length_take.
Qed.

Lemma prefix_all n (s : string) :
  length (PyStr.chars s) <= n -> PyStr.prefix n s = s.
Proof.
  intros H. unfold PyStr.prefix. rewrite take_ge by exact H.
  apply of_chars_chars.
Qed.

End StringFacts.

(** ** The matcher on strings without a common character *)

Section DisjointStrings.

Import Difflib.

Variables a b : list ascii.

Hypothesis Hdisjoint : forall c, c ∈ a -> c ∉ b.

Lemma indices_from_absent c (l : list ascii) : forall j,
  c ∉ l -> indices_from c l j = [].
Proof.
  induction l as [|x l IH]; intros j Hc; simpl; [reflexivity|].
  apply not_elem_of_cons in Hc as [Hne Hc].
  destruct (Ascii.eqb_spec x c) as [->|_]; [contradiction|].
  apply IH. exact Hc.
Qed.

Lemma b2j_get_absent c : c ∉ b -> b2j_get b c = [].
Proof.
  intros Hc. unfold b2j_get. rewrite (indices_from_absent c b 0 Hc).
  destruct (_ && _); reflexivity.
Qed.

Lemma scan_i_disjoint blo bhi st i :
  snd (scan_i a b blo bhi st i) = snd st.
Proof.
  destruct st as [j2len bst]. unfold scan_i.
  destruct (a !! i) as [ai|] eqn:Hi; [|reflexivity].
  rewrite b2j_get_absent; [reflexivity|].
  apply Hdisjoint. apply list_elem_of_lookup. exists i. exact Hi.
Qed.

Lemma scan_rows_disjoint blo bhi l : forall st,
  snd (fold_left (scan_i a b blo bhi) l st) = snd st.
Proof.
  induction l as [|i l IH]; intros st; simpl; [reflexivity|].
  rewrite IH. apply scan_i_disjoint.
Qed.

Lemma same_at_disjoint i j : same_at a b i j = false.
Proof.
  unfold same_at. destruct (a !! i) as [x|] eqn:Hi; [|reflexivity].
  destruct (b !! j) as [y|] eqn:Hj; [|reflexivity].
  destruct (Ascii.eqb_spec x y) as [->|_]; [|reflexivity].
  exfalso. apply (Hdisjoint y).
  - apply list_elem_of_lookup. exists i. exact Hi.
  - apply list_elem_of_lookup. exists j. exact Hj.
Qed.

Lemma extend_disjoint side alo ahi blo bhi m :
  extend a b side alo ahi blo bhi m = m.
Proof.
  unfold extend. destruct m as [bi bj bs]. simpl.
  assert (Hl : extend_left a b side alo blo bi bj bs = Best bi bj bs).
  { destruct bi as [|bi]; [reflexivity|]. destruct bj as [|bj];
      [reflexivity|].
    simpl. rewrite same_at_disjoint, andb_false_r. reflexivity. }
  rewrite Hl. simpl. destruct (ahi - (bi + bs)); [reflexivity|].
  simpl. rewrite same_at_disjoint, andb_false_r. reflexivity.
Qed.

Lemma find_longest_match_disjoint alo ahi blo bhi :
  find_longest_match a b alo ahi blo bhi = Best alo blo 0.
Proof.
  unfold find_longest_match.
  rewrite scan_rows_disjoint, !extend_disjoint. reflexivity.
Qed.

Lemma matches_disjoint : matches a b = 0.
Proof.
  unfold matches, get_matching_blocks.
  replace (2 * length a + 1) with (S (2 * length a)) by lia.
  simpl. rewrite find_longest_match_disjoint. simpl.
  destruct (length a + (length a + 0)); reflexivity.
Qed.

End DisjointStrings.

Lemma ratio_zero (x y : string) :
  no_common_char x y ->
  length (PyStr.chars x) + length (PyStr.chars y) <> 0 ->
  Difflib.ratio x y = 0%Q.
Proof.
  intros Hno Hlen. unfold Difflib.ratio, Difflib._calculate_ratio.
  rewrite (matches_disjoint _ _ Hno).
  destruct (_ =? 0) eqn:Hz; [apply Nat.eqb_eq in Hz; contradiction|].
  apply (Qred_complete (0 # _) 0). reflexivity.
Qed.

(** ** The matcher on a string and itself *)

Section SameString.

Import Difflib.

Variable s : list ascii.

Lemma indices_from_spec c (l : list ascii) : forall s0 j,
  j ∈ indices_from c l s0 <-> exists n, j = s0 + n /\ l !! n = Some c.
Proof.
  induction l as [|x l IH]; intros s0 j; simpl.
  - split; [intros H; apply elem_of_nil in H; contradiction|].
    intros (n & _ & H). discriminate.
  - destruct (Ascii.eqb_spec x c) as [->|Hne].
    + rewrite elem_of_cons, IH. split.
      * intros [->|(n & -> & Hn)].
        -- exists 0. split; [lia|reflexivity].
        -- exists (S n). split; [lia|exact Hn].
      * intros ([|n] & -> & Hn).
        -- left. lia.
        -- right. exists n. split; [lia|exact Hn].
    + rewrite IH. split.
      * intros (n & -> & Hn). exists (S n). split; [lia|exact Hn].
      * intros ([|n] & -> & Hn).
        -- simpl in Hn. congruence.
        -- exists n. split; [lia|exact Hn].
Qed.

Lemma indices_from_sorted c (l : list ascii) : forall s0,
  StronglySorted lt (indices_from c l s0).
Proof.
  induction l as [|x l IH]; intros s0; simpl; [constructor|].
  destruct (Ascii.eqb x c); [|apply IH].
  constructor; [apply IH|].
  apply Forall_forall. intros j Hj.
  apply indices_from_spec in Hj as (n & -> & _). lia.
Qed.

Lemma b2j_get_live i c :
  s !! i = Some c -> live s i = true -> b2j_get s c = indices_from c s 0.
Proof.
  unfold live. intros ->. unfold b2j_get.
  destruct (_ && _); [discriminate|reflexivity].
Qed.

Lemma b2j_get_dead i c :
  s !! i = Some c -> live s i = false -> b2j_get s c = [].
Proof.
  unfold live. intros ->. destruct (b2j_get s c); [reflexivity|discriminate].
Qed.

Lemma live_run_dead i : live s i = false -> live_run s i = 0.
Proof. intros H. destruct i; simpl; rewrite H; reflexivity. Qed.

Lemma live_run_pos i : live s i = true -> 1 <= live_run s i.
Proof. intros H. destruct i; simpl; rewrite H; lia. Qed.

Lemma live_run_S i :
  live s (S i) = true -> live_run s (S i) = S (live_run s i).
Proof. intros H. simpl. rewrite H. reflexivity. Qed.

Lemma same_at_diag i : i < length s -> same_at s s i i = true.
Proof.
  intros Hi. unfold same_at.
  destruct (lookup_lt_is_Some_2 s i Hi) as [x ->]. apply Ascii.eqb_refl.
Qed.

Lemma scan_js_same i c j2len :
  s !! i = Some c -> live s i = true ->
  (forall j k, j2len !! j = Some k ->
     exists i', i = S i' /\ k <= live_run s i' /\ k <= live_run s j) ->
  (forall i', i = S i' -> live s i' = true ->
     j2len !! i' = Some (live_run s i')) ->
  forall js st,
    StronglySorted lt js ->
    (forall j, j ∈ js -> s !! j = Some c) ->
    js_inv s i js st ->
    js_inv s i [] (scan_js 0 (length s) i j2len js st).
Proof.
  intros Hi Hlive Hold Hprev.
  induction js as [|j js IH]; intros st Hsorted Hjs Hinv; [exact Hinv|].
  apply StronglySorted_inv in Hsorted as [Hsorted Hgt].
  assert (Hj : s !! j = Some c) by (apply Hjs; left).
  assert (Hjn : j < length s) by (eapply lookup_lt_Some; exact Hj).
  assert (Hjlive : live s j = true).
  { unfold live. rewrite Hj. unfold live in Hlive. rewrite Hi in Hlive.
    exact Hlive. }
  simpl.
  destruct (length s <=? j) eqn:Hge; [apply Nat.leb_le in Hge; lia|].
  destruct st as [newj2len bst].
  set (k0 := match j with O => 0 | S j' => default 0 (j2len !! j') end).
  assert (Hk0cases :
            (j = 0 /\ k0 = 0)
            \/ (exists j', j = S j' /\ j2len !! j' = None /\ k0 = 0)
            \/ exists j' k, j = S j' /\ j2len !! j' = Some k /\ k0 = k).
  { subst k0. destruct j as [|j']; [left; split; reflexivity|].
    destruct (j2len !! j') as [k|] eqn:Hk.
    - right. right. exists j', k. auto.
    - right. left. exists j'. auto. }
  clearbody k0.
  assert (Hk0 : k0 + 1 <= live_run s i /\ k0 + 1 <= live_run s j).
  { pose proof (live_run_pos i Hlive). pose proof (live_run_pos j Hjlive).
    destruct Hk0cases as [[_ ->]|[(j' & _ & _ & ->)|(j' & k & -> & Hk & ->)]];
      [lia|lia|].
    destruct (Hold _ _ Hk) as (i' & -> & H1 & H2).
    rewrite (live_run_S _ Hlive), (live_run_S _ Hjlive). lia. }
  assert (Hdiag : j = i -> k0 + 1 = live_run s i).
  { intros ->.
    destruct Hk0cases as [[-> ->]|[(i' & -> & Hk & ->)|(i' & k & -> & Hk & ->)]].
    - simpl. rewrite Hlive. reflexivity.
    - rewrite (live_run_S _ Hlive).
      destruct (live s i') eqn:Hl'.
      + rewrite (Hprev i' eq_refl Hl') in Hk. discriminate.
      + rewrite (live_run_dead _ Hl'). reflexivity.
    - rewrite (live_run_S _ Hlive).
      destruct (Hold _ _ Hk) as (i'' & [= <-] & H1 & _).
      destruct (live s i') eqn:Hl'.
      + rewrite (Hprev i' eq_refl Hl') in Hk. injection Hk as <-. lia.
      + rewrite (live_run_dead _ Hl') in H1 |- *. lia. }
  destruct Hinv as (Hd & Hent & Hbest & Hmid). simpl in Hd, Hent, Hbest, Hmid.
  apply IH; [exact Hsorted|intros j' Hj'; apply Hjs; right; exact Hj'|].
  assert (Hent' : forall j1 k1, <[j:=k0 + 1]> newj2len !! j1 = Some k1 ->
            k1 <= live_run s i /\ k1 <= live_run s j1).
  { intros j1 k1. destruct (decide (j = j1)) as [<-|Hne].
    - rewrite lookup_insert_eq. intros [= <-]. exact Hk0.
    - rewrite lookup_insert_ne by exact Hne. apply Hent. }
  destruct (Nat.lt_trichotomy j i) as [Hlt|[->|Hgt']].
  - (* below the diagonal: the run at [j] was met in an earlier round *)
    assert (Hno : (bestsize bst <? k0 + 1) = false).
    { apply Nat.ltb_ge. specialize (Hbest j Hlt). lia. }
    rewrite Hno. split; [exact Hd|]. split; [exact Hent'|].
    split; [exact Hbest|]. simpl.
    destruct Hmid as [Hin|[H1 H2]].
    + left. apply elem_of_cons in Hin as [->|Hin]; [lia|exact Hin].
    + right. split; [exact H1|]. rewrite lookup_insert_ne by lia. exact H2.
  - (* on the diagonal *)
    rewrite (Hdiag eq_refl) in *.
    split; [|split; [exact Hent'|split]].
    + destruct (bestsize bst <? live_run s i); [reflexivity|exact Hd].
    + intros i' Hi'. specialize (Hbest i' Hi').
      destruct (bestsize bst <? live_run s i) eqn:Hc; simpl; [|exact Hbest].
      apply Nat.ltb_lt in Hc. lia.
    + right. simpl. split; [|apply lookup_insert_eq].
      destruct (bestsize bst <? live_run s i) eqn:Hc; simpl.
      * lia.
      * apply Nat.ltb_ge in Hc. exact Hc.
  - (* above the diagonal: the diagonal of this round came first *)
    assert (Hpast : live_run s i <= bestsize bst
                    /\ newj2len !! i = Some (live_run s i)).
    { destruct Hmid as [Hin|H]; [|exact H].
      apply elem_of_cons in Hin as [->|Hin]; [lia|].
      rewrite Forall_forall in Hgt. specialize (Hgt i Hin). lia. }
    assert (Hno : (bestsize bst <? k0 + 1) = false).
    { apply Nat.ltb_ge. lia. }
    rewrite Hno. split; [exact Hd|]. split; [exact Hent'|].
    split; [exact Hbest|]. right. simpl.
    split; [apply Hpast|]. rewrite lookup_insert_ne by lia. apply Hpast.
Qed.

Lemma scan_i_same i st :
  i < length s -> row_inv s i st ->
  row_inv s (S i) (scan_i s s 0 (length s) st i).
Proof.
  intros Hi (Hd & Hent & Hprev & Hbest). destruct st as [j2len bst].
  simpl in Hd, Hent, Hprev, Hbest. unfold scan_i.
  destruct (lookup_lt_is_Some_2 s i Hi) as [c Hc]. rewrite Hc.
  destruct (live s i) eqn:Hlive.
  - rewrite (b2j_get_live i c Hc Hlive).
    destruct (scan_js_same i c j2len Hc Hlive Hent Hprev
                (indices_from c s 0) (∅, bst))
      as (Hd' & Hent' & Hbest' & Hmid).
    + apply indices_from_sorted.
    + intros j Hj. apply indices_from_spec in Hj as (n & -> & Hn). exact Hn.
    + split; [exact Hd|]. split; [|split; [exact Hbest|]].
      * intros j k Hjk. simpl in Hjk. rewrite lookup_empty in Hjk.
        discriminate.
      * left. apply indices_from_spec. exists i. split; [lia|exact Hc].
    + destruct Hmid as [Hin|[H1 H2]];
        [apply elem_of_nil in Hin; contradiction|].
      split; [exact Hd'|]. split; [|split].
      * intros j k Hjk. exists i. split; [reflexivity|]. apply Hent'.
        exact Hjk.
      * intros i' [= <-] _. exact H2.
      * intros i' Hi'. destruct (decide (i' = i)) as [->|Hne];
          [exact H1|apply Hbest'; lia].
  - rewrite (b2j_get_dead i c Hc Hlive). simpl.
    split; [exact Hd|]. split; [|split].
    + intros j k Hjk. simpl in Hjk. rewrite lookup_empty in Hjk. discriminate.
    + intros i' [= <-] Hl. congruence.
    + intros i' Hi'. destruct (decide (i' = i)) as [->|Hne].
      * rewrite (live_run_dead _ Hlive). lia.
      * apply Hbest. lia.
Qed.

Lemma scan_rows_same n : forall i st,
  i + n <= length s -> row_inv s i st ->
  row_inv s (i + n) (fold_left (scan_i s s 0 (length s)) (seq i n) st).
Proof.
  induction n as [|n IH]; intros i st Hn Hinv; simpl.
  - rewrite Nat.add_0_r. exact Hinv.
  - replace (i + S n) with (S i + n) by lia.
    apply IH; [lia|]. apply scan_i_same; [lia|exact Hinv].
Qed.

Lemma extend_left_diag (side : nat -> bool) :
  (forall j, side j = true) ->
  forall bi bs, bi <= length s ->
    extend_left s s side 0 0 bi bi bs = Best 0 0 (bi + bs).
Proof.
  intros Hside. induction bi as [|bi IH]; intros bs Hbi; [reflexivity|].
  simpl. rewrite Hside, same_at_diag by lia. simpl.
  rewrite IH by lia. f_equal. lia.
Qed.

Lemma extend_right_diag (side : nat -> bool) :
  (forall j, side j = true) ->
  forall rounds bs, bs + rounds = length s ->
    extend_right s s side (length s) (length s) rounds 0 0 bs
    = Best 0 0 (length s).
Proof.
  intros Hside. induction rounds as [|rounds IH]; intros bs Hbs; simpl.
  - f_equal. lia.
  - assert (Hlt : (bs <? length s) = true) by (apply Nat.ltb_lt; lia).
    rewrite Hlt, Hside, same_at_diag by lia. simpl. apply IH. lia.
Qed.

Lemma find_longest_match_same :
  find_longest_match s s 0 (length s) 0 (length s) = Best 0 0 (length s).
Proof.
  unfold find_longest_match. rewrite Nat.sub_0_r.
  pose proof (scan_rows_same (length s) 0 (∅, Best 0 0 0)) as Hrows.
  pose proof (scan_rows_inside s s 0 (length s) 0 (length s) (length s)
                0 (∅, Best 0 0 0)) as Hin.
  simpl in Hrows, Hin.
  destruct (fold_left (scan_i s s 0 (length s)) (seq 0 (length s))
              (∅, Best 0 0 0)) as [j2len [bi bj bs]].
  destruct Hrows as [Hd _].
  { lia. }
  { split; [reflexivity|]. split; [|split].
    - intros j k Hjk. simpl in Hjk. rewrite lookup_empty in Hjk. discriminate.
    - intros i' H. discriminate.
    - intros i' H. lia. }
  destruct Hin as (_ & Hbi & _ & _); try lia.
  { intros j k Hjk. simpl in Hjk. rewrite lookup_empty in Hjk. discriminate. }
  { unfold inside; simpl. lia. }
  simpl in Hd, Hbi. subst bj. simpl.
  assert (Hfirst : extend s s (fun j => negb (junk_at s j)) 0 (length s)
                     0 (length s) (Best bi bi bs) = Best 0 0 (length s)).
  { assert (Hside : forall j, negb (junk_at s j) = true).
    { intros j. unfold junk_at, isbjunk. destruct (s !! j); reflexivity. }
    unfold extend. simpl.
    rewrite (extend_left_diag _ Hside) by lia. simpl.
    apply (extend_right_diag _ Hside). lia. }
  rewrite Hfirst. unfold extend. simpl.
  rewrite Nat.sub_diag. reflexivity.
Qed.

Lemma matches_same : matches s s = length s.
Proof.
  unfold matches, get_matching_blocks.
  replace (2 * length s + 1) with (S (2 * length s)) by lia.
  simpl. rewrite find_longest_match_same. simpl.
  rewrite Nat.ltb_irrefl. simpl.
  destruct (0 <? length s) eqn:Hpos.
  - destruct (length s + (length s + 0)); simpl; rewrite Hpos; simpl; lia.
  - apply Nat.ltb_ge in Hpos.
    destruct (length s + (length s + 0)); simpl; lia.
Qed.

End SameString.

Lemma ratio_same (x : string) : Difflib.ratio x x = 1%Q.
Proof.
  unfold Difflib.ratio, Difflib._calculate_ratio. rewrite matches_same.
  destruct (_ =? 0) eqn:Hz; [reflexivity|].
  apply Nat.eqb_neq in Hz.
  apply (Qred_complete (_ # _) 1). unfold Qeq. cbn [Qnum Qden].
  set (n := length (PyStr.chars x)) in *.
  assert (Z.pos (Pos.of_nat (n + n)) = Z.of_nat (n + n)) as ->.
  { destruct (n + n) eqn:E; [lia|]. rewrite <- E. lia. }
  lia.
Qed.

(** ** What [similar] makes of case, white space, equal and unrelated
    descriptions (app.py:88-89) *)

Section SimilarFacts.

Import Comparator.

Lemma normal_lower (a : string) :
  PyStr.strip (PyStr.lower (PyStr.lower a)) = PyStr.strip (PyStr.lower a).
Proof. rewrite lower_idem. reflexivity. Qed.

Lemma normal_strip (a : string) :
  PyStr.strip (PyStr.lower (PyStr.strip a)) = PyStr.strip (PyStr.lower a).
Proof. rewrite <- strip_lower, strip_idem. reflexivity. Qed.

(** The score does not see the case of either description, nor the white
    space around it. *)
Theorem similar_ignores_case_and_padding (a b : string) :
  similar (PyStr.lower a) b = similar a b
  /\ similar (PyStr.strip a) b = similar a b
  /\ similar a (PyStr.lower b) = similar a b
  /\ similar a (PyStr.strip b) = similar a b.
Proof.
  unfold similar. rewrite !normal_lower, !normal_strip. repeat split.
Qed.

(** Two descriptions that are equal once lower-cased and stripped score
    exactly 1, whatever their length and characters. *)
Theorem similar_identical (a b : string) :
  PyStr.strip (PyStr.lower a) = PyStr.strip (PyStr.lower b) ->
  similar a b = 1%Q.
Proof. intros H. unfold similar. rewrite H. apply ratio_same. Qed.

Lemma similar_identical_witness : similar "Bolt 10mm" "  BOLT 10MM " = 1%Q.
Proof. apply (similar_identical "Bolt 10mm" "  BOLT 10MM "). reflexivity. Defined.

Lemma chars_nonempty (x : string) : x <> "" -> length (PyStr.chars x) <> 0.
Proof. destruct x; [congruence|]. intros _. simpl. lia. Qed.

(** Two descriptions that, lower-cased and stripped, have no character in
    common and are not both empty score exactly 0. *)
Theorem similar_unrelated (a b : string) :
  no_common_char (PyStr.strip (PyStr.lower a)) (PyStr.strip (PyStr.lower b)) ->
  PyStr.strip (PyStr.lower a) <> "" \/ PyStr.strip (PyStr.lower b) <> "" ->
  similar a b = 0%Q.
Proof.
  intros Hno Hne. unfold similar. apply ratio_zero; [exact Hno|].
  destruct Hne as [H|H]; apply chars_nonempty in H; lia.
Qed.

Lemma similar_unrelated_witness : similar "Washer" "Bolt" = 0%Q.
Proof.
  apply (similar_unrelated "Washer" "Bolt").
  - intros c Hc Hb. vm_compute in Hc, Hb.
    repeat (apply elem_of_cons in Hb as [Hb|Hb];
            [subst c; repeat (apply elem_of_cons in Hc as [Hc|Hc];
                              [discriminate|]);
             apply elem_of_nil in Hc; contradiction|]).
    apply elem_of_nil in Hb. contradiction.
  - left. discriminate.
Defined.

(** An item without a description, or with a blank one, scores 1 against
    another such item and 0 against every item that has a description. *)
Theorem blank_description_score (po_it inv_it : LineItem) :
  normalized po_it = "" ->
  (normalized inv_it = "" -> score po_it inv_it = 1%Q)
  /\ (normalized inv_it <> "" ->
      score po_it inv_it = 0%Q /\ score inv_it po_it = 0%Q).
Proof.
  unfold normalized, score, similar. intros Hpo. rewrite Hpo. split.
  - intros ->. apply ratio_same.
  - intros Hinv. split.
    + apply ratio_zero.
      * intros c Hc. apply elem_of_nil in Hc. contradiction.
      * apply chars_nonempty in Hinv. simpl. lia.
    + apply ratio_zero.
      * intros c _ Hc. apply elem_of_nil in Hc. contradiction.
      * apply chars_nonempty in Hinv. simpl. lia.
Qed.

Lemma blank_description_score_witness :
  score {| description := None; qty := Some (VInt 1);
           unit_price := None; total := None |}
        (Samples.bare "   ")
  = 1%Q.
Proof.
  apply (blank_description_score
           {| description := None; qty := Some (VInt 1);
              unit_price := None; total := None |}
           (Samples.bare "   "));
    reflexivity.
Defined.

End SimilarFacts.

(** ** Consequences for a run of the comparator *)

Section RunConsequences.

Import Comparator.

Lemma best_score_bounds po_it inv_items inv_used :
  (0 <= best_score (scan po_it inv_items inv_used))%Q
  /\ (best_score (scan po_it inv_items inv_used) <= 1)%Q.
Proof.
  destruct (scan_result inv_items po_it inv_used)
    as [(Hs & _)|(i & it' & _ & _ & _ & Hs & _)]; rewrite Hs.
  - split; discriminate.
  - apply similar_bounds.
Qed.

(** A PO item whose description, lower-cased and stripped, equals that of
    an invoice item still unclaimed is matched at every threshold up to 1,
    with an invoice item that scores 1. *)
Theorem exact_description_is_matched po_struct inv_struct (t : Q)
    k po_it idx0 inv_it0 :
  (t <= 1)%Q ->
  items_of po_struct !! k = Some po_it ->
  unclaimed (items_of inv_struct)
    (used_after t (items_of po_struct) (items_of inv_struct) k)
    idx0 inv_it0 ->
  normalized po_it = normalized inv_it0 ->
  exists idx inv_it,
    assignment t (items_of po_struct) (items_of inv_struct) !! k
    = Some (Some idx)
    /\ items_of inv_struct !! idx = Some inv_it
    /\ (score po_it inv_it == 1)%Q.
Proof.
  intros Ht Hk Hun Hsame.
  set (po_items := items_of po_struct) in *.
  set (inv_items := items_of inv_struct) in *.
  set (inv_used := used_after t po_items inv_items k) in *.
  assert (Hone : score po_it inv_it0 = 1%Q).
  { unfold score, similar. unfold normalized in Hsame. rewrite Hsame.
    apply ratio_same. }
  assert (Hbest : (1 <= best_score (scan po_it inv_items inv_used))%Q).
  { rewrite <- Hone.
    destruct (scan_best_score po_it inv_items inv_used) as [Hmax _].
    apply (Hmax idx0). exact Hun. }
  destruct (proj2 (claim_is_Some t po_it inv_items inv_used)) as [idx Hc].
  { split.
    - eapply Qle_trans; [exact Ht|exact Hbest].
    - eapply Qlt_le_trans; [|exact Hbest]. reflexivity. }
  destruct (claim_of_unclaimed _ _ _ _ _ Hc)
    as (inv_it & [[Hl _] _] & _ & _ & Hs).
  exists idx, inv_it. split; [|split; [exact Hl|]].
  - rewrite (assignment_lookup _ _ _ _ _ Hk). fold inv_used. rewrite Hc.
    reflexivity.
  - apply Qle_antisym.
    + apply similar_bounds.
    + rewrite <- Hs. exact Hbest.
Qed.

Lemma exact_description_is_matched_witness :
  exists idx inv_it,
    assignment (95 # 100) [Samples.bare "Steel Rod"; Samples.bare "Bolt 12mm"]
      Samples.bolts_inv !! 1
    = Some (Some idx)
    /\ Samples.bolts_inv !! idx = Some inv_it
    /\ (score (Samples.bare "Bolt 12mm") inv_it == 1)%Q.
Proof.
  apply (exact_description_is_matched
           (Samples.record "PO-1" VNone
              [Samples.bare "Steel Rod"; Samples.bare "Bolt 12mm"])
           (Samples.record "INV-1" VNone Samples.bolts_inv)
           (95 # 100) 1 (Samples.bare "Bolt 12mm") 0
           (Samples.bare "Bolt 12mm")).
  - discriminate.
  - reflexivity.
  - split; [reflexivity|]. vm_compute. intros H. discriminate H.
  - reflexivity.
Defined.

(** With a threshold above 0, a report never leaves a PO item unmatched
    beside an unmatched invoice item that scores the threshold or more
    against it. *)
Theorem no_missed_pair po_struct inv_struct (t : Q) k po_it idx inv_it :
  (0 < t)%Q ->
  items_of po_struct !! k = Some po_it ->
  assignment t (items_of po_struct) (items_of inv_struct) !! k = Some None ->
  (idx, inv_it)
    ∈ never_claimed_entries t (items_of po_struct) (items_of inv_struct) ->
  (score po_it inv_it < t)%Q.
Proof.
  intros Hpos Hk Ha Hnever.
  set (po_items := items_of po_struct) in *.
  set (inv_items := items_of inv_struct) in *.
  apply never_claimed_spec in Hnever as [Hl Hno].
  assert (Hun : unclaimed inv_items (used_after t po_items inv_items k)
                  idx inv_it).
  { split; [exact Hl|]. intros Hin.
    apply used_after_claims in Hin as (j & _ & Hj).
    - exact (Hno j Hj).
    - apply lookup_lt_Some in Hk. lia. }
  rewrite (assignment_lookup _ _ _ _ _ Hk) in Ha. injection Ha as Hc.
  unfold claim_of in Hc.
  destruct (scan_result inv_items po_it (used_after t po_items inv_items k))
    as [(_ & _ & _ & Hzero)|(i & it' & Hfb & Hi & _ & Hs & _)].
  - eapply Qle_lt_trans; [apply (Hzero idx); exact Hun|exact Hpos].
  - rewrite Hi, Hs in Hc.
    destruct (Qle_bool t (score po_it it')) eqn:Hle; [discriminate|].
    eapply Qle_lt_trans.
    + destruct Hfb as (_ & Hmax & _). apply (Hmax idx). exact Hun.
    + apply Qnot_le_lt. intros H. apply Qle_bool_iff in H. congruence.
Qed.

Lemma no_missed_pair_witness :
  (score Samples.rod_po Samples.fee_inv < 7 # 10)%Q.
Proof.
  apply (no_missed_pair Samples.po_doc Samples.inv_doc (7 # 10)
           1 Samples.rod_po 0 Samples.fee_inv).
  - reflexivity.
  - reflexivity.
  - vm_compute. reflexivity.
  - apply never_claimed_spec. split; [reflexivity|].
    intros [|[|j]] Hj; vm_compute in Hj; discriminate.
Defined.

End RunConsequences.

(** ** The size and the shape of a report *)

Section ReportShape.

Import Comparator.

Lemma filter_is_Some_omap {A} (l : list (option A)) :
  length (filter (fun c : option A => is_Some c) l) = length (omap id l).
Proof.
  induction l as [|c l IH]; [reflexivity|].
  rewrite filter_cons. destruct c as [x|].
  - destruct (decide (is_Some (Some x))) as [_|Hn].
    + simpl. rewrite IH. reflexivity.
    + exfalso. apply Hn. eexists. reflexivity.
  - destruct (decide (is_Some (@None A))) as [[x Hx]|_]; [discriminate|].
    simpl. exact IH.
Qed.

Lemma NoDup_omap_id {A} (l : list (option A)) :
  (forall i j x, l !! i = Some (Some x) -> l !! j = Some (Some x) -> i = j) ->
  NoDup (omap id l).
Proof.
  induction l as [|c l IH]; intros Huniq; simpl; [constructor|].
  assert (Htail : NoDup (omap id l)).
  { apply IH. intros i j x Hi Hj.
    specialize (Huniq (S i) (S j) x Hi Hj). lia. }
  destruct c as [x|]; simpl; [|exact Htail].
  constructor; [|exact Htail].
  intros Hin. apply list_elem_of_omap in Hin as (y & Hy & Hyx).
  simpl in Hyx. subst y. apply list_elem_of_lookup in Hy as [j Hj].
  specialize (Huniq 0 (S j) x eq_refl Hj). discriminate.
Qed.

Lemma never_claimed_count (t : Q) (po_items inv_items : list LineItem) :
  length (never_claimed_entries t po_items inv_items)
  + matched_count t po_items inv_items
  = length inv_items.
Proof.
  unfold matched_count. rewrite filter_is_Some_omap.
  rewrite <- (length_fmap fst), never_claimed_indices.
  set (A := assignment t po_items inv_items).
  pose proof (filter_app_complement (fun idx => Some idx ∉ A)
                (seq 0 (length inv_items))) as Hsplit.
  apply Permutation_length in Hsplit.
  rewrite length_app, length_seq in Hsplit.
  assert (Hperm : filter (fun idx => ~ (Some idx ∉ A))
                    (seq 0 (length inv_items)) ≡ₚ omap id A).
  { apply NoDup_Permutation.
    - apply NoDup_filter, NoDup_seq.
    - apply NoDup_omap_id. intros i j x. apply assignment_injective.
    - intros x. rewrite list_elem_of_filter, elem_of_seq, list_elem_of_omap.
      split.
      + intros [Hx _]. exists (Some x). split; [|reflexivity].
        destruct (decide (Some x ∈ A)); [assumption|contradiction].
      + intros (y & Hy & Hyx). simpl in Hyx. subst y. split; [auto|].
        apply list_elem_of_lookup in Hy as [k Hk].
        destruct (assignment_claim _ _ _ _ _ Hk)
          as (po_it & inv_it & _ & [[Hl _] _] & _).
        apply lookup_lt_Some in Hl. lia. }
  apply Permutation_length in Hperm. lia.
Qed.

(** A report has one row per PO item and one per invoice item, less one
    for every PO item that was matched; no more PO items are matched than
    there are PO items, or invoice items. *)
Theorem report_size po_struct inv_struct (t : Q) :
  let po_items := items_of po_struct in
  let inv_items := items_of inv_struct in
  length (item_rows po_struct inv_struct t)
  + matched_count t po_items inv_items
  = length po_items + length inv_items
  /\ matched_count t po_items inv_items <= length po_items
  /\ matched_count t po_items inv_items <= length inv_items.
Proof.
  intros po_items inv_items.
  pose proof (never_claimed_count t po_items inv_items) as Hcount.
  split; [|split].
  - rewrite item_rows_never_claimed. fold po_items inv_items.
    rewrite length_app, length_imap, !length_fmap. lia.
  - unfold matched_count.
    etransitivity; [apply length_filter|].
    rewrite assignment_length. reflexivity.
  - lia.
Qed.

Lemma round_half_even_between (x : Q) (a b : Z) :
  (inject_Z a <= x)%Q -> (x <= inject_Z b)%Q ->
  (a <= round_half_even x <= b)%Z.
Proof.
  destruct x as [n d]. unfold Qle, inject_Z, round_half_even.
  cbn [Qnum Qden].
  intros Ha Hb.
  assert (Hd : (0 < Z.pos d)%Z) by lia.
  pose proof (Z.div_mod n (Z.pos d) ltac:(lia)) as Hdm.
  pose proof (Z.mod_pos_bound n (Z.pos d) Hd) as Hm.
  assert (Hfa : (a <= n / Z.pos d)%Z)
    by (apply Z.div_le_lower_bound; lia).
  assert (Hfb : (n / Z.pos d <= b)%Z).
  { apply Z.lt_succ_r, Z.div_lt_upper_bound; [lia|].
    rewrite Z.mul_succ_r. lia. }
  assert (Hfull : (n / Z.pos d = b -> n mod Z.pos d = 0)%Z).
  { intros Heq. rewrite Heq in Hdm. lia. }
  set (fl := (n / Z.pos d)%Z) in *. set (r := (n mod Z.pos d)%Z) in *.
  destruct (2 * r <? Z.pos d)%Z eqn:E1; [lia|].
  apply Z.ltb_ge in E1.
  assert (fl < b)%Z by lia.
  destruct (Z.pos d <? 2 * r)%Z; [lia|].
  destruct (Z.even fl); lia.
Qed.

Lemma pow2_nonneg (k : Z) : (0 <= k)%Z -> pow2 k = inject_Z (2 ^ k).
Proof. intros H. unfold pow2. apply Z.leb_le in H. rewrite H. reflexivity. Qed.

Lemma pow2_pos (k : Z) : (0 < pow2 k)%Q.
Proof.
  unfold pow2. destruct (0 <=? k)%Z eqn:E.
  - apply Z.leb_le in E. unfold Qlt. simpl.
    pose proof (Z.pow_pos_nonneg 2 k ltac:(lia) E). lia.
  - unfold Qlt. simpl. lia.
Qed.

Lemma pow2_inverse (k : Z) : (0 <= k)%Z -> (inject_Z (2 ^ k) * pow2 (- k) == 1)%Q.
Proof.
  intros H. unfold pow2.
  pose proof (Z.pow_pos_nonneg 2 k ltac:(lia) H) as Hp.
  destruct (0 <=? - k)%Z eqn:E.
  - apply Z.leb_le in E. assert (k = 0)%Z by lia. subst. reflexivity.
  - rewrite Z.opp_involutive. unfold Qeq, inject_Z, Qmult.
    cbn [Qnum Qden]. rewrite Pos.mul_1_l, Z2Pos.id by lia. lia.
Qed.

Lemma floor_log2_le_0 (q : Q) : (0 < q)%Q -> (q <= 1)%Q -> (floor_log2 q <= 0)%Z.
Proof.
  destruct q as [n d]. unfold Qlt, Qle, floor_log2. cbn [Qnum Qden].
  intros H0 H1.
  assert (Z.log2 n <= Z.log2 (Z.pos d))%Z by (apply Z.log2_le_mono; lia).
  destruct (Qle_bool _ _); lia.
Qed.

Lemma fl64_pos_bounds (q : Q) :
  (0 < q)%Q -> (q <= 1)%Q -> (0 <= fl64_pos q)%Q /\ (fl64_pos q <= 1)%Q.
Proof.
  intros H0 H1. unfold fl64_pos.
  pose proof (floor_log2_le_0 q H0 H1) as Hf.
  set (p := (52 - floor_log2 q)%Z). assert (Hp : (0 <= p)%Z) by lia.
  clearbody p. clear Hf.
  rewrite (pow2_nonneg p Hp).
  pose proof (Z.pow_pos_nonneg 2 p ltac:(lia) Hp) as H2p.
  assert (Hlo : (inject_Z 0 <= q * inject_Z (2 ^ p))%Q).
  { change (inject_Z 0) with 0%Q. apply Qmult_le_0_compat.
    - apply Qlt_le_weak, H0.
    - unfold Qle, inject_Z. simpl. lia. }
  assert (Hhi : (q * inject_Z (2 ^ p) <= inject_Z (2 ^ p))%Q).
  { rewrite <- (Qmult_1_l (inject_Z (2 ^ p))) at 2.
    apply Qmult_le_compat_r; [exact H1|].
    unfold Qle, inject_Z. simpl. lia. }
  destruct (round_half_even_between _ _ _ Hlo Hhi) as [Hm0 Hm1].
  set (m := round_half_even (q * inject_Z (2 ^ p))) in *. clearbody m.
  pose proof (pow2_pos (- p)) as Hpp.
  split.
  - apply Qmult_le_0_compat; [unfold Qle; simpl; lia | apply Qlt_le_weak, Hpp].
  - rewrite <- (pow2_inverse p Hp).
    apply Qmult_le_compat_r; [| apply Qlt_le_weak, Hpp].
    unfold Qle, inject_Z. simpl. lia.
Qed.

Lemma fl64_bounds (q : Q) :
  (0 <= q)%Q -> (q <= 1)%Q -> (0 <= fl64 q)%Q /\ (fl64 q <= 1)%Q.
Proof.
  intros H0 H1. unfold fl64. destruct (Qnum q) eqn:E.
  - split; [apply Qle_refl | unfold Qle; simpl; lia].
  - rewrite Qred_correct. apply fl64_pos_bounds; [|exact H1].
    unfold Qlt. simpl. rewrite E. lia.
  - exfalso. unfold Qle in H0. simpl in H0. rewrite E in H0. lia.
Qed.

Lemma round2_bounds (q : Q) :
  (0 <= q)%Q -> (q <= 1)%Q -> (0 <= round2 q)%Q /\ (round2 q <= 1)%Q.
Proof.
  intros H0 H1. destruct (fl64_bounds q H0 H1) as [Hlo Hhi].
  assert (Ha : (inject_Z 0 <= fl64 q * 100)%Q).
  { change (inject_Z 0) with 0%Q. apply Qmult_le_0_compat; [exact Hlo|].
    unfold Qle; simpl; lia. }
  assert (Hb : (fl64 q * 100 <= inject_Z 100)%Q).
  { change (inject_Z 100) with (1 * 100)%Q.
    apply Qmult_le_compat_r; [exact Hhi|]. unfold Qle; simpl; lia. }
  destruct (round_half_even_between _ _ _ Ha Hb) as [Hm0 Hm1].
  unfold round2. rewrite Qred_correct. unfold Qle. simpl. lia.
Qed.

(** Every row of a report is an item row or an unmatched-invoice row, its
    status is "Match" or "Mismatch", and its score lies between 0 and 1;
    every header check is "Match" or "Mismatch". *)
Theorem report_well_formed po_struct inv_struct (t : Q) :
  (forall r, r ∈ item_rows po_struct inv_struct t ->
     (field r = "Item" \/ field r = "Item (Unmatched Invoice)")
     /\ (status r = "Match" \/ status r = "Mismatch")
     /\ (0 <= match_score r)%Q /\ (match_score r <= 1)%Q)
  /\ (forall label po_val inv_val st,
        (label, po_val, inv_val, st)
          ∈ fst (compare_structures po_struct inv_struct t) ->
        st = "Match" \/ st = "Mismatch").
Proof.
  split.
  - intros r Hr. rewrite item_rows_never_claimed in Hr.
    apply elem_of_app in Hr as [Hr|Hr].
    + apply elem_of_lookup_imap in Hr as (k & po_it & -> & _).
      unfold po_row_at. split; [left; reflexivity|]. split.
      * apply item_status_cases.
      * simpl. apply round2_bounds; apply best_score_bounds.
    + apply list_elem_of_fmap in Hr as (inv_it & -> & _).
      split; [right; reflexivity|]. split; [right; reflexivity|].
      simpl. split; discriminate.
  - intros label po_val inv_val st Hin.
    unfold compare_structures in Hin.
    destruct (fold_left _ _ _) as [u rows]. simpl in Hin.
    repeat (apply elem_of_cons in Hin as [Hin|Hin];
            [injection Hin as _ _ _ ->; apply header_status_cases|]).
    apply elem_of_nil in Hin. contradiction.
Qed.

Lemma claim_of_above (t : Q) inv_items inv_used po_it :
  (1 < t)%Q -> claim_of t inv_items inv_used po_it = None.
Proof.
  intros Ht. apply claim_of_below. intros idx inv_it _.
  eapply Qle_lt_trans; [apply similar_bounds|exact Ht].
Qed.

(** With a threshold above 1 nothing is matched: every PO item gets a row
    with an empty invoice side and its best score, and every invoice item
    follows as unmatched. *)
Theorem threshold_above_one po_struct inv_struct (t : Q) :
  (1 < t)%Q ->
  item_rows po_struct inv_struct t
  = map (fun po_it =>
           po_row po_it None
             (best_score (scan po_it (items_of inv_struct) ∅)))
      (items_of po_struct)
    ++ map unmatched_row (items_of inv_struct).
Proof.
  intros Ht. rewrite item_rows_never_claimed.
  set (po_items := items_of po_struct).
  set (inv_items := items_of inv_struct).
  assert (Hnone : forall idx, Some idx ∉ assignment t po_items inv_items).
  { intros idx Hin. apply list_elem_of_lookup in Hin as [k Hk].
    destruct (assignment_claim _ _ _ _ _ Hk) as (po_it & _ & Hpo & _).
    rewrite (assignment_lookup _ _ _ _ _ Hpo) in Hk.
    rewrite claim_of_above in Hk by exact Ht. discriminate. }
  f_equal.
  - rewrite <- imap_const. apply imap_ext. intros k po_it Hk. simpl.
    unfold po_row_at. rewrite claim_of_above by exact Ht.
    f_equal. f_equal. apply scan_ext. intros idx. split.
    + intros Hin. exfalso. apply (Hnone idx).
      apply used_after_claims in Hin as (j & _ & Hj).
      * apply list_elem_of_lookup. exists j. exact Hj.
      * apply lookup_lt_Some in Hk. lia.
    + intros Hin. apply not_elem_of_empty in Hin. contradiction.
  - f_equal. unfold never_claimed_entries.
    rewrite filter_all by (intros [idx x]; apply Hnone).
    unfold enumerate. apply snd_zip. rewrite length_seq. reflexivity.
Qed.

Lemma threshold_above_one_witness :
  length (item_rows Samples.po_doc Samples.inv_doc (11 # 10)) = 4.
Proof.
  rewrite (threshold_above_one Samples.po_doc Samples.inv_doc (11 # 10));
    reflexivity.
Defined.

Lemma po_loop_no_invoice (t : Q) (l : list LineItem) : forall inv_used rows,
  snd (fold_left (po_step t []) l (inv_used, rows))
  = rows ++ map (fun po_it => po_row po_it None 0) l.
Proof.
  induction l as [|po_it l IH]; intros inv_used rows; simpl.
  - rewrite app_nil_r. reflexivity.
  - unfold accept. simpl.
    destruct (Qle_bool t 0); rewrite IH, <- app_assoc; reflexivity.
Qed.

Lemma header_status_blank_r v : header_status v (VStr "") = "Mismatch".
Proof.
  destruct (header_status_cases v (VStr "")) as [H|H]; [|exact H].
  apply header_status_match in H. destruct H as (_ & H & _).
  exfalso. apply H. reflexivity.
Qed.

(** When one of the two records is missing or empty - its extraction
    failed - every header check is a Mismatch; every invoice item is
    reported unmatched when the PO record is the missing one, and every PO
    item gets a row with an empty invoice side and score 0 when the invoice
    record is. *)
Theorem missing_record po_struct inv_struct (t : Q) :
  compare_structures None inv_struct t
  = (map (fun '(label, key) =>
            (label, VStr "", field_of inv_struct key, "Mismatch"))
       [ ("Document Number", number); ("Vendor", vendor);
         ("Date", date); ("Grand Total", grand_total) ],
     map unmatched_row (items_of inv_struct))
  /\ compare_structures po_struct None t
     = (map (fun '(label, key) =>
               (label, field_of po_struct key, VStr "", "Mismatch"))
          [ ("Document Number", number); ("Vendor", vendor);
            ("Date", date); ("Grand Total", grand_total) ],
        map (fun po_it => po_row po_it None 0) (items_of po_struct)).
Proof.
  split.
  - unfold compare_structures. simpl. rewrite unmatched_fold. simpl.
    f_equal. f_equal.
    rewrite filter_all by (intros [idx x]; simpl; apply not_elem_of_empty).
    unfold enumerate. apply snd_zip. rewrite length_seq. reflexivity.
  - unfold compare_structures.
    pose proof (po_loop_no_invoice t (items_of po_struct) ∅ []) as Hrows.
    change (items_of None) with (@nil LineItem).
    destruct (fold_left (po_step t []) (items_of po_struct) (∅, []))
      as [u rows]. simpl in Hrows. subst rows. simpl.
    rewrite !header_status_blank_r. reflexivity.
Qed.

(** A header check gives the same status with the two values exchanged, and
    sees of each value only its string form without the white space around
    it. *)
Theorem header_status_symmetric (po_val inv_val : value) :
  header_status po_val inv_val = header_status inv_val po_val
  /\ header_status (VStr (PyStr.strip (py_str po_val))) inv_val
     = header_status po_val inv_val
  /\ header_status po_val (VStr (PyStr.strip (py_str inv_val)))
     = header_status po_val inv_val.
Proof.
  unfold header_status. simpl. rewrite !strip_idem. split; [|split];
    try reflexivity.
  rewrite (String.eqb_sym (PyStr.strip (py_str po_val))).
  destruct (PyStr.truthy (PyStr.strip (py_str po_val)));
    destruct (PyStr.truthy (PyStr.strip (py_str inv_val))); reflexivity.
Qed.

End ReportShape.

(** ** The structure extractor (app.py:41-85) *)

Section ExtractorFacts.

Import Extractor.

Lemma from_first_Some c (l l' : list ascii) :
  from_first c l = Some l'
  <-> exists pre rest,
        l = pre ++ c :: rest /\ (c ∉ pre) /\ l' = c :: rest.
Proof.
  revert l'. induction l as [|x l IH]; intros l'; simpl.
  - split; [discriminate|]. intros (pre & rest & H & _).
    destruct pre; discriminate.
  - destruct (Ascii.eqb_spec x c) as [->|Hne].
    + split.
      * intros [= <-]. exists [], l. split; [reflexivity|].
        split; [apply not_elem_of_nil|reflexivity].
      * intros ([|y pre] & rest & H & Hpre & ->).
        -- simpl in H. injection H as <-. reflexivity.
        -- simpl in H. injection H as <- _. exfalso. apply Hpre. left.
    + rewrite IH. split.
      * intros (pre & rest & -> & Hpre & ->). exists (x :: pre), rest.
        split; [reflexivity|]. split; [|reflexivity].
        apply not_elem_of_cons. split; [congruence|exact Hpre].
      * intros ([|y pre] & rest & H & Hpre & ->).
        -- simpl in H. injection H as -> _. contradiction.
        -- simpl in H. injection H as <- ->. exists pre, rest.
           split; [reflexivity|]. split; [|reflexivity].
           apply not_elem_of_cons in Hpre. apply Hpre.
Qed.

Lemma not_elem_of_rev (c : ascii) (l : list ascii) : c ∉ l -> c ∉ rev l.
Proof.
  intros H Hin. apply H. apply list_elem_of_In. apply in_rev.
  apply list_elem_of_In. exact Hin.
Qed.

Lemma search_braces_Some (s m : string) :
  search_braces s = Some m
  <-> exists pre body suf,
        PyStr.chars s = pre ++ open_brace :: body ++ close_brace :: suf
        /\ (open_brace ∉ pre) /\ (close_brace ∉ suf)
        /\ m = PyStr.of_chars (open_brace :: body ++ [close_brace]).
Proof.
  unfold search_braces. split.
  - destruct (from_first open_brace (PyStr.chars s)) as [l|] eqn:Hl;
      [|discriminate].
    apply from_first_Some in Hl as (pre & rest & Hs & Hpre & ->).
    destruct (from_first close_brace (rev (open_brace :: rest)))
      as [r|] eqn:Hr; [|discriminate].
    apply from_first_Some in Hr as (pre2 & rest2 & Hrev & Hpre2 & ->).
    intros [= <-].
    apply (f_equal (@rev ascii)) in Hrev.
    rewrite rev_involutive, rev_app_distr in Hrev. simpl in Hrev.
    rewrite <- app_assoc in Hrev. simpl in Hrev.
    destruct (rev rest2) as [|x body].
    + simpl in Hrev. injection Hrev as Hbad _. discriminate Hbad.
    + simpl in Hrev. injection Hrev as <- ->.
      exists pre, body, (rev pre2). split; [exact Hs|].
      split; [exact Hpre|]. split; [apply not_elem_of_rev; exact Hpre2|].
      reflexivity.
  - intros (pre & body & suf & Hs & Hpre & Hsuf & ->).
    assert (Hl : from_first open_brace (PyStr.chars s)
                 = Some (open_brace :: body ++ close_brace :: suf)).
    { apply from_first_Some. exists pre, (body ++ close_brace :: suf). auto. }
    rewrite Hl.
    assert (Hr : from_first close_brace
                   (rev (open_brace :: body ++ close_brace :: suf))
                 = Some (close_brace :: rev (open_brace :: body))).
    { apply from_first_Some. exists (rev suf), (rev (open_brace :: body)).
      split; [|split; [apply not_elem_of_rev; exact Hsuf|reflexivity]].
      change (open_brace :: body ++ close_brace :: suf)
        with ((open_brace :: body) ++ close_brace :: suf).
      rewrite rev_app_distr. simpl. rewrite <- app_assoc. reflexivity. }
    rewrite Hr. f_equal. f_equal.
    change (close_brace :: rev (open_brace :: body))
      with ([close_brace] ++ rev (open_brace :: body)).
    rewrite rev_app_distr, rev_involutive. reflexivity.
Qed.

Lemma after_first_brace (pre rest p0 r0 : list ascii) :
  pre ++ open_brace :: rest = p0 ++ open_brace :: r0 ->
  open_brace ∉ p0 -> close_brace ∈ rest -> close_brace ∈ r0.
Proof.
  intros Heq Hp0 Hin.
  apply app_eq_inv in Heq as [(k & -> & Hk)|(k & -> & Hk)].
  - destruct k as [|y k]; simpl in Hk.
    + injection Hk as ->. exact Hin.
    + injection Hk as _ ->. rewrite elem_of_app, elem_of_cons. auto.
  - destruct k as [|y k]; simpl in Hk.
    + injection Hk as ->. exact Hin.
    + injection Hk as <- _. exfalso. apply Hp0.
      rewrite elem_of_app, elem_of_cons. auto.
Qed.

(** [re.search] on the response: a match is the stretch from the first
    opening brace to the last closing brace after it, and there is none
    exactly when no closing brace follows an opening one. *)
Theorem search_braces_spec (s : string) :
  (forall m,
     search_braces s = Some m
     <-> exists pre body suf,
           PyStr.chars s = pre ++ open_brace :: body ++ close_brace :: suf
           /\ (open_brace ∉ pre) /\ (close_brace ∉ suf)
           /\ m = PyStr.of_chars (open_brace :: body ++ [close_brace]))
  /\ (search_braces s = None
      <-> ~ exists pre rest,
            PyStr.chars s = pre ++ open_brace :: rest /\ close_brace ∈ rest).
Proof.
  split; [intros m; apply search_braces_Some|]. split.
  - intros Hnone (pre & rest & Hs & Hin).
    assert (Hopen : open_brace ∈ PyStr.chars s).
    { rewrite Hs, elem_of_app, elem_of_cons. auto. }
    apply list_elem_of_split_l in Hopen as (p0 & r0 & Hs0 & Hp0).
    assert (Hclose : close_brace ∈ r0).
    { rewrite Hs0 in Hs. symmetry in Hs.
      exact (after_first_brace _ _ _ _ Hs Hp0 Hin). }
    apply list_elem_of_split_r in Hclose as (body & suf & -> & Hsuf).
    assert (Hsome : search_braces s
                    = Some (PyStr.of_chars (open_brace :: body ++ [close_brace]))).
    { apply search_braces_Some. exists p0, body, suf. auto. }
    congruence.
  - intros Hno. destruct (search_braces s) as [m|] eqn:Hm; [|reflexivity].
    apply search_braces_Some in Hm as (pre & body & suf & Hs & _).
    exfalso. apply Hno. exists pre, (body ++ close_brace :: suf).
    split; [exact Hs|]. rewrite elem_of_app, elem_of_cons. auto.
Qed.

Section Call.

Variable parsed : Type.
Variable prompt_for : string -> string -> string.
Variable generate_content : string -> string + exn.
Variable json_loads : string -> option parsed + exn.

Lemma brace_delimited (raw : string) (pre body suf : list ascii) :
  PyStr.chars raw = pre ++ open_brace :: body ++ close_brace :: suf ->
  open_brace ∉ pre -> close_brace ∉ suf ->
  PyStr.startswith open_brace raw && PyStr.endswith close_brace raw = true ->
  raw = PyStr.of_chars (open_brace :: body ++ [close_brace]).
Proof.
  intros Hraw Hpre Hsuf Hboth. apply andb_prop in Hboth as [Hstart Hend].
  unfold PyStr.startswith in Hstart. unfold PyStr.endswith in Hend.
  rewrite Hraw in Hstart, Hend.
  assert (pre = []) as ->.
  { destruct pre as [|x pre]; [reflexivity|]. simpl in Hstart.
    apply Ascii.eqb_eq in Hstart. subst x. exfalso. apply Hpre. left. }
  assert (suf = []) as ->.
  { assert (Hrev : rev ([] ++ open_brace :: body ++ close_brace :: suf)
                   = rev suf ++ close_brace :: rev (open_brace :: body)).
    { change ([] ++ open_brace :: body ++ close_brace :: suf)
        with ((open_brace :: body) ++ close_brace :: suf).
      rewrite rev_app_distr. simpl. rewrite <- app_assoc. reflexivity. }
    rewrite Hrev in Hend. clear Hrev.
    destruct (rev suf) as [|y r] eqn:Hr.
    - apply (f_equal (@rev ascii)) in Hr. rewrite rev_involutive in Hr.
      exact Hr.
    - simpl in Hend. apply Ascii.eqb_eq in Hend. subst y. exfalso.
      apply Hsuf. apply list_elem_of_In, in_rev. rewrite Hr. left.
      reflexivity. }
  rewrite <- (of_chars_chars raw), Hraw. reflexivity.
Qed.

(** A response that holds a JSON object with text around it - nothing
    before its opening brace has an opening brace, nothing after its
    closing brace has a closing one - is decoded from the object alone:
    [json.loads] is handed the object, and the call returns the value it
    returns with no error, the invalid-JSON error with the stripped
    response when it raises [json.JSONDecodeError], and the calling error
    with the message of any other exception it raises. *)
Theorem json_object_unwrapped (GEMINI_KEY : option string)
    (text doc_type response : string) (pre body suf : list ascii) :
  no_key GEMINI_KEY = false ->
  generate_content (prompt_for doc_type (PyStr.prefix text_limit text))
  = inl response ->
  PyStr.chars (PyStr.strip response)
  = pre ++ open_brace :: body ++ close_brace :: suf ->
  open_brace ∉ pre -> close_brace ∉ suf ->
  fst (call_gemini_for_structure parsed prompt_for generate_content
         json_loads GEMINI_KEY text doc_type)
  = match json_loads (PyStr.of_chars (open_brace :: body ++ [close_brace]))
    with
    | inl v => Return v None
    | inr JSONDecodeError =>
        Return None
          (Some ("AI returned invalid JSON. Raw response:"
                 +:+ String (ascii_of_nat 10) (PyStr.strip response)))
    | inr (Other e) => Return None (Some ("Error calling Gemini: " +:+ e))
    end.
Proof.
  intros Hkey Hresp Hraw Hpre Hsuf. unfold call_gemini_for_structure.
  rewrite Hkey, Hresp.
  set (raw := PyStr.strip response) in *.
  set (obj := PyStr.of_chars (open_brace :: body ++ [close_brace])).
  assert (Hjson :
            (if negb (PyStr.startswith open_brace raw
                      && PyStr.endswith close_brace raw)
             then match search_braces raw with
                  | Some m => m
                  | None => raw
                  end
             else raw) = obj).
  { destruct (PyStr.startswith open_brace raw
              && PyStr.endswith close_brace raw) eqn:Hboth; simpl.
    - exact (brace_delimited raw pre body suf Hraw Hpre Hsuf Hboth).
    - assert (Hs : search_braces raw = Some obj).
      { apply search_braces_Some. exists pre, body, suf. auto. }
      rewrite Hs. reflexivity. }
  rewrite Hjson. destruct (json_loads obj) as [v|[|e]]; reflexivity.
Qed.

(** A call never returns a record together with an error.  It returns
    no error and the value [json.loads] returned - a record, or [None]
    when the reply is the JSON [null] - which takes a key and an answer of
    the service; or it returns no record and a non-empty error; or, when
    the service itself raises [json.JSONDecodeError], it returns nothing
    and is left by [UnboundLocalError].  It hands the service no prompt
    without a key and one prompt with a key, made of the document type and
    the first 15000 characters of the text at most. *)
Theorem call_outcome (GEMINI_KEY : option string) (text doc_type : string) :
  let prompt := prompt_for doc_type (PyStr.prefix text_limit text) in
  let r := call_gemini_for_structure parsed prompt_for generate_content
             json_loads GEMINI_KEY text doc_type in
  ((exists v,
      fst r = Return v None /\ no_key GEMINI_KEY = false
      /\ exists response json_text,
           generate_content prompt = inl response
           /\ json_loads json_text = inl v)
   \/ (exists e, fst r = Return None (Some e) /\ e <> "")
   \/ (fst r = UnboundLocalError /\ no_key GEMINI_KEY = false
       /\ generate_content prompt = inr JSONDecodeError))
  /\ (forall v e, fst r = Return (Some v) e -> e = None)
  /\ snd r = (if no_key GEMINI_KEY then [] else [prompt])
  /\ length (PyStr.chars (PyStr.prefix text_limit text))
     = Nat.min text_limit (length (PyStr.chars text))
  /\ (exists rest,
        PyStr.chars text
        = PyStr.chars (PyStr.prefix text_limit text) ++ rest)
  /\ (length (PyStr.chars text) <= text_limit ->
      PyStr.prefix text_limit text = text).
Proof.
  intros prompt r. subst r prompt. unfold call_gemini_for_structure.
  split; [|split; [|split; [|split; [apply prefix_length
                                    |split; [|apply prefix_all]]]]].
  - destruct (no_key GEMINI_KEY).
    + right. left. eexists. split; [reflexivity|discriminate].
    + destruct (generate_content _) as [resp|[|e]] eqn:Hanswer.
      * destruct (json_loads _) as [v|[|e]] eqn:Hloads.
        -- left. exists v. split; [reflexivity|]. split; [reflexivity|].
           eexists resp, _. split; [reflexivity|exact Hloads].
        -- right. left. eexists. split; [reflexivity|discriminate].
        -- right. left. eexists. split; [reflexivity|discriminate].
      * right. right. auto.
      * right. left. eexists. split; [reflexivity|discriminate].
  - intros v e. destruct (no_key GEMINI_KEY); [discriminate|].
    destruct (generate_content _) as [resp|[|e']]; try discriminate.
    destruct (json_loads _) as [v'|[|e']]; simpl; try discriminate.
    intros [= _ <-]. reflexivity.
  - destruct (no_key GEMINI_KEY); [reflexivity|].
    destruct (generate_content _) as [resp|[|e]]; try reflexivity.
    destruct (json_loads _) as [v|[|e]]; reflexivity.
  - exists (drop text_limit (PyStr.chars text)).
    unfold PyStr.prefix. rewrite chars_of_chars, take_drop. reflexivity.
Qed.

End Call.

(** The ends of a call that has a key: a value, [null] among them; text
    that is no JSON; an object nested too deep; a service that fails; a
    service that fails with [json.JSONDecodeError]. *)
Example call_samples :
  let call answer loads :=
    fst (call_gemini_for_structure nat (fun doc_type text => doc_type +:+ text)
           (fun prompt => answer) loads (Some "key") "PO-12345" "Invoice")
  in
  call (inl "null") (fun json_text => inl None) = Return None None
  /\ call (inl " {x} ") (fun json_text => inl (Some 7))
     = Return (Some 7) None
  /\ call (inl " oops ") (fun json_text => inr JSONDecodeError)
     = Return None
         (Some ("AI returned invalid JSON. Raw response:"
                +:+ String (ascii_of_nat 10) "oops"))
  /\ call (inl "{{{{")
       (fun json_text => inr (Other "maximum recursion depth exceeded"))
     = Return None
         (Some "Error calling Gemini: maximum recursion depth exceeded")
  /\ call (inr (Other "quota")) (fun json_text => inl None)
     = Return None (Some "Error calling Gemini: quota")
  /\ call (inr JSONDecodeError) (fun json_text => inl None)
     = UnboundLocalError.
Proof. repeat split. Qed.

Lemma json_object_unwrapped_witness :
  fst (call_gemini_for_structure nat (fun doc_type text => doc_type +:+ text)
         (fun prompt => inl "Here it is: {x} - done.  ")
         (fun json_text =>
            if String.eqb json_text "{x}" then inl (Some 7)
            else inr JSONDecodeError)
         (Some "key") "PO-12345" "Invoice")
  = Return (Some 7) None.
Proof.
  apply (json_object_unwrapped nat (fun doc_type text => doc_type +:+ text)
           (fun prompt => inl "Here it is: {x} - done.  ")
           (fun json_text =>
              if String.eqb json_text "{x}" then inl (Some 7)
              else inr JSONDecodeError)
           (Some "key") "PO-12345" "Invoice" "Here it is: {x} - done.  "
           (PyStr.chars "Here it is: ") (PyStr.chars "x")
           (PyStr.chars " - done.")).
  - reflexivity.
  - reflexivity.
  - reflexivity.
  - vm_compute. intros H.
    repeat (apply elem_of_cons in H as [H|H]; [discriminate|]).
    apply elem_of_nil in H. contradiction.
  - vm_compute. intros H.
    repeat (apply elem_of_cons in H as [H|H]; [discriminate|]).
    apply elem_of_nil in H. contradiction.
Defined.

End ExtractorFacts.

(** ** The text extractor (app.py:26-38) *)

Section TextExtractorFacts.

Import TextExtractor.

Lemma collect_texts (texts : list (option string)) : forall pages_text,
  collect (map PageText texts) pages_text
  = inr (pages_text ++ omap kept_text texts).
Proof.
  induction texts as [|t texts IH]; intros pages_text; simpl.
  - rewrite app_nil_r. reflexivity.
  - rewrite IH. destruct t as [s|]; simpl; [|reflexivity].
    destruct (PyStr.truthy s); [|reflexivity].
    rewrite <- app_assoc. reflexivity.
Qed.

Lemma collect_raises (texts : list (option string)) e rest :
  forall pages_text,
    collect (map PageText texts ++ PageRaises e :: rest) pages_text = inl e.
Proof.
  induction texts as [|t texts IH]; intros pages_text; simpl;
    [reflexivity|apply IH].
Qed.

(** When every page is read, the text is that of the pages that have
    some, joined by blank lines and stripped; a page without text adds
    nothing, not even a separator, wherever it stands. *)
Theorem extract_text_pages (texts : list (option string)) :
  extract_text_from_pdf (inr (map PageText texts))
  = (PyStr.strip (join blank_line (omap kept_text texts)), [])
  /\ (forall before after,
        texts = before ++ after ->
        extract_text_from_pdf (inr (map PageText (before ++ None :: after)))
        = extract_text_from_pdf (inr (map PageText texts))
        /\ extract_text_from_pdf
             (inr (map PageText (before ++ Some "" :: after)))
           = extract_text_from_pdf (inr (map PageText texts))).
Proof.
  assert (Hall : forall l,
            extract_text_from_pdf (inr (map PageText l))
            = (PyStr.strip (join blank_line (omap kept_text l)), [])).
  { intros l. unfold extract_text_from_pdf. rewrite collect_texts.
    reflexivity. }
  split; [apply Hall|].
  intros before after ->. rewrite !Hall, !omap_app. split; reflexivity.
Qed.

(** When the file cannot be opened, or a page cannot be read, the text is
    empty, whatever the pages before held, and one error is reported. *)
Theorem extract_text_failure (e : string) (texts : list (option string))
    (rest : list page) :
  extract_text_from_pdf (inl e) = ("", ["Could not read PDF: " +:+ e])
  /\ extract_text_from_pdf (inr (map PageText texts ++ PageRaises e :: rest))
     = ("", ["Could not read PDF: " +:+ e]).
Proof.
  split; [reflexivity|]. unfold extract_text_from_pdf.
  rewrite collect_raises. reflexivity.
Qed.

(** The text returned never starts or ends with white space, and is empty
    whenever an error is reported. *)
Theorem extract_text_trimmed (file_obj : pdf) :
  let r := extract_text_from_pdf file_obj in
  trimmed (PyStr.chars (fst r))
  /\ PyStr.strip (fst r) = fst r
  /\ (snd r = []
      \/ (fst r = "" /\ exists e, snd r = ["Could not read PDF: " +:+ e])).
Proof.
  assert (Hempty : trimmed (PyStr.chars "")).
  { split; intros c l' H; [discriminate|]. destruct l'; discriminate. }
  intros r. subst r. unfold extract_text_from_pdf.
  destruct file_obj as [e|pages].
  - split; [exact Hempty|]. split; [reflexivity|]. right. eauto.
  - destruct (collect pages []) as [e|pages_text].
    + split; [exact Hempty|]. split; [reflexivity|]. right. eauto.
    + split; [apply strip_trimmed|]. split; [apply strip_idem|].
      left. reflexivity.
Qed.

End TextExtractorFacts.

(** ** The handler of the Compare button (app.py:187-215) *)

Section HandlerFacts.

Import Comparator App.

Variable prompt_for : string -> string -> string.
Variable generate_content : list string -> string -> string + Extractor.exn.
Variable json_loads : string -> option json_value + Extractor.exn.
Variable GEMINI_KEY : option string.

Local Abbreviation clicked :=
  (compare_clicked prompt_for generate_content json_loads GEMINI_KEY).

Local Abbreviation call history :=
  (Extractor.call_gemini_for_structure json_value prompt_for
     (generate_content history) json_loads GEMINI_KEY).



(** The click, told through the two calls. *)
Lemma clicked_cases percent po inv :
  let po_text := fst (TextExtractor.extract_text_from_pdf po) in
  let inv_text := fst (TextExtractor.extract_text_from_pdf inv) in
  let screen rest :=
    map st_error (snd (TextExtractor.extract_text_from_pdf po))
    ++ map st_error (snd (TextExtractor.extract_text_from_pdf inv))
    ++ [ st_subheader "Raw extracted text (first 4000 chars)";
         st_code (PyStr.prefix preview_limit po_text);
         st_code (PyStr.prefix preview_limit inv_text) ]
    ++ rest in
  let po_call := call [] po_text "Purchase Order" in
  let inv_call := call (snd po_call) inv_text "Invoice" in
  clicked percent (Some po) (Some inv)
  = match fst po_call with
    | Extractor.UnboundLocalError =>
        {| shown := screen []; sent := snd po_call;
           parsed := (None, None); report := None; raised := true |}
    | Extractor.Return po_struct po_err =>
        match fst inv_call with
        | Extractor.UnboundLocalError =>
            {| shown := screen []; sent := snd po_call ++ snd inv_call;
               parsed := (po_struct, None); report := None;
               raised := true |}
        | Extractor.Return inv_struct inv_err =>
            {| shown :=
                 screen
                   (show_error "PO parsing error: " po_err
                    ++ show_error "Invoice parsing error: " inv_err
                    ++ [ st_subheader "AI Parsed JSON (PO)";
                         st_json (or_empty po_struct);
                         st_subheader "AI Parsed JSON (Invoice)";
                         st_json (or_empty inv_struct) ]);
               sent := snd po_call ++ snd inv_call;
               parsed := (po_struct, inv_struct);
               report :=
                 compare po_struct inv_struct (slider_threshold percent);
               raised :=
                 match compare po_struct inv_struct (slider_threshold percent)
                 with Some _ => false | None => true end |}
        end
    end.
Proof.
  intros po_text inv_text screen po_call inv_call.
  subst po_call inv_call screen po_text inv_text. unfold compare_clicked.
  destruct (TextExtractor.extract_text_from_pdf po) as [po_text po_shown].
  destruct (TextExtractor.extract_text_from_pdf inv) as [inv_text inv_shown].
  cbn [fst snd].
  destruct (call [] po_text "Purchase Order") as [[po_struct po_err|] po_sent];
    cbn [fst snd]; [|reflexivity].
  destruct (call po_sent inv_text "Invoice")
    as [[inv_struct inv_err|] inv_sent]; reflexivity.
Qed.

Lemma compare_cases (x y : option json_value) (t : Q) :
  (forall po_struct inv_struct,
     as_record x = Some po_struct -> as_record y = Some inv_struct ->
     compare x y t = Some (compare_structures po_struct inv_struct t))
  /\ (compare x y t = None
      <-> x = Some (JOther true) \/ y = Some (JOther true))
  /\ (forall rep, compare x y t = Some rep ->
        exists po_struct inv_struct,
          as_record x = Some po_struct /\ as_record y = Some inv_struct
          /\ rep = compare_structures po_struct inv_struct t).
Proof.
  unfold compare.
  destruct x as [[dx|[|]]|], y as [[dy|[|]]|]; simpl;
    (split; [|split]);
    try (intros ? ? [= <-] [= <-]; reflexivity);
    try (intros ? ? H1 H2; discriminate);
    try (split; [discriminate | intros [H|H]; discriminate]);
    try (split; [auto | reflexivity]);
    try (intros rep [= <-]; eexists _, _; repeat split);
    try (intros rep H; discriminate).
Qed.

(** A click with an uploader left empty shows one error and does nothing
    else: no text is extracted, nothing is sent, nothing is compared. *)
Theorem click_without_files percent
    (po_file inv_file : option TextExtractor.pdf) :
  po_file = None \/ inv_file = None ->
  clicked percent po_file inv_file
  = {| shown := [st_error "Upload both PO and Invoice PDFs."];
       sent := []; parsed := (None, None); report := None;
       raised := false |}.
Proof.
  intros [-> | ->]; [reflexivity|]. destruct po_file; reflexivity.
Qed.


(** Without a key, a click with both files sends nothing, shows both
    parsing errors, and compares two empty records: four header checks,
    all "Mismatch", and no item row. *)
Theorem click_without_key percent (po inv : TextExtractor.pdf) :
  GEMINI_KEY = None \/ GEMINI_KEY = Some "" ->
  clicked percent (Some po) (Some inv)
  = {| shown :=
         map st_error (snd (TextExtractor.extract_text_from_pdf po))
         ++ map st_error (snd (TextExtractor.extract_text_from_pdf inv))
         ++ [ st_subheader "Raw extracted text (first 4000 chars)";
              st_code (PyStr.prefix preview_limit
                         (fst (TextExtractor.extract_text_from_pdf po)));
              st_code (PyStr.prefix preview_limit
                         (fst (TextExtractor.extract_text_from_pdf inv)));
              st_error "PO parsing error: No API key configured.";
              st_error "Invoice parsing error: No API key configured.";
              st_subheader "AI Parsed JSON (PO)"; st_json None;
              st_subheader "AI Parsed JSON (Invoice)"; st_json None ];
       sent := [];
       parsed := (None, None);
       report := Some (blank_header_checks, []);
       raised := false |}.
Proof.
  intros Hkey. unfold compare_clicked.
  destruct (TextExtractor.extract_text_from_pdf po) as [po_text po_shown].
  destruct (TextExtractor.extract_text_from_pdf inv) as [inv_text inv_shown].
  unfold Extractor.call_gemini_for_structure.
  destruct Hkey as [-> | ->]; reflexivity.
Qed.

Lemma slider_bounds percent :
  50 <= percent <= 95 ->
  (1 # 2 <= slider_threshold percent)%Q
  /\ (slider_threshold percent <= 95 # 100)%Q.
Proof.
  intros [Hlo Hhi]. unfold slider_threshold, Qle. simpl. lia.
Qed.

(** The slider keeps the threshold between 0.50 and 0.95, so the
    comparison of a click that no exception leaves is made at that
    threshold, on the two decoded values read as records, and every
    comparison at that threshold follows the matching rule of C1. *)
Theorem click_threshold percent (po inv : TextExtractor.pdf) :
  50 <= percent <= 95 ->
  let c := clicked percent (Some po) (Some inv) in
  let t := slider_threshold percent in
  (1 # 2 <= t)%Q /\ (t <= 95 # 100)%Q
  /\ (raised c = false ->
      exists po_struct inv_struct,
        as_record (fst (parsed c)) = Some po_struct
        /\ as_record (snd (parsed c)) = Some inv_struct
        /\ report c = Some (compare_structures po_struct inv_struct t))
  /\ (forall po_struct inv_struct,
        matching_rule t (items_of po_struct) (items_of inv_struct)).
Proof.
  intros Hp c t. destruct (slider_bounds percent Hp) as [Hlo Hhi].
  split; [exact Hlo|]. split; [exact Hhi|]. split.
  - pose proof (clicked_cases percent po inv) as Hc.
    cbv zeta in Hc. fold c in Hc. rewrite Hc. clear Hc.
    destruct (fst (call [] _ "Purchase Order")) as [po_struct po_err|];
      [|discriminate].
    destruct (fst (call _ _ "Invoice")) as [inv_struct inv_err|];
      [|discriminate].
    cbn [raised report parsed fst snd]. fold t.
    destruct (compare_cases po_struct inv_struct t) as (_ & _ & Hsome).
    destruct (compare po_struct inv_struct t) as [rep|]; [|discriminate].
    intros _. destruct (Hsome rep eq_refl) as (p & i & Hp' & Hi & ->).
    exists p, i. auto.
  - intros po_struct inv_struct. apply matching_rule_positive.
    eapply Qlt_le_trans; [|exact Hlo]. reflexivity.
Qed.

(** The two previews a click shows hold 4000 characters at most each, and
    whole texts when these are no longer. *)
Theorem click_previews percent (po inv : TextExtractor.pdf) s :
  st_code s ∈ shown (clicked percent (Some po) (Some inv)) ->
  length (PyStr.chars s) <= preview_limit
  /\ (s = PyStr.prefix preview_limit
            (fst (TextExtractor.extract_text_from_pdf po))
      \/ s = PyStr.prefix preview_limit
               (fst (TextExtractor.extract_text_from_pdf inv))).
Proof.
  assert (Herr : forall l, st_code s ∉ map st_error l).
  { intros l H. apply list_elem_of_fmap in H as (x & Hx & _). discriminate. }
  assert (Hshow : forall label err, st_code s ∉ show_error label err).
  { intros label [e|] H; simpl in H.
    - destruct (PyStr.truthy e).
      + apply elem_of_cons in H as [H|H]; [discriminate|].
        apply elem_of_nil in H. contradiction.
      + apply elem_of_nil in H. contradiction.
    - apply elem_of_nil in H. contradiction. }
  assert (Hscreen : forall a b x y rest,
            st_code s ∈ map st_error a ++ map st_error b
                        ++ [ st_subheader "Raw extracted text (first 4000 chars)";
                             st_code (PyStr.prefix preview_limit x);
                             st_code (PyStr.prefix preview_limit y) ] ++ rest ->
            st_code s ∉ rest ->
            length (PyStr.chars s) <= preview_limit
            /\ (s = PyStr.prefix preview_limit x
                \/ s = PyStr.prefix preview_limit y)).
  { intros a b x y rest Hin Hrest.
    apply elem_of_app in Hin as [Hin|Hin]; [exfalso; exact (Herr _ Hin)|].
    apply elem_of_app in Hin as [Hin|Hin]; [exfalso; exact (Herr _ Hin)|].
    apply elem_of_app in Hin as [Hin|Hin]; [|contradiction].
    apply elem_of_cons in Hin as [Hin|Hin]; [discriminate|].
    apply elem_of_cons in Hin as [Hin|Hin].
    - injection Hin as ->. split; [|left; reflexivity].
      rewrite prefix_length. lia.
    - apply elem_of_cons in Hin as [Hin|Hin].
      + injection Hin as ->. split; [|right; reflexivity].
        rewrite prefix_length. lia.
      + apply elem_of_nil in Hin. contradiction. }
  pose proof (clicked_cases percent po inv) as Hc. cbv zeta in Hc.
  rewrite Hc. clear Hc.
  destruct (fst (call [] _ "Purchase Order")) as [po_struct po_err|];
    [destruct (fst (call _ _ "Invoice")) as [inv_struct inv_err|]|];
    cbn [shown]; intros Hin; apply (Hscreen _ _ _ _ _ Hin).
  - intros H.
    apply elem_of_app in H as [H|H]; [exact (Hshow _ _ H)|].
    apply elem_of_app in H as [H|H]; [exact (Hshow _ _ H)|].
    repeat (apply elem_of_cons in H as [H|H]; [discriminate|]).
    apply elem_of_nil in H. contradiction.
  - apply not_elem_of_nil.
  - apply not_elem_of_nil.
Qed.

End HandlerFacts.

Section HandlerWitnesses.

Import Comparator App.

(** Replies that are valid JSON and no object: the number 5 for the
    Purchase Order stops the comparison, the number 0 does not.  A service
    that raises [json.JSONDecodeError] stops the click at its first
    call. *)
Example click_on_a_number :
  let click answer :=
    compare_clicked (fun doc_type text => doc_type +:+ text)
      (fun history prompt => answer)
      (fun json_text => inl (Some (JOther (negb (String.eqb json_text "0")))))
      (Some "key") 70
      (Some (inr [TextExtractor.PageText (Some "PO")]))
      (Some (inr [TextExtractor.PageText (Some "INV")])) in
  (report (click (inl "5")) = None /\ raised (click (inl "5")) = true)
  /\ (report (click (inl "0")) = Some (blank_header_checks, [])
      /\ raised (click (inl "0")) = false)
  /\ (raised (click (inr Extractor.JSONDecodeError)) = true
      /\ sent (click (inr Extractor.JSONDecodeError)) = ["Purchase OrderPO"]).
Proof. vm_compute. repeat split. Qed.

Lemma click_without_files_witness :
  (@None TextExtractor.pdf = None \/ Some (inr []) = @None TextExtractor.pdf)
  /\ compare_clicked (fun doc_type text => doc_type +:+ text)
       (fun history prompt => inl "{}")
       (fun json_text => inr Extractor.JSONDecodeError)
       (Some "key") 70 None (Some (inr []))
     = {| shown := [st_error "Upload both PO and Invoice PDFs."];
          sent := []; parsed := (None, None); report := None;
          raised := false |}.
Proof.
  split; [left; reflexivity|].
  apply (click_without_files (fun doc_type text => doc_type +:+ text)
           (fun history prompt => inl "{}")
           (fun json_text => inr Extractor.JSONDecodeError)
           (Some "key") 70 None (Some (inr []))).
  left. reflexivity.
Defined.


Lemma click_without_key_witness :
  report (compare_clicked (fun doc_type text => doc_type +:+ text)
            (fun history prompt => inl "{}")
            (fun json_text => inr Extractor.JSONDecodeError)
            None 70
            (Some (inr [TextExtractor.PageText (Some "PO-12345 ACME Ltd")]))
            (Some (inl "not a PDF")))
  = Some (blank_header_checks, []).
Proof.
  exact (f_equal report
           (click_without_key (fun doc_type text => doc_type +:+ text)
              (fun history prompt => inl "{}")
              (fun json_text => inr Extractor.JSONDecodeError)
              None 70
              (inr [TextExtractor.PageText (Some "PO-12345 ACME Ltd")])
              (inl "not a PDF") (or_introl eq_refl))).
Defined.

Lemma click_threshold_witness :
  50 <= 70 <= 95
  /\ matching_rule (slider_threshold 70)
       (items_of Samples.po_doc) (items_of Samples.inv_doc).
Proof.
  split; [lia|].
  destruct (click_threshold (fun doc_type text => doc_type +:+ text)
              (fun history prompt => inl prompt)
              (fun json_text =>
                 inl (option_map JObject
                        (if PyStr.startswith "P" json_text
                         then Samples.po_doc else Samples.inv_doc)))
              (Some "key") 70
              (inr [TextExtractor.PageText (Some "PO")])
              (inr [TextExtractor.PageText (Some "INV")]))
    as (_ & _ & _ & Hrule); [lia|].
  exact (Hrule Samples.po_doc Samples.inv_doc).
Defined.

Lemma click_previews_witness :
  length (PyStr.chars "PO-12345 ACME Ltd") <= preview_limit.
Proof.
  apply (click_previews (fun doc_type text => doc_type +:+ text)
           (fun history prompt => inl "{}")
           (fun json_text => inr Extractor.JSONDecodeError)
           None 70
           (inr [TextExtractor.PageText (Some "PO-12345 ACME Ltd")])
           (inl "not a PDF") "PO-12345 ACME Ltd").
  vm_compute.
  repeat (apply elem_of_cons; (left; reflexivity) || right).
Defined.

End HandlerWitnesses.
